(** * CPaging: the demand-paging simulator of [main.cpp]

    A shallow embedding of the six page-replacement routines ([FIFO], [RU]
    for LRU and MRU, [OPT] with [identifyPageToRemove], [RAN] for both random
    variants) and of the set-up code of [main], followed by the properties of
    the simulator that the specification talks about.

    Conventions.
    - A C [int] is a [Z]: the values the routines compute are table
      indices, -1, the sentinel 600 and fault counts bounded by the number
      of references, all far inside the 32-bit range for the files of
      about 500 tokens that [main] works on.
    - [int page_table[MAX_NUM_PAGES][3]] and
      [int frame_table[MAX_PAGE_FRAMES][2]] are lists of rows; every
      subscript goes through [index]/[update], which report an access
      outside the array instead of performing it.
    - [vector<int>] is a list in vector order: [back] is the last element,
      [push_back x] appends [x].
    - [reference_string.txt] is the list of its tokens. *)

From Stdlib Require Import String.
From stdpp Require Import base numbers list.

Local Open Scope Z_scope.

(** ** Constants ([#define]s of the source) *)

Definition MAX_NUM_PAGES : Z := 1024.
Definition MAX_PAGE_FRAMES : Z := 48.
Definition PROC_POOL_SIZE : Z := 500.
Definition INVALID_BIT : Z := 0.
Definition VALID_BIT : Z := 1.

(** [RAND_MAX] of <stdlib.h>; the value of glibc. *)
Definition RAND_MAX : Z := 2147483647.


(** ** Checked array accesses *)

Inductive array_id := PageTable | FrameTable.

Inductive result (A : Type) : Type :=
| Ok (a : A)
| OutOfBounds (arr : array_id) (i : Z).
Arguments Ok {A} a.
Arguments OutOfBounds {A} arr i.

#[global] Instance result_ret : MRet result := fun A a => Ok a.
#[global] Instance result_bind : MBind result := fun A B f m =>
  match m with
  | Ok a => f a
  | OutOfBounds arr i => OutOfBounds arr i
  end.

(** [l[i]] as an rvalue. *)
Definition index {A} (arr : array_id) (l : list A) (i : Z) : result A :=
  if i <? 0 then OutOfBounds arr i
  else match l !! Z.to_nat i with
       | Some x => Ok x
       | None => OutOfBounds arr i
       end.

(** [l[i] = f (l[i])]: a store to one column of row [i]. *)
Definition update {A} (arr : array_id) (l : list A) (i : Z) (f : A -> A)
  : result (list A) :=
  x ← index arr l i; Ok (<[Z.to_nat i := f x]> l).

(** [for (i = lo; n iterations; ++i) body], without [break]. *)
Fixpoint for_loop {T} (n : nat) (i : Z) (body : Z -> T -> result T) (s : T)
  : result T :=
  match n with
  | O => Ok s
  | S n' => s' ← body i s; for_loop n' (i + 1) body s'
  end.

(** ** The tables *)

(** A row of [page_table]: column 0 the frame, column 1 the valid bit,
    column 2 auxiliary. *)
Record page_row := PageRow { pg_frame : Z; pg_valid : Z; pg_aux : Z }.

(** A row of [frame_table]: column 0 the occupying page, column 1
    auxiliary (the recency counter of [RU]). *)
Record frame_row := FrameRow { fr_page : Z; fr_aux : Z }.

Definition set_pg_frame (v : Z) (r : page_row) : page_row :=
  PageRow v (pg_valid r) (pg_aux r).
Definition set_pg_valid (v : Z) (r : page_row) : page_row :=
  PageRow (pg_frame r) v (pg_aux r).
Definition set_fr_page (v : Z) (r : frame_row) : frame_row :=
  FrameRow v (fr_aux r).
Definition set_fr_aux (v : Z) (r : frame_row) : frame_row :=
  FrameRow (fr_page r) v.

(** What a routine works on: the two arrays it receives by pointer, its
    private copy of the free frame list, and its local [fault_rate]. *)
Record sim := Sim {
  page_table : list page_row;
  frame_table : list frame_row;
  free_frame_list : list Z;
  fault_rate : Z
}.

(** Which branch of the loop body a reference took, and the frame it was
    given (bookkeeping of the model, not a variable of the source):
    - [Hit]: valid bit set and the frame table agrees;
    - [SoftFault f]: invalid bit, [f] popped from the free frame list;
    - [HardFault v]: invalid bit, free frame list empty, victim [v];
    - [StaleFault v oldframe]: valid bit set but the frame table
      disagrees, victim [v], [oldframe] the frame the page table named. *)
Inductive event :=
| Hit
| SoftFault (frame : Z)
| HardFault (frame : Z)
| StaleFault (frame oldframe : Z).

#[global] Instance event_eq_dec : EqDecision event.
Proof. solve_decision. Defined.

(** ** [isInMemory] *)

Definition isInMemory (frame_table : list frame_row) (page reference : Z)
  : result bool :=
  row ← index FrameTable frame_table page;
  Ok (fr_page row =? reference).

(** The three stores every fault ends with:
    [page_table[reference][0] = freeframe;
     page_table[reference][1] = VALID_BIT;
     frame_table[freeframe][0] = reference;] *)
Definition bind_page (pt : list page_row) (ft : list frame_row)
    (reference freeframe : Z) : result (list page_row * list frame_row) :=
  pt ← update PageTable pt reference (set_pg_frame freeframe);
  pt ← update PageTable pt reference (set_pg_valid VALID_BIT);
  ft ← update FrameTable ft freeframe (set_fr_page reference);
  Ok (pt, ft).

(** The loop of a routine over the successive values of [reference]. *)
Fixpoint run {T} (step : T -> Z -> result (event * T)) (s : T)
    (refs : list Z) : result (list event * T) :=
  match refs with
  | [] => Ok ([], s)
  | r :: refs' =>
      '(e, s') ← step s r;
      '(es, s'') ← run step s' refs';
      Ok (e :: es, s'')
  end.

(** ** [FIFO] *)

(** [freeframe = FIFOSelection; FIFOSelection--;
     if (FIFOSelection == 0) FIFOSelection = MAX_PAGE_FRAMES - 1;] *)
Definition FIFO_advance (FIFOSelection : Z) : Z :=
  let FIFOSelection := FIFOSelection - 1 in
  if FIFOSelection =? 0 then MAX_PAGE_FRAMES - 1 else FIFOSelection.

Definition FIFO_step (s : sim * Z) (reference : Z) : result (event * (sim * Z)) :=
  let '(st, FIFOSelection) := s in
  row ← index PageTable (page_table st) reference;
  if pg_valid row =? INVALID_BIT then
    let '(ev, freeframe, FIFOSelection, fl) :=
      match last (free_frame_list st) with
      | None =>
          (HardFault FIFOSelection, FIFOSelection,
           FIFO_advance FIFOSelection, free_frame_list st)
      | Some back =>
          (SoftFault back, back, FIFOSelection,
           removelast (free_frame_list st))
      end in
    '(pt, ft) ← bind_page (page_table st) (frame_table st) reference freeframe;
    Ok (ev, (Sim pt ft fl (fault_rate st + 1), FIFOSelection))
  else
    inmem ← isInMemory (frame_table st) (pg_frame row) reference;
    if negb inmem then
      let freeframe := FIFOSelection in
      let FIFOSelection := FIFO_advance FIFOSelection in
      let oldframe := pg_frame row in
      frow ← index FrameTable (frame_table st) freeframe;
      let oldpage := fr_page frow in
      pt ← (if negb (oldpage =? -1)
            then update PageTable (page_table st) oldpage
                   (set_pg_valid INVALID_BIT)
            else Ok (page_table st));
      '(pt, ft) ← bind_page pt (frame_table st) reference freeframe;
      ft ← update FrameTable ft oldframe (set_fr_page (-1));
      Ok (StaleFault freeframe oldframe,
          (Sim pt ft (free_frame_list st) (fault_rate st + 1), FIFOSelection))
    else Ok (Hit, (st, FIFOSelection)).

Definition FIFO_run (st : sim) (refs : list Z) : result (list event * (sim * Z)) :=
  run FIFO_step (st, MAX_PAGE_FRAMES - 1) refs.

(** ** [RU]: LRU and MRU *)

(** [x = x++]: the right operand is sequenced before the assignment
    (C++17 [expr.ass]), so the value stored last is the value [x] had
    before the increment. *)
Definition assign_post_increment (x : Z) : Z := x.

(** [for (p = 0; p < MAX_PAGE_FRAMES; ++p) {
       if (p == skip) continue;
       frame_table[p][1] = frame_table[p][1]++; }] *)
Definition RU_age_others (ft : list frame_row) (skip : Z)
  : result (list frame_row) :=
  for_loop (Z.to_nat MAX_PAGE_FRAMES) 0
    (fun p ft =>
       if p =? skip then Ok ft
       else update FrameTable ft p
              (fun r => set_fr_aux (assign_post_increment (fr_aux r)) r))
    ft.

(** The victim scan, written twice in the source (for the empty free list
    and for the stale page): under ["MRU"] the frame with the greatest
    auxiliary value, under any other [type] the one with the least. *)
Definition RU_select (type : string) (ft : list frame_row) : result Z :=
  row0 ← index FrameTable ft 0;
  '(_, freeframe) ←
    for_loop (Z.to_nat (MAX_PAGE_FRAMES - 1)) 1
      (fun k '(m, freeframe) =>
         row ← index FrameTable ft k;
         if (if (type =? "MRU")%string then fr_aux row >? m
             else fr_aux row <? m)
         then Ok (fr_aux row, k)
         else Ok (m, freeframe))
      (fr_aux row0, 0);
  Ok freeframe.

Definition RU_step (type : string) (st : sim) (reference : Z)
  : result (event * sim) :=
  row ← index PageTable (page_table st) reference;
  '(ev, st) ←
    (if pg_valid row =? INVALID_BIT then
       '(ev, freeframe, fl) ←
         match last (free_frame_list st) with
         | None =>
             freeframe ← RU_select type (frame_table st);
             Ok (HardFault freeframe, freeframe, free_frame_list st)
         | Some back =>
             Ok (SoftFault back, back, removelast (free_frame_list st))
         end;
       '(pt, ft) ← bind_page (page_table st) (frame_table st) reference freeframe;
       ft ← RU_age_others ft freeframe;
       Ok (ev, Sim pt ft fl (fault_rate st + 1))
     else
       inmem ← isInMemory (frame_table st) (pg_frame row) reference;
       if negb inmem then
         freeframe ← RU_select type (frame_table st);
         let oldframe := pg_frame row in
         frow ← index FrameTable (frame_table st) freeframe;
         let oldpage := fr_page frow in
         pt ← update PageTable (page_table st) oldpage (set_pg_valid INVALID_BIT);
         '(pt, ft) ← bind_page pt (frame_table st) reference freeframe;
         ft ← RU_age_others ft freeframe;
         Ok (StaleFault freeframe oldframe,
             Sim pt ft (free_frame_list st ++ [oldframe]) (fault_rate st + 1))
       else Ok (Hit, st));
  (* frame_table[page_table[reference][0]][1] = 0; and the ageing loop *)
  row ← index PageTable (page_table st) reference;
  ft ← update FrameTable (frame_table st) (pg_frame row) (set_fr_aux 0);
  ft ← RU_age_others ft (pg_frame row);
  Ok (ev, Sim (page_table st) ft (free_frame_list st) (fault_rate st)).

Definition RU_run (type : string) (st : sim) (refs : list Z)
  : result (list event * sim) :=
  run (RU_step type) st refs.

(** ** [OPT] and [identifyPageToRemove] *)

(** The inner loop of [identifyPageToRemove]: the least [j] with
    [reference_string.at(j) == page], counted from [j]. *)
Fixpoint first_reference (reference_string : list Z) (page : Z) (j : Z)
  : option Z :=
  match reference_string with
  | [] => None
  | r :: rest =>
      if r =? page then Some j else first_reference rest page (j + 1)
  end.

(** What the first two loops leave in [futureref[i]] when frame [i]
    holds [page]: the position of its next reference, or the initial
    [PROC_POOL_SIZE + 100] when the inner loop ends without a match. *)
Definition next_use (reference_string : list Z) (page : Z) : Z :=
  match first_reference reference_string page 0 with
  | Some j => j
  | None => PROC_POOL_SIZE + 100
  end.

Definition futureref (ft : list frame_row) (reference_string : list Z)
    (i : Z) : result Z :=
  row ← index FrameTable ft i;
  Ok (next_use reference_string (fr_page row)).

Definition identifyPageToRemove (ft : list frame_row)
    (reference_string : list Z) : result Z :=
  '(_, victim) ←
    for_loop (Z.to_nat MAX_PAGE_FRAMES) 0
      (fun i '(max_turns, victim) =>
         d ← futureref ft reference_string i;
         if d >? max_turns then Ok (d, i) else Ok (max_turns, victim))
      (-1, 0);
  Ok victim.

Definition OPT_step (s : sim * list Z) (reference : Z)
  : result (event * (sim * list Z)) :=
  let '(st, reference_string) := s in
  row ← index PageTable (page_table st) reference;
  '(ev, st) ←
    (if pg_valid row =? INVALID_BIT then
       '(ev, freeframe, fl) ←
         match last (free_frame_list st) with
         | None =>
             freeframe ← identifyPageToRemove (frame_table st) reference_string;
             Ok (HardFault freeframe, freeframe, free_frame_list st)
         | Some back =>
             Ok (SoftFault back, back, removelast (free_frame_list st))
         end;
       '(pt, ft) ← bind_page (page_table st) (frame_table st) reference freeframe;
       Ok (ev, Sim pt ft fl (fault_rate st + 1))
     else
       inmem ← isInMemory (frame_table st) (pg_frame row) reference;
       if negb inmem then
         freeframe ← identifyPageToRemove (frame_table st) reference_string;
         let oldframe := pg_frame row in
         frow ← index FrameTable (frame_table st) freeframe;
         let oldpage := fr_page frow in
         pt ← update PageTable (page_table st) oldpage (set_pg_valid INVALID_BIT);
         '(pt, ft) ← bind_page pt (frame_table st) reference freeframe;
         Ok (StaleFault freeframe oldframe,
             Sim pt ft (free_frame_list st ++ [oldframe]) (fault_rate st + 1))
       else Ok (Hit, st));
  (* if (reference_string.size() > 0) reference_string.erase(begin()) *)
  let reference_string :=
    if (0 <? Z.of_nat (length reference_string)) then tail reference_string
    else reference_string in
  Ok (ev, (st, reference_string)).

Definition OPT_run (st : sim) (oracle refs : list Z)
  : result (list event * (sim * list Z)) :=
  run OPT_step (st, oracle) refs.

(** ** [RAN]: both random variants *)

(** The victim drawn from one value [r] of [rand()]. Under ["RAN"] the
    source computes [(double) r / (RAND_MAX + 1.0) * MAX_PAGE_FRAMES] and
    truncates; with [RAND_MAX + 1 = 2^31] the division only changes the
    exponent and the product [r * 48 < 2^37] fits the 53-bit significand,
    so the double arithmetic is exact and the truncation is the integer
    quotient below. Otherwise [r % MAX_PAGE_FRAMES]. *)
Definition RAN_select (ref : string) (r : Z) : Z :=
  if (ref =? "RAN")%string then r * MAX_PAGE_FRAMES / (RAND_MAX + 1)
  else r `rem` MAX_PAGE_FRAMES.

(** [rand n] is the value of the [n]-th call of [rand()] made by the
    routine; the second component of the state counts the calls. *)
Definition RAN_step (ref : string) (rand : nat -> Z) (s : sim * nat)
    (reference : Z) : result (event * (sim * nat)) :=
  let '(st, n) := s in
  row ← index PageTable (page_table st) reference;
  if pg_valid row =? INVALID_BIT then
    let '(ev, freeframe, fl, n) :=
      match last (free_frame_list st) with
      | None =>
          let freeframe := RAN_select ref (rand n) in
          (HardFault freeframe, freeframe, free_frame_list st, S n)
      | Some back =>
          (SoftFault back, back, removelast (free_frame_list st), n)
      end in
    '(pt, ft) ← bind_page (page_table st) (frame_table st) reference freeframe;
    Ok (ev, (Sim pt ft fl (fault_rate st + 1), n))
  else
    inmem ← isInMemory (frame_table st) (pg_frame row) reference;
    if negb inmem then
      let freeframe := RAN_select ref (rand n) in
      let oldframe := pg_frame row in
      frow ← index FrameTable (frame_table st) freeframe;
      let oldpage := fr_page frow in
      pt ← update PageTable (page_table st) oldpage (set_pg_valid INVALID_BIT);
      '(pt, ft) ← bind_page pt (frame_table st) reference freeframe;
      Ok (StaleFault freeframe oldframe,
          (Sim pt ft (free_frame_list st ++ [oldframe]) (fault_rate st + 1),
           S n))
    else Ok (Hit, (st, n)).

Definition RAN_run (ref : string) (rand : nat -> Z) (st : sim)
    (refs : list Z) : result (list event * (sim * nat)) :=
  run (RAN_step ref rand) (st, O) refs.

(** ** [createReferenceString] and reading [reference_string.txt] *)

(** The tokens [createReferenceString] writes: 0, then, until
    [PROC_POOL_SIZE] tokens are written, [rand() % 5] copies of
    [(double) rand() / (RAND_MAX + 1.0) * MAX_NUM_PAGES] (exact in double
    arithmetic as in [RAN_select]). [rand n] is the value of the [n]-th
    call of [rand()]. The source loops for ever when [rand() % 5] stays
    0; [fuel] bounds the number of iterations. *)
Fixpoint createReferenceString_loop (fuel : nat) (rand : nat -> Z)
    (n : nat) (lcv : Z) (out : list Z) : option (list Z) :=
  if lcv <? PROC_POOL_SIZE then
    match fuel with
    | O => None
    | S fuel' =>
        let randNum := rand n `rem` 5 in
        let reference := rand (S n) * MAX_NUM_PAGES / (RAND_MAX + 1) in
        createReferenceString_loop fuel' rand (S (S n)) (lcv + randNum)
          (out ++ replicate (Z.to_nat randNum) reference)
    end
  else Some out.

Definition createReferenceString (fuel : nat) (rand : nat -> Z)
  : option (list Z) :=
  createReferenceString_loop fuel rand O 1 [0].

(** The values [reference] takes in
    [while (!addresses.eof()) { addresses >> referenceString; ... }].
    A file is given by the values [atoi] returns for its tokens, each of
    them an [int]. [createReferenceString] ends every token with a
    newline, so after the last token the stream is not yet at end of
    file: the loop body runs once more, the extraction fails and leaves
    [referenceString] as it was (the empty string, [atoi] 0, when the
    file has no token). The routines below are the routines on such a
    file; [stream_reads] is the loop on a file with or without white
    space after its last token. *)
Definition loop_reads (file : list Z) : list Z :=
  match last file with
  | None => [0]
  | Some x => file ++ [x]
  end.

(** The same loop, extraction by extraction. [referenceString] is given
    by its [atoi]. When no token is left the extraction fails, sets
    [eofbit] and leaves [referenceString] as it was; the body runs on
    the old value and the loop ends. The extraction of the last token
    stops at the white space after it, and the loop goes on, or, when
    nothing follows the token, at the end of the file: [eofbit] is set
    and the loop ends after this token. *)
Fixpoint stream_reads (white_space_at_end : bool) (referenceString : Z)
    (file : list Z) : list Z :=
  match file with
  | [] => [referenceString]
  | token :: rest =>
      match rest, white_space_at_end with
      | [], false => [token]
      | _, _ => token :: stream_reads white_space_at_end token rest
      end
  end.

(** [reference_string] of [OPT]: [PROC_POOL_SIZE] extractions, a failed
    one repeating the previous token. *)
Definition read_oracle (file : list Z) : list Z :=
  take (Z.to_nat PROC_POOL_SIZE)
    (file ++ replicate (Z.to_nat PROC_POOL_SIZE) (default 0 (last file))).

(** ** [main] *)

(** The two initialisation loops over [page_table] and [frame_table]. *)
Definition init_page_table : list page_row :=
  replicate (Z.to_nat MAX_NUM_PAGES) (PageRow INVALID_BIT INVALID_BIT INVALID_BIT).
Definition init_frame_table : list frame_row :=
  replicate (Z.to_nat MAX_PAGE_FRAMES) (FrameRow 0 INVALID_BIT).

(** [for (i = 0; i < MAX_PAGE_FRAMES; i++) free_frame_list.push_back(i);] *)
Definition push_all_frames (fl : list Z) : list Z :=
  fl ++ seqZ 0 MAX_PAGE_FRAMES.

(** [main]'s vector after the [k]-th execution of the push loop; it is
    declared as [vector<int> free_frame_list(MAX_PAGE_FRAMES)] and the
    routines receive it by value. *)
Definition main_free_list (k : nat) : list Z :=
  Nat.iter k push_all_frames (replicate (Z.to_nat MAX_PAGE_FRAMES) 0).

(** The tables as the [k]-th routine called by [main] receives them. *)
Definition main_tables (k : nat) : sim :=
  Sim init_page_table init_frame_table (main_free_list k) 0.

Definition FIFO (st : sim) (file : list Z) := FIFO_run st (loop_reads file).
Definition RU (st : sim) (type : string) (file : list Z) :=
  RU_run type st (loop_reads file).
Definition OPT (st : sim) (file : list Z) :=
  OPT_run st (read_oracle file) (loop_reads file).
Definition RAN (st : sim) (ref : string) (rand : nat -> Z) (file : list Z) :=
  RAN_run ref rand st (loop_reads file).

(** The six fault rates [main] prints, in the order FIFO, LRU, MRU, OPT,
    RAN, RAN2. [rand] numbers the calls of [rand()] from the first one
    made by [RAN]. *)
Definition main (file : list Z) (rand : nat -> Z) : result (list Z) :=
  '(_, (fifo, _)) ← FIFO (main_tables 1) file;
  '(_, lru) ← RU (main_tables 2) "LRU" file;
  '(_, mru) ← RU (main_tables 3) "MRU" file;
  '(_, (opt, _)) ← OPT (main_tables 4) file;
  '(_, (ran, n)) ← RAN (main_tables 5) "RAN" rand file;
  '(_, (ran2, _)) ← RAN (main_tables 6) "RAN2" (fun i => rand (n + i)%nat) file;
  Ok [fault_rate fifo; fault_rate lru; fault_rate mru; fault_rate opt;
      fault_rate ran; fault_rate ran2].

(** * Definitions used by the properties *)

(** ** Well-formed tables *)

Definition frame_ok (f : Z) : Prop := 0 <= f < MAX_PAGE_FRAMES.
Definition page_ok (p : Z) : Prop := 0 <= p < MAX_NUM_PAGES.

(** The page table has its size and names frames only. *)
Definition pt_ok (pt : list page_row) : Prop :=
  Z.of_nat (length pt) = MAX_NUM_PAGES /\
  Forall (fun r => frame_ok (pg_frame r)) pt.

(** The frame table has its size and holds pages only or, from
    [lo = -1], the marker that [FIFO] alone writes. *)
Definition ft_ok (lo : Z) (ft : list frame_row) : Prop :=
  Z.of_nat (length ft) = MAX_PAGE_FRAMES /\
  Forall (fun r => lo <= fr_page r < MAX_NUM_PAGES) ft.

Record wf (lo : Z) (st : sim) : Prop := Wf {
  wf_pt : pt_ok (page_table st);
  wf_ft : ft_ok lo (frame_table st);
  wf_fl : Forall frame_ok (free_frame_list st)
}.

(** Columns of the frame table as total functions of the frame. *)
Definition occupant (ft : list frame_row) (i : Z) : Z :=
  match ft !! Z.to_nat i with Some row => fr_page row | None => 0 end.
Definition counter (ft : list frame_row) (i : Z) : Z :=
  match ft !! Z.to_nat i with Some row => fr_aux row | None => 0 end.

(** Every recency counter of the frame table is 0. *)
Definition counters_zero (ft : list frame_row) : Prop :=
  Forall (fun r => fr_aux r = 0) ft.

(** ** The loop body shared by [OPT], [RAN] and [RU]

    The three routines repeat one body and differ in how the victim is
    found ([choose]); [fault_step] is that body, and the lemmas after it
    show that each routine's step is an instance of it. *)
Definition fault_step (choose : result Z) (st : sim) (reference : Z)
  : result (event * sim) :=
  row ← index PageTable (page_table st) reference;
  if pg_valid row =? INVALID_BIT then
    '(ev, freeframe, fl) ←
      match last (free_frame_list st) with
      | None =>
          freeframe ← choose;
          Ok (HardFault freeframe, freeframe, free_frame_list st)
      | Some back =>
          Ok (SoftFault back, back, removelast (free_frame_list st))
      end;
    '(pt, ft) ← bind_page (page_table st) (frame_table st) reference freeframe;
    Ok (ev, Sim pt ft fl (fault_rate st + 1))
  else
    inmem ← isInMemory (frame_table st) (pg_frame row) reference;
    if negb inmem then
      freeframe ← choose;
      let oldframe := pg_frame row in
      frow ← index FrameTable (frame_table st) freeframe;
      let oldpage := fr_page frow in
      pt ← update PageTable (page_table st) oldpage (set_pg_valid INVALID_BIT);
      '(pt, ft) ← bind_page pt (frame_table st) reference freeframe;
      Ok (StaleFault freeframe oldframe,
          Sim pt ft (free_frame_list st ++ [oldframe]) (fault_rate st + 1))
    else Ok (Hit, st).

(** What one execution of the body does to the free frame list and to
    the fault counter, by the branch taken. *)
Definition fault_effect (choose : result Z) (st : sim) (e : event)
    (st' : sim) : Prop :=
  match e with
  | Hit => st' = st
  | SoftFault f =>
      last (free_frame_list st) = Some f /\
      free_frame_list st' = removelast (free_frame_list st) /\
      fault_rate st' = fault_rate st + 1
  | HardFault v =>
      choose = Ok v /\
      free_frame_list st = [] /\ free_frame_list st' = [] /\
      fault_rate st' = fault_rate st + 1
  | StaleFault v oldframe =>
      choose = Ok v /\
      free_frame_list st' = free_frame_list st ++ [oldframe] /\
      fault_rate st' = fault_rate st + 1
  end.

(** The auxiliary column of the frame table is left as it was. *)
Definition same_aux (ft ft' : list frame_row) : Prop :=
  Forall2 (fun a b => fr_aux a = fr_aux b) ft ft'.


(** The end of the body of [RU], run after every reference:
    [frame_table[page_table[reference][0]][1] = 0;] (the ageing loop
    that follows it stores nothing new). *)
Definition RU_touch (reference : Z) (ev : event) (st : sim)
  : result (event * sim) :=
  row ← index PageTable (page_table st) reference;
  ft ← update FrameTable (frame_table st) (pg_frame row) (set_fr_aux 0);
  Ok (ev, Sim (page_table st) ft (free_frame_list st) (fault_rate st)).

(** Whether a reference called [rand()]. *)
Definition draws (ev : event) : bool :=
  match ev with
  | HardFault _ | StaleFault _ _ => true
  | Hit | SoftFault _ => false
  end.

(** The victim of an eviction is frame 0. *)
Definition evicts_frame_0 (ev : event) : Prop :=
  match ev with
  | HardFault v | StaleFault v _ => v = 0
  | Hit | SoftFault _ => True
  end.

(** The reference took no frame from the free frame list. *)
Definition no_allocation (ev : event) : Prop :=
  match ev with
  | SoftFault _ => False
  | _ => True
  end.

(** What one execution of the body of [FIFO] does to the cursor and to
    the free frame list, by the branch taken. *)
Definition FIFO_effect (st : sim) (FIFOSelection : Z) (e : event)
    (st' : sim) (FIFOSelection' : Z) : Prop :=
  match e with
  | Hit => st' = st /\ FIFOSelection' = FIFOSelection
  | SoftFault f =>
      last (free_frame_list st) = Some f /\
      free_frame_list st' = removelast (free_frame_list st) /\
      FIFOSelection' = FIFOSelection
  | HardFault v =>
      v = FIFOSelection /\ FIFOSelection' = FIFO_advance FIFOSelection /\
      free_frame_list st = [] /\ free_frame_list st' = []
  | StaleFault v oldframe =>
      v = FIFOSelection /\ FIFOSelection' = FIFO_advance FIFOSelection /\
      free_frame_list st' = free_frame_list st
  end.

(** The victim of an eviction is not frame 0. *)
Definition spares_frame_0 (ev : event) : Prop :=
  match ev with
  | HardFault v | StaleFault v _ => v <> 0
  | Hit | SoftFault _ => True
  end.

(** ** Traces of the examples

    Each is a file that [createReferenceString] can write:
    [PROC_POOL_SIZE] tokens, the first of them 0, all below
    [MAX_NUM_PAGES]. *)

(** Values of [rand()] for which [createReferenceString] writes [0]
    followed by the tail of [trace]: one copy of each entry. *)
Definition rand_writing (trace : list Z) (n : nat) : Z :=
  if Nat.even n then 1
  else default 0 (trace !! S (Nat.div2 n)) * 2097152.

(** Pages 0 to 48 once, then page 0 again and again. *)
Definition trace_49_pages_then_0 : list Z := seqZ 0 49 ++ replicate 451 0.

(** Pages 0 to 144 once, then page 144 again and again. *)
Definition trace_145_pages : list Z := seqZ 0 145 ++ replicate 355 144.

(** Pages 0 to 143 once, then page 0 again and again. *)
Definition trace_144_pages_then_0 : list Z := seqZ 0 144 ++ replicate 356 0.

(** Pages 0 to 143 once, then page 143 again and again. *)
Definition trace_144_pages : list Z := seqZ 0 144 ++ replicate 356 143.

(** Pages 0 to 96 once, then page 95 again and again. *)
Definition trace_97_pages_then_95 : list Z := seqZ 0 97 ++ replicate 403 95.

(** Pages 0 to 47 once, then page 47 again and again. *)
Definition trace_48_pages : list Z := seqZ 0 48 ++ replicate 452 47.

(** Page 0 once, then page 1 again and again. *)
Definition trace_0_then_1 : list Z := 0 :: replicate 499 1.

(** A frame table with page 5 in frame 0, page 7 in frame 1 and page 0
    in the 46 others. *)
Definition frames_5_7 : list frame_row :=
  FrameRow 5 0 :: FrameRow 7 0 :: replicate 46 (FrameRow 0 0).

(** Frame [f] is occupied by page [p]: the page table maps [p] to [f]
    with the valid bit set and the frame table records [p] in [f]. *)
Definition occupied_by (st : sim) (f p : Z) : Prop :=
  occupant (frame_table st) f = p /\
  exists row, page_table st !! Z.to_nat p = Some row /\
              pg_valid row = VALID_BIT /\ pg_frame row = f.

(** ** Definitions for the further properties *)

(** Page [r] is resident: its row of the page table has the valid bit
    set and names a frame whose row of the frame table holds [r]; this is
    the case in which the loop bodies do nothing. *)
Definition resident (st : sim) (r : Z) : Prop :=
  0 <= r /\
  exists row frow,
    page_table st !! Z.to_nat r = Some row /\
    pg_valid row <> INVALID_BIT /\
    0 <= pg_frame row /\
    frame_table st !! Z.to_nat (pg_frame row) = Some frow /\
    fr_page frow = r.

(** The valid bit of every page is clear, as after [main]'s reset. *)
Definition all_invalid (pt : list page_row) : Prop :=
  Forall (fun row => pg_valid row = INVALID_BIT) pt.

(** The auxiliary column of the page table is left as it was. *)
Definition same_pg_aux (pt pt' : list page_row) : Prop :=
  Forall2 (fun a b => pg_aux a = pg_aux b) pt pt'.

Definition is_fault (e : event) : bool :=
  match e with Hit => false | _ => true end.
Definition is_soft (e : event) : bool :=
  match e with SoftFault _ => true | _ => false end.
Definition is_stale (e : event) : bool :=
  match e with StaleFault _ _ => true | _ => false end.

(** How many events of a run satisfy [f]. *)
Fixpoint count_events (f : event -> bool) (es : list event) : Z :=
  match es with
  | [] => 0
  | e :: es' => (if f e then 1 else 0) + count_events f es'
  end.

(** [reference_string] after one more iteration of [OPT]. *)
Definition erase_first (reference_string : list Z) : list Z :=
  if 0 <? Z.of_nat (length reference_string) then tail reference_string
  else reference_string.

(** The stale fault of [FIFO] chose as victim the very frame the page
    table named for the page. *)
Definition victim_is_old_frame (e : event) : bool :=
  match e with
  | StaleFault v oldframe => v =? oldframe
  | _ => false
  end.

(** A frame table with counters 3, 9, 1, 9 in frames 0 to 3 and 5 in
    the 44 others. *)
Definition frames_3_9_1_9 : list frame_row :=
  FrameRow 0 3 :: FrameRow 0 9 :: FrameRow 0 1 :: FrameRow 0 9 ::
  replicate 44 (FrameRow 0 5).

(** Every page whose valid bit is set is one of [seen]. *)
Definition valid_within (st : sim) (seen : list Z) : Prop :=
  forall p row,
    page_table st !! p = Some row -> pg_valid row <> INVALID_BIT ->
    Z.of_nat p ∈ seen.

(** What one successful iteration on [r] with event [e] does, for every
    routine; [pushes] tells whether the routine pushes the old frame of
    a stale page back onto the free frame list (all but [FIFO]). *)
Record step_facts (pushes : bool) (st : sim) (r : Z) (e : event)
    (st' : sim) : Prop := StepFacts {
  sf_page : 0 <= r /\ is_Some (page_table st !! Z.to_nat r);
  sf_hit : e = Hit -> resident st r;
  sf_resident :
    pushes = true \/ victim_is_old_frame e = false -> resident st' r;
  sf_aux : same_pg_aux (page_table st) (page_table st');
  sf_valid :
    forall p row',
      page_table st' !! p = Some row' -> pg_valid row' <> INVALID_BIT ->
      p = Z.to_nat r \/
      exists row, page_table st !! p = Some row /\ pg_valid row <> INVALID_BIT;
  sf_cold :
    forall row,
      page_table st !! Z.to_nat r = Some row -> pg_valid row = INVALID_BIT ->
      is_fault e = true /\ is_stale e = false;
  sf_faults :
    fault_rate st' = fault_rate st + (if is_fault e then 1 else 0);
  sf_free :
    Z.of_nat (length (free_frame_list st')) + (if is_soft e then 1 else 0) =
    Z.of_nat (length (free_frame_list st)) +
    (if pushes && is_stale e then 1 else 0);
  sf_hard : forall v, e = HardFault v -> free_frame_list st = []
}.

(** What a successful run over [refs] with events [es] does, for every
    routine: one event per reference; the fault rate grows by the number
    of faults; the free frame list loses one entry per soft fault and,
    where the routine pushes, gains one per stale fault; the auxiliary
    column of the page table is kept; and the first reference to each
    page whose valid bit was clear at the start is a fault. *)
Record run_facts (pushes : bool) (st : sim) (refs : list Z)
    (es : list event) (st' : sim) : Prop := RunFacts {
  rf_events : length es = length refs;
  rf_faults : fault_rate st' = fault_rate st + count_events is_fault es;
  rf_free :
    Z.of_nat (length (free_frame_list st')) + count_events is_soft es =
    Z.of_nat (length (free_frame_list st)) +
    (if pushes then count_events is_stale es else 0);
  rf_aux : same_pg_aux (page_table st) (page_table st');
  rf_cold :
    forall seen,
      valid_within st seen ->
      Z.of_nat (length (remove_dups (filter (fun x => x ∉ seen) refs))) <=
      count_events is_fault es;
  rf_valid :
    forall seen, valid_within st seen -> valid_within st' (refs ++ seen);
  rf_last :
    forall r e,
      last refs = Some r -> last es = Some e ->
      pushes = true \/ victim_is_old_frame e = false -> resident st' r
}.

(** Each of the four loops, started on the tables [st], succeeds on
    [refs], and its events and final tables satisfy [P]; [P] is told
    whether the routine is one that pushes onto the free frame list
    ([false] for [FIFO], [true] for [RU], [OPT] and [RAN]). *)
Definition every_routine (st : sim) (refs : list Z) (type ref : string)
    (rand : nat -> Z) (oracle : list Z)
    (P : bool -> list event -> sim -> Prop) : Prop :=
  (exists es st' sel',
     FIFO_run st refs = Ok (es, (st', sel')) /\ P false es st') /\
  (exists es st', RU_run type st refs = Ok (es, st') /\ P true es st') /\
  (exists es st' rs,
     OPT_run st oracle refs = Ok (es, (st', rs)) /\ P true es st') /\
  (exists es st' n,
     RAN_run ref rand st refs = Ok (es, (st', n)) /\ P true es st').

(** What the body run after the last token adds to the events of a run
    in which that run is a hit. *)
Definition second_pass (white_space_at_end : bool) : list event :=
  if white_space_at_end then [Hit] else [].
(** * Properties *)

Arguments MAX_NUM_PAGES : simpl never.
Arguments MAX_PAGE_FRAMES : simpl never.
Arguments PROC_POOL_SIZE : simpl never.

(** ** Checked accesses and loops *)

Section Access.
Context {A : Type}.
Implicit Types (l : list A) (i : Z) (arr : array_id).

Lemma index_Ok arr l i :
  0 <= i < Z.of_nat (length l) ->
  exists x, index arr l i = Ok x /\ l !! Z.to_nat i = Some x.
Proof.
  intros Hi. unfold index.
  destruct (Z.ltb_spec i 0) as [?|_]; [lia|].
  destruct (lookup_lt_is_Some_2 l (Z.to_nat i)) as [x Hx]; [lia|].
  exists x. by rewrite Hx.
Qed.

Lemma index_inv arr l i x :
  index arr l i = Ok x ->
  0 <= i < Z.of_nat (length l) /\ l !! Z.to_nat i = Some x.
Proof.
  unfold index. destruct (Z.ltb_spec i 0) as [?|Hi]; [done|].
  destruct (l !! Z.to_nat i) as [y|] eqn:Hy; [|done].
  intros [= ->]. apply lookup_lt_Some in Hy. split; [lia|done].
Qed.


Lemma update_Ok arr l i (f : A -> A) :
  0 <= i < Z.of_nat (length l) ->
  exists x, l !! Z.to_nat i = Some x /\
            update arr l i f = Ok (<[Z.to_nat i := f x]> l).
Proof.
  intros Hi. destruct (index_Ok arr l i Hi) as (x & Hx & Hl).
  exists x. split; [done|]. unfold update. by rewrite Hx.
Qed.

Lemma update_id arr l i (f : A -> A) :
  0 <= i < Z.of_nat (length l) -> (forall x, f x = x) ->
  update arr l i f = Ok l.
Proof.
  intros Hi Hf. destruct (update_Ok arr l i f Hi) as (x & Hx & ->).
  by rewrite Hf, list_insert_id.
Qed.
End Access.

Lemma bind_Ok {A B} (a : A) (f : A -> result B) : (Ok a ≫= f) = f a.
Proof. reflexivity. Qed.

(** A loop whose body cannot fail while an invariant holds establishes
    the invariant at its exit. *)
Lemma for_loop_inv {T} (I : Z -> T -> Prop) (body : Z -> T -> result T) n :
  forall i s,
    I i s ->
    (forall j t, i <= j < i + Z.of_nat n -> I j t ->
                 exists t', body j t = Ok t' /\ I (j + 1) t') ->
    exists s', for_loop n i body s = Ok s' /\ I (i + Z.of_nat n) s'.
Proof.
  induction n as [|n IH]; intros i s Hs Hbody; simpl.
  - exists s. split; [done|]. by replace (i + Z.of_nat 0) with i by lia.
  - destruct (Hbody i s) as (t & -> & Ht); [lia|done|].
    rewrite bind_Ok.
    destruct (IH (i + 1) t Ht) as (s' & -> & Hs').
    { intros j u Hj Hu. apply Hbody; [lia|done]. }
    exists s'. split; [done|].
    by replace (i + Z.of_nat (S n)) with (i + 1 + Z.of_nat n) by lia.
Qed.

Lemma pt_ok_insert pt n row :
  pt_ok pt -> frame_ok (pg_frame row) -> pt_ok (<[n := row]> pt).
Proof.
  intros [Hlen Hall] Hrow. split; [by rewrite length_insert|].
  by apply Forall_insert.
Qed.

Lemma ft_ok_insert lo ft n row :
  ft_ok lo ft -> lo <= fr_page row < MAX_NUM_PAGES ->
  ft_ok lo (<[n := row]> ft).
Proof.
  intros [Hlen Hall] Hrow. split; [by rewrite length_insert|].
  by apply Forall_insert.
Qed.

Lemma pt_ok_lookup pt n row :
  pt_ok pt -> pt !! n = Some row -> frame_ok (pg_frame row).
Proof. intros [_ Hall] Hn. by apply (Forall_lookup_1 _ _ _ _ Hall Hn). Qed.

Lemma ft_ok_lookup lo ft n row :
  ft_ok lo ft -> ft !! n = Some row -> lo <= fr_page row < MAX_NUM_PAGES.
Proof. intros [_ Hall] Hn. by apply (Forall_lookup_1 _ _ _ _ Hall Hn). Qed.

Lemma last_removelast {A} (l : list A) x :
  last l = Some x -> l = removelast l ++ [x].
Proof.
  induction l as [|a l IH]; [done|].
  destruct l as [|b l].
  - by intros [= ->].
  - intros H. change (a :: b :: l = a :: (removelast (b :: l) ++ [x])).
    f_equal. by apply IH.
Qed.

Lemma Forall_last_removelast {A} (P : A -> Prop) (l : list A) x :
  Forall P l -> last l = Some x -> P x /\ Forall P (removelast l).
Proof.
  intros Hl Hx. rewrite (last_removelast l x Hx) in Hl.
  apply Forall_app in Hl as [Hinit Hx']. split; [|done].
  by apply (Forall_inv Hx').
Qed.

(** What [bind_page] stores, for a page and a frame inside the arrays. *)
Lemma bind_page_Ok pt ft reference freeframe :
  0 <= reference < Z.of_nat (length pt) ->
  0 <= freeframe < Z.of_nat (length ft) ->
  exists prow frow,
    pt !! Z.to_nat reference = Some prow /\
    ft !! Z.to_nat freeframe = Some frow /\
    bind_page pt ft reference freeframe =
      Ok (<[Z.to_nat reference := PageRow freeframe VALID_BIT (pg_aux prow)]> pt,
          <[Z.to_nat freeframe := FrameRow reference (fr_aux frow)]> ft).
Proof.
  intros Hr Hf. unfold bind_page.
  destruct (update_Ok PageTable pt reference (set_pg_frame freeframe) Hr)
    as (prow & Hprow & ->). rewrite bind_Ok.
  destruct (update_Ok PageTable (<[Z.to_nat reference := set_pg_frame freeframe prow]> pt)
              reference (set_pg_valid VALID_BIT)) as (prow' & Hprow' & ->).
  { by rewrite length_insert. }
  rewrite list_lookup_insert_eq in Hprow' by lia. simplify_eq.
  rewrite bind_Ok, list_insert_insert_eq.
  destruct (update_Ok FrameTable ft freeframe (set_fr_page reference) Hf)
    as (frow & Hfrow & ->). rewrite bind_Ok.
  by exists prow, frow.
Qed.

Lemma update_inv {A} arr (l : list A) i (f : A -> A) l' :
  update arr l i f = Ok l' ->
  exists x, l !! Z.to_nat i = Some x /\ l' = <[Z.to_nat i := f x]> l.
Proof.
  unfold update. destruct (index arr l i) as [x|] eqn:Hx; [|done].
  apply index_inv in Hx as [_ Hx]. intros [= <-]. by exists x.
Qed.

Lemma bind_page_length pt ft reference freeframe pt' ft' :
  bind_page pt ft reference freeframe = Ok (pt', ft') ->
  length pt' = length pt /\ length ft' = length ft.
Proof.
  unfold bind_page.
  destruct (update PageTable pt reference _) as [pt1|] eqn:H1; [|done].
  rewrite bind_Ok.
  destruct (update PageTable pt1 reference _) as [pt2|] eqn:H2; [|done].
  rewrite bind_Ok.
  destruct (update FrameTable ft freeframe _) as [ft1|] eqn:H3; [|done].
  intros [= <- <-].
  apply update_inv in H1 as (? & _ & ->), H2 as (? & _ & ->), H3 as (? & _ & ->).
  by rewrite !length_insert.
Qed.

Lemma same_aux_refl ft : same_aux ft ft.
Proof. by apply Forall2_same_length_lookup_2; [|intros; simplify_eq]. Qed.

Lemma same_aux_insert ft n row row' :
  ft !! n = Some row -> fr_aux row' = fr_aux row ->
  same_aux ft (<[n := row']> ft).
Proof.
  intros Hn Haux. apply Forall2_same_length_lookup_2.
  { by rewrite length_insert. }
  intros i a b Ha Hb. destruct (decide (i = n)) as [->|Hne].
  - rewrite list_lookup_insert_eq in Hb by (by eapply lookup_lt_Some).
    by simplify_eq.
  - rewrite list_lookup_insert_ne in Hb by done. by simplify_eq.
Qed.

Lemma fault_step_spec choose st reference :
  wf 0 st -> page_ok reference ->
  (exists v, choose = Ok v /\ frame_ok v) ->
  exists e st',
    fault_step choose st reference = Ok (e, st') /\
    wf 0 st' /\
    same_aux (frame_table st) (frame_table st') /\
    fault_effect choose st e st'.
Proof.
  intros [Hpt Hft Hfl] Hr (v & Hsel & Hv). unfold fault_step.
  destruct (index_Ok PageTable (page_table st) reference) as (row & -> & Hrow).
  { destruct Hpt as [-> _]. apply Hr. }
  rewrite bind_Ok.
  pose proof (pt_ok_lookup _ _ _ Hpt Hrow) as Hrowf.
  assert (Hlenp : 0 <= reference < Z.of_nat (length (page_table st))).
  { destruct Hpt as [-> _]. apply Hr. }
  assert (Hlenf : forall f, frame_ok f ->
            0 <= f < Z.of_nat (length (frame_table st))).
  { intros f Hf. destruct Hft as [-> _]. apply Hf. }
  destruct (pg_valid row =? INVALID_BIT).
  - (* invalid bit *)
    assert (exists ev freeframe fl,
      match last (free_frame_list st) with
      | None => freeframe ← choose;
                Ok (HardFault freeframe, freeframe, free_frame_list st)
      | Some back => Ok (SoftFault back, back, removelast (free_frame_list st))
      end = Ok (ev, freeframe, fl) /\ frame_ok freeframe /\ Forall frame_ok fl /\
      forall st', free_frame_list st' = fl ->
                  fault_rate st' = fault_rate st + 1 ->
                  fault_effect choose st ev st')
      as (ev & freeframe & fl & -> & Hff & Hfl' & Heff).
    { destruct (last (free_frame_list st)) as [back|] eqn:Hlast.
      - destruct (Forall_last_removelast _ _ _ Hfl Hlast) as [Hb Hrest].
        exists (SoftFault back), back, (removelast (free_frame_list st)).
        do 3 (split; [done|]). by intros st' ? ?.
      - rewrite Hsel, bind_Ok.
        exists (HardFault v), v, (free_frame_list st).
        apply last_None in Hlast.
        do 3 (split; [done|]). intros st' Hfl1 ?. simpl.
        by rewrite Hfl1, Hlast. }
    rewrite bind_Ok.
    destruct (bind_page_Ok (page_table st) (frame_table st) reference freeframe)
      as (prow & frow & Hprow & Hfrow & ->); [done|by apply Hlenf|].
    rewrite bind_Ok. eexists _, _. split; [done|]. split; [|split].
    + split; simpl; [by apply pt_ok_insert| |done].
      apply ft_ok_insert; [done|]. simpl. apply Hr.
    + simpl. by eapply same_aux_insert.
    + by apply Heff.
  - (* valid bit *)
    unfold isInMemory.
    destruct (index_Ok FrameTable (frame_table st) (pg_frame row))
      as (frow0 & -> & _); [by apply Hlenf|].
    rewrite !bind_Ok. destruct (fr_page frow0 =? reference); simpl.
    { exists Hit, st. split; [done|]. split; [by split|].
      split; [apply same_aux_refl|done]. }
    rewrite Hsel, bind_Ok.
    destruct (index_Ok FrameTable (frame_table st) v)
      as (frow & -> & Hfrow); [by apply Hlenf|].
    rewrite bind_Ok.
    pose proof (ft_ok_lookup _ _ _ _ Hft Hfrow) as Hold.
    destruct (update_Ok PageTable (page_table st) (fr_page frow)
                (set_pg_valid INVALID_BIT)) as (orow & Horow & ->).
    { destruct Hpt as [-> _]. done. }
    rewrite bind_Ok.
    assert (Hpt' : pt_ok (<[Z.to_nat (fr_page frow) :=
                           set_pg_valid INVALID_BIT orow]> (page_table st))).
    { apply pt_ok_insert; [done|]. simpl. by eapply pt_ok_lookup. }
    destruct (bind_page_Ok
                (<[Z.to_nat (fr_page frow) := set_pg_valid INVALID_BIT orow]>
                   (page_table st))
                (frame_table st) reference v)
      as (prow & frow' & Hprow & Hfrow' & ->).
    { destruct Hpt' as [-> _]. apply Hr. }
    { by apply Hlenf. }
    rewrite bind_Ok. eexists _, _. split; [done|]. split; [|split].
    + split; simpl.
      * by apply pt_ok_insert.
      * apply ft_ok_insert; [done|]. simpl. apply Hr.
      * apply Forall_app. split; [done|]. by apply Forall_singleton.
    + simpl. by eapply same_aux_insert.
    + simpl. done.
Qed.

(** ** The victim scans *)

Lemma frame_index ft i :
  Z.of_nat (length ft) = MAX_PAGE_FRAMES -> frame_ok i ->
  exists row, ft !! Z.to_nat i = Some row /\
              index FrameTable ft i = Ok row /\
              occupant ft i = fr_page row /\ counter ft i = fr_aux row.
Proof.
  intros Hlen Hi.
  destruct (index_Ok FrameTable ft i) as (row & Hidx & Hrow).
  { rewrite Hlen. apply Hi. }
  exists row. unfold occupant, counter. by rewrite Hrow.
Qed.

(** [first_reference] finds the first position of [page], if any. *)
Lemma first_reference_None rs page j :
  first_reference rs page j = None <-> page ∉ rs.
Proof.
  revert j. induction rs as [|r rs IH]; intros j; simpl.
  - split; [intros _; apply not_elem_of_nil|done].
  - destruct (Z.eqb_spec r page) as [->|Hne].
    + split; [done|]. intros []. apply list_elem_of_here.
    + rewrite IH, not_elem_of_cons. split; [by split|by intros [_ ?]].
Qed.

Lemma first_reference_Some rs page j d :
  first_reference rs page j = Some d ->
  j <= d < j + Z.of_nat (length rs) /\
  rs !! Z.to_nat (d - j) = Some page /\
  forall k, (k < Z.to_nat (d - j))%nat -> rs !! k <> Some page.
Proof.
  revert j. induction rs as [|r rs IH]; intros j; simpl; [done|].
  destruct (Z.eqb_spec r page) as [->|Hne].
  - intros [= <-]. replace (j - j) with 0 by lia. simpl.
    split; [lia|]. split; [done|]. intros k Hk. lia.
  - intros Hd. destruct (IH _ Hd) as (Hrange & Hat & Hbefore).
    replace (Z.to_nat (d - j)) with (S (Z.to_nat (d - (j + 1)))) by lia.
    split; [lia|]. split; [done|].
    intros [|k] Hk; simpl; [congruence|]. apply Hbefore. lia.
Qed.

(** [next_use] is the distance to the next reference of a page that
    reappears and the sentinel for a page that does not. *)
Lemma next_use_absent rs page :
  page ∉ rs -> next_use rs page = PROC_POOL_SIZE + 100.
Proof.
  intros H. unfold next_use.
  by rewrite (proj2 (first_reference_None rs page 0) H).
Qed.

Lemma next_use_present rs page :
  page ∈ rs ->
  0 <= next_use rs page < Z.of_nat (length rs) /\
  rs !! Z.to_nat (next_use rs page) = Some page /\
  forall k, (k < Z.to_nat (next_use rs page))%nat -> rs !! k <> Some page.
Proof.
  intros H. unfold next_use.
  destruct (first_reference rs page 0) as [d|] eqn:Hd.
  - apply first_reference_Some in Hd as (Hrange & Hat & Hbefore).
    replace (d - 0) with d in * by lia. split; [lia|done].
  - by apply first_reference_None in Hd.
Qed.

Lemma next_use_nonneg rs page : 0 <= next_use rs page.
Proof.
  unfold next_use. destruct (first_reference rs page 0) as [d|] eqn:Hd.
  - apply first_reference_Some in Hd. lia.
  - unfold PROC_POOL_SIZE. lia.
Qed.

(** The scan of [identifyPageToRemove] returns the first frame among
    those with the greatest [futureref]. *)
Lemma identifyPageToRemove_max ft rs :
  Z.of_nat (length ft) = MAX_PAGE_FRAMES ->
  exists v,
    identifyPageToRemove ft rs = Ok v /\ frame_ok v /\
    forall i, frame_ok i ->
      next_use rs (occupant ft i) <= next_use rs (occupant ft v) /\
      (i < v -> next_use rs (occupant ft i) < next_use rs (occupant ft v)).
Proof.
  intros Hlen. unfold identifyPageToRemove.
  set (fut i := next_use rs (occupant ft i)).
  destruct (for_loop_inv
    (fun i '(m, v) =>
       (i = 0 /\ m = -1 /\ v = 0) \/
       (0 <= v < i /\ m = fut v /\
        forall k, 0 <= k < i -> fut k <= m /\ (k < v -> fut k < m)))
    (fun i '(max_turns, victim) =>
       d ← futureref ft rs i;
       if d >? max_turns then Ok (d, i) else Ok (max_turns, victim))
    (Z.to_nat MAX_PAGE_FRAMES) 0 (-1, 0)) as ([m v] & -> & Hinv).
  { by left. }
  { intros j [m v] Hj Hinv.
    destruct (frame_index ft j Hlen) as (row & _ & Hidx & Hocc & _).
    { unfold frame_ok. lia. }
    unfold futureref. rewrite Hidx, !bind_Ok, <- Hocc. fold (fut j).
    assert (0 <= fut j) by apply next_use_nonneg.
    destruct (Z.gtb_spec (fut j) m) as [Hgt|Hle].
    - eexists. split; [done|]. right. split; [lia|]. split; [done|].
      intros k Hk. destruct (decide (k = j)) as [->|Hkj]; [lia|].
      destruct Hinv as [(-> & _)|(_ & _ & Hall)]; [lia|].
      specialize (Hall k). lia.
    - eexists. split; [done|].
      destruct Hinv as [(_ & -> & _)|(Hv & -> & Hall)]; [lia|].
      right. split; [lia|]. split; [done|].
      intros k Hk. destruct (decide (k = j)) as [->|Hkj]; [lia|].
      specialize (Hall k). lia. }
  rewrite bind_Ok. exists v.
  assert (0 < MAX_PAGE_FRAMES) by done.
  rewrite Z.add_0_l, Z2Nat.id in Hinv by lia.
  destruct Hinv as [(? & _)|(Hv & -> & Hall)]; [lia|].
  split; [done|]. split; [done|]. intros i Hi. by apply Hall.
Qed.

(** The scan of [RU] returns the first frame among those with the
    greatest counter under ["MRU"] and among those with the least
    counter under any other [type]. *)
Lemma RU_select_spec type ft :
  Z.of_nat (length ft) = MAX_PAGE_FRAMES ->
  exists v,
    RU_select type ft = Ok v /\ frame_ok v /\
    forall i, frame_ok i ->
      if (type =? "MRU")%string
      then counter ft i <= counter ft v /\ (i < v -> counter ft i < counter ft v)
      else counter ft v <= counter ft i /\ (i < v -> counter ft v < counter ft i).
Proof.
  intros Hlen. unfold RU_select.
  assert (1 < MAX_PAGE_FRAMES) by done.
  destruct (frame_index ft 0 Hlen) as (row0 & _ & -> & _ & Hc0).
  { unfold frame_ok. lia. }
  rewrite bind_Ok, <- Hc0.
  destruct (for_loop_inv
    (fun k '(m, v) =>
       0 <= v < k /\ m = counter ft v /\
       forall i, 0 <= i < k ->
         if (type =? "MRU")%string
         then counter ft i <= m /\ (i < v -> counter ft i < m)
         else m <= counter ft i /\ (i < v -> m < counter ft i))
    (fun k '(m, freeframe) =>
       row ← index FrameTable ft k;
       if (if (type =? "MRU")%string then fr_aux row >? m
           else fr_aux row <? m)
       then Ok (fr_aux row, k)
       else Ok (m, freeframe))
    (Z.to_nat (MAX_PAGE_FRAMES - 1)) 1 (counter ft 0, 0)) as ([m v] & -> & Hinv).
  { split; [lia|]. split; [done|]. intros i Hi. assert (i = 0) as -> by lia.
    destruct (type =? "MRU")%string; lia. }
  { intros j [m v] Hj (Hv & -> & Hall).
    destruct (frame_index ft j Hlen) as (row & _ & -> & _ & Hcj).
    { unfold frame_ok. lia. }
    rewrite bind_Ok, <- Hcj.
    destruct (type =? "MRU")%string.
    - destruct (Z.gtb_spec (counter ft j) (counter ft v)).
      + eexists. split; [done|]. split; [lia|]. split; [done|].
        intros i Hi. destruct (decide (i = j)) as [->|?]; [lia|].
        specialize (Hall i). lia.
      + eexists. split; [done|]. split; [lia|]. split; [done|].
        intros i Hi. destruct (decide (i = j)) as [->|?]; [lia|].
        specialize (Hall i). lia.
    - destruct (Z.ltb_spec (counter ft j) (counter ft v)).
      + eexists. split; [done|]. split; [lia|]. split; [done|].
        intros i Hi. destruct (decide (i = j)) as [->|?]; [lia|].
        specialize (Hall i). lia.
      + eexists. split; [done|]. split; [lia|]. split; [done|].
        intros i Hi. destruct (decide (i = j)) as [->|?]; [lia|].
        specialize (Hall i). lia. }
  rewrite bind_Ok. exists v.
  replace (1 + Z.of_nat (Z.to_nat (MAX_PAGE_FRAMES - 1))) with MAX_PAGE_FRAMES
    in Hinv by lia.
  destruct Hinv as (Hv & -> & Hall).
  split; [done|]. split; [done|]. intros i Hi. by apply Hall.
Qed.

Lemma counters_zero_counter ft i : counters_zero ft -> counter ft i = 0.
Proof.
  intros Hz. unfold counter. destruct (ft !! Z.to_nat i) as [row|] eqn:Hi; [|done].
  by apply (Forall_lookup_1 _ _ _ _ Hz Hi).
Qed.

(** With every counter at 0 both scans of [RU] keep their initial
    [freeframe = 0]. *)
Lemma RU_select_zero type ft :
  Z.of_nat (length ft) = MAX_PAGE_FRAMES -> counters_zero ft ->
  RU_select type ft = Ok 0.
Proof.
  intros Hlen Hz. destruct (RU_select_spec type ft Hlen) as (v & -> & Hv & Hall).
  f_equal. destruct (decide (v = 0)) as [->|Hne]; [done|].
  assert (0 < MAX_PAGE_FRAMES) by done.
  specialize (Hall 0). rewrite !counters_zero_counter in Hall by done.
  unfold frame_ok in *. destruct (type =? "MRU")%string; lia.
Qed.

(** The ageing loop of [RU] stores back what it read. *)
Lemma RU_age_others_id ft skip :
  Z.of_nat (length ft) = MAX_PAGE_FRAMES -> RU_age_others ft skip = Ok ft.
Proof.
  intros Hlen. unfold RU_age_others.
  destruct (for_loop_inv (fun _ t => t = ft)
    (fun p ft =>
       if p =? skip then Ok ft
       else update FrameTable ft p
              (fun r => set_fr_aux (assign_post_increment (fr_aux r)) r))
    (Z.to_nat MAX_PAGE_FRAMES) 0 ft) as (t & -> & ->); [done| |done].
  intros j t Hj ->. exists ft. split; [|done].
  destruct (j =? skip); [done|].
  apply update_id; [lia|]. by intros [].
Qed.

(** ** The routines as instances of [fault_step] *)

Lemma bind_page_inv pt ft reference freeframe pt' ft' :
  bind_page pt ft reference freeframe = Ok (pt', ft') ->
  exists prow frow,
    pt !! Z.to_nat reference = Some prow /\
    ft !! Z.to_nat freeframe = Some frow /\
    pt' = <[Z.to_nat reference := PageRow freeframe VALID_BIT (pg_aux prow)]> pt /\
    ft' = <[Z.to_nat freeframe := FrameRow reference (fr_aux frow)]> ft.
Proof.
  intros Hb.
  assert (Hr : 0 <= reference < Z.of_nat (length pt)).
  { unfold bind_page, update in Hb.
    destruct (index PageTable pt reference) eqn:Hi; [|done].
    by apply index_inv in Hi as [? _]. }
  assert (Hf : 0 <= freeframe < Z.of_nat (length ft)).
  { unfold bind_page in Hb.
    destruct (update PageTable pt reference _); [|done]. rewrite bind_Ok in Hb.
    destruct (update PageTable _ reference _); [|done]. rewrite bind_Ok in Hb.
    unfold update in Hb.
    destruct (index FrameTable ft freeframe) eqn:Hi; [|done].
    by apply index_inv in Hi as [? _]. }
  destruct (bind_page_Ok pt ft reference freeframe Hr Hf)
    as (prow & frow & ? & ? & Heq).
  rewrite Heq in Hb. injection Hb as <- <-. by exists prow, frow.
Qed.

Lemma same_aux_zero ft ft' :
  same_aux ft ft' -> counters_zero ft -> counters_zero ft'.
Proof.
  unfold same_aux, counters_zero. intros H2 Hz.
  induction H2 as [|a b ft ft' Hab _ IH]; [done|].
  apply Forall_cons in Hz as [Ha Hz]. apply Forall_cons. split; [congruence|auto].
Qed.

Lemma same_aux_length ft ft' : same_aux ft ft' -> length ft' = length ft.
Proof. intros H. symmetry. by eapply Forall2_length. Qed.

(** What a successful execution of the body did. *)
Lemma fault_step_inv choose st reference e st' :
  fault_step choose st reference = Ok (e, st') ->
  same_aux (frame_table st) (frame_table st') /\ fault_effect choose st e st'.
Proof.
  unfold fault_step.
  destruct (index PageTable (page_table st) reference) as [row|]; [|done].
  rewrite bind_Ok. destruct (pg_valid row =? INVALID_BIT).
  - destruct (last (free_frame_list st)) as [back|] eqn:Hlast.
    + rewrite bind_Ok.
      destruct (bind_page _ _ reference back) as [[pt ft]|] eqn:Hb; [|done].
      rewrite bind_Ok. intros [= <- <-]. simpl.
      apply bind_page_inv in Hb as (prow & frow & _ & Hfrow & _ & ->).
      split; [by eapply same_aux_insert|done].
    + destruct choose as [v|]; [|done]. rewrite !bind_Ok.
      destruct (bind_page _ _ reference v) as [[pt ft]|] eqn:Hb; [|done].
      rewrite bind_Ok. intros [= <- <-]. simpl.
      apply bind_page_inv in Hb as (prow & frow & _ & Hfrow & _ & ->).
      apply last_None in Hlast.
      split; [by eapply same_aux_insert|by rewrite Hlast].
  - destruct (isInMemory _ _ _) as [[]|]; [| |done]; simpl.
    { intros [= <- <-]. split; [apply same_aux_refl|done]. }
    destruct choose as [v|]; [|done]. rewrite !bind_Ok.
    destruct (index FrameTable _ v) as [frow|]; [|done]. rewrite bind_Ok.
    destruct (update PageTable _ _ _) as [pt0|]; [|done]. rewrite bind_Ok.
    destruct (bind_page _ _ reference v) as [[pt ft]|] eqn:Hb; [|done].
    rewrite bind_Ok. intros [= <- <-]. simpl.
    apply bind_page_inv in Hb as (prow & frow' & _ & Hfrow & _ & ->).
    split; [by eapply same_aux_insert|done].
Qed.

Lemma OPT_step_fault st reference_string reference :
  OPT_step (st, reference_string) reference =
  fault_step (identifyPageToRemove (frame_table st) reference_string)
    st reference ≫=
  (fun '(ev, st') =>
     Ok (ev, (st', if 0 <? Z.of_nat (length reference_string)
                   then tail reference_string else reference_string))).
Proof.
  unfold OPT_step, fault_step.
  by destruct (index PageTable (page_table st) reference).
Qed.

Lemma RAN_step_fault ref rand st n reference :
  RAN_step ref rand (st, n) reference =
  fault_step (Ok (RAN_select ref (rand n))) st reference ≫=
  (fun '(ev, st') => Ok (ev, (st', if draws ev then S n else n))).
Proof.
  unfold RAN_step, fault_step.
  destruct (index PageTable (page_table st) reference) as [row|]; [|done].
  rewrite !bind_Ok. destruct (pg_valid row =? INVALID_BIT).
  - destruct (last (free_frame_list st)) as [back|]; rewrite ?bind_Ok.
    + by destruct (bind_page _ _ reference back) as [[pt ft]|].
    + by destruct (bind_page _ _ reference _) as [[pt ft]|].
  - destruct (isInMemory _ _ _) as [[]|]; [done| |done]; simpl.
    destruct (index FrameTable _ _) as [frow|]; [|done]. rewrite !bind_Ok.
    destruct (update PageTable _ _ _) as [pt0|]; [|done]. rewrite !bind_Ok.
    by destruct (bind_page _ _ reference _) as [[pt ft]|].
Qed.

Lemma RU_touch_tail reference (ev : event) st1 :
  Z.of_nat (length (frame_table st1)) = MAX_PAGE_FRAMES ->
  (row ← index PageTable (page_table st1) reference;
   ft ← update FrameTable (frame_table st1) (pg_frame row) (set_fr_aux 0);
   ft ← RU_age_others ft (pg_frame row);
   Ok (ev, Sim (page_table st1) ft (free_frame_list st1) (fault_rate st1))) =
  RU_touch reference ev st1.
Proof.
  intros Hlen1. unfold RU_touch.
  destruct (index PageTable (page_table st1) reference) as [row1|]; [|done].
  rewrite !bind_Ok.
  destruct (update FrameTable _ _ _) as [ft1|] eqn:Hu; [|done].
  rewrite !bind_Ok. apply update_inv in Hu as (? & _ & ->).
  rewrite RU_age_others_id; [done|]. by rewrite length_insert.
Qed.

Lemma RU_step_fault type st reference :
  Z.of_nat (length (frame_table st)) = MAX_PAGE_FRAMES ->
  RU_step type st reference =
  fault_step (RU_select type (frame_table st)) st reference ≫=
  (fun '(ev, st') => RU_touch reference ev st').
Proof.
  intros Hlen. unfold RU_step, fault_step.
  destruct (index PageTable (page_table st) reference) as [row|]; [|done].
  rewrite !bind_Ok.
  destruct (pg_valid row =? INVALID_BIT).
  - destruct (last (free_frame_list st)) as [back|]; rewrite ?bind_Ok.
    + destruct (bind_page _ _ reference back) as [[pt ft]|] eqn:Hb; [|done].
      rewrite !bind_Ok. apply bind_page_length in Hb as [_ Hft].
      rewrite RU_age_others_id by lia. rewrite !bind_Ok.
      apply (RU_touch_tail _ _ (Sim _ _ _ _)). simpl. lia.
    + destruct (RU_select type (frame_table st)) as [v|]; [|done].
      rewrite !bind_Ok.
      destruct (bind_page _ _ reference v) as [[pt ft]|] eqn:Hb; [|done].
      rewrite !bind_Ok. apply bind_page_length in Hb as [_ Hft].
      rewrite RU_age_others_id by lia. rewrite !bind_Ok.
      apply (RU_touch_tail _ _ (Sim _ _ _ _)). simpl. lia.
  - destruct (isInMemory _ _ _) as [[]|]; [| |done]; simpl.
    { by apply RU_touch_tail. }
    destruct (RU_select type (frame_table st)) as [v|]; [|done].
    rewrite !bind_Ok.
    destruct (index FrameTable _ _) as [frow|]; [|done]. rewrite !bind_Ok.
    destruct (update PageTable _ _ _) as [pt0|]; [|done]. rewrite !bind_Ok.
    destruct (bind_page _ _ reference v) as [[pt ft]|] eqn:Hb; [|done].
    rewrite !bind_Ok. apply bind_page_length in Hb as [_ Hft].
    rewrite RU_age_others_id by lia. rewrite !bind_Ok.
    apply (RU_touch_tail _ _ (Sim _ _ _ _)). simpl. lia.
Qed.

(** ** Loops over the trace *)

Section Run.
Context {T : Type} (step : T -> Z -> result (event * T)).

Lemma run_cons s r refs :
  run step s (r :: refs) =
  '(e, s') ← step s r; '(es, s'') ← run step s' refs; Ok (e :: es, s'').
Proof. reflexivity. Qed.

Lemma run_app s refs1 refs2 :
  run step s (refs1 ++ refs2) =
  '(es1, s1) ← run step s refs1;
  '(es2, s2) ← run step s1 refs2; Ok (es1 ++ es2, s2).
Proof.
  revert s. induction refs1 as [|r refs1 IH]; intros s; simpl.
  - by destruct (run step s refs2) as [[es2 s2]|].
  - destruct (step s r) as [[e s']|]; [|done]. rewrite !bind_Ok, IH.
    destruct (run step s' refs1) as [[es1 s1]|]; [|done]. rewrite !bind_Ok.
    by destruct (run step s1 refs2) as [[es2 s2]|].
Qed.

(** Progress: a step that cannot fail on a page while [I] holds makes
    the whole loop succeed on a trace of pages. *)
Lemma run_total (I : T -> Prop) (P : event -> Prop) :
  (forall s r, I s -> page_ok r ->
     exists e s', step s r = Ok (e, s') /\ I s' /\ P e) ->
  forall refs s, I s -> Forall page_ok refs ->
    exists es s', run step s refs = Ok (es, s') /\ I s' /\ Forall P es.
Proof.
  intros Hstep. induction refs as [|r refs IH]; intros s Hs Hrefs.
  - by exists [], s.
  - apply Forall_cons in Hrefs as [Hr Hrefs].
    destruct (Hstep s r Hs Hr) as (e & s' & He & Hs' & HP).
    destruct (IH s' Hs' Hrefs) as (es & s'' & Hes & Hs'' & HPs).
    exists (e :: es), s''. rewrite run_cons, He, bind_Ok, Hes.
    split; [done|]. split; [done|]. by apply Forall_cons.
Qed.

(** Preservation: what every successful step keeps, a successful loop
    keeps. *)
Lemma run_preserves (I : T -> Prop) (P : event -> Prop) :
  (forall s r e s', I s -> step s r = Ok (e, s') -> I s' /\ P e) ->
  forall refs s es s', I s -> run step s refs = Ok (es, s') ->
    I s' /\ Forall P es.
Proof.
  intros Hstep. induction refs as [|r refs IH]; intros s es s'' Hs; simpl.
  - by intros [= <- <-].
  - destruct (step s r) as [[e s']|] eqn:He; [|done]. rewrite bind_Ok.
    destruct (run step s' refs) as [[es' t]|] eqn:Hes; [|done].
    rewrite bind_Ok. intros [= <- <-].
    destruct (Hstep _ _ _ _ Hs He) as [Hs' HP].
    destruct (IH _ _ _ Hs' Hes) as [Ht HPs].
    split; [done|]. by apply Forall_cons.
Qed.

End Run.

(** ** Steps of the routines on well-formed tables *)

Lemma wf_weaken st : wf 0 st -> wf (-1) st.
Proof.
  intros [Hpt [Hlen Hft] Hfl]. split; [done| |done]. split; [done|].
  eapply Forall_impl; [done|]. simpl. lia.
Qed.



Lemma RU_touch_spec reference ev st :
  wf 0 st -> page_ok reference ->
  exists row frow,
    page_table st !! Z.to_nat reference = Some row /\
    frame_table st !! Z.to_nat (pg_frame row) = Some frow /\
    RU_touch reference ev st =
      Ok (ev, Sim (page_table st)
                (<[Z.to_nat (pg_frame row) := set_fr_aux 0 frow]> (frame_table st))
                (free_frame_list st) (fault_rate st)).
Proof.
  intros [Hpt Hft Hfl] Hr. unfold RU_touch.
  destruct (index_Ok PageTable (page_table st) reference) as (row & -> & Hrow).
  { destruct Hpt as [-> _]. apply Hr. }
  rewrite bind_Ok.
  destruct (update_Ok FrameTable (frame_table st) (pg_frame row) (set_fr_aux 0))
    as (frow & Hfrow & ->).
  { destruct Hft as [-> _]. by eapply pt_ok_lookup. }
  by exists row, frow.
Qed.

Lemma RU_step_spec type st reference :
  wf 0 st -> page_ok reference ->
  exists e st', RU_step type st reference = Ok (e, st') /\ wf 0 st'.
Proof.
  intros Hwf Hr. rewrite RU_step_fault by apply Hwf.
  destruct (RU_select_spec type (frame_table st)) as (v & Hv & Hvok & _);
    [apply Hwf|].
  destruct (fault_step_spec (RU_select type (frame_table st)) st reference)
    as (e & st1 & -> & Hwf1 & _ & _); [done|done|by exists v|].
  rewrite bind_Ok.
  destruct (RU_touch_spec reference e st1 Hwf1 Hr) as (row & frow & _ & Hfrow & ->).
  eexists _, _. split; [done|]. destruct Hwf1 as [Hpt Hft Hfl].
  split; simpl; [done| |done].
  apply ft_ok_insert; [done|]. simpl. by eapply ft_ok_lookup.
Qed.


Lemma OPT_step_spec st rs reference :
  wf 0 st -> page_ok reference ->
  exists e st' rs', OPT_step (st, rs) reference = Ok (e, (st', rs')) /\ wf 0 st'.
Proof.
  intros Hwf Hr. rewrite OPT_step_fault.
  destruct (identifyPageToRemove_max (frame_table st) rs) as (v & Hv & Hvok & _);
    [apply Hwf|].
  destruct (fault_step_spec (identifyPageToRemove (frame_table st) rs) st reference)
    as (e & st1 & -> & Hwf1 & _ & _); [done|done|by exists v|].
  rewrite bind_Ok. by eexists _, _, _.
Qed.


(** Both formulas of [RAN] turn a value of [rand()] into a frame. *)
Lemma RAN_select_frame ref r :
  0 <= r <= RAND_MAX -> frame_ok (RAN_select ref r).
Proof.
  intros Hr. unfold RAN_select, frame_ok, MAX_PAGE_FRAMES, RAND_MAX in *.
  destruct (ref =? "RAN")%string.
  - split; [apply Z.div_pos; lia|]. apply Z.div_lt_upper_bound; lia.
  - pose proof (Z.rem_bound_pos r 48). lia.
Qed.

Lemma RAN_step_spec ref rand st n reference :
  (forall k, 0 <= rand k <= RAND_MAX) ->
  wf 0 st -> page_ok reference ->
  exists e st' n', RAN_step ref rand (st, n) reference = Ok (e, (st', n')) /\
                   wf 0 st'.
Proof.
  intros Hrand Hwf Hr. rewrite RAN_step_fault.
  destruct (fault_step_spec (Ok (RAN_select ref (rand n))) st reference)
    as (e & st1 & -> & Hwf1 & _ & _); [done|done| |].
  { eexists. split; [done|]. by apply RAN_select_frame. }
  rewrite bind_Ok. by eexists _, _, _.
Qed.


(** ** [FIFO] *)

(** The cursor stays among the frames 1 to [MAX_PAGE_FRAMES - 1]. *)
Lemma FIFO_advance_range c :
  1 <= c < MAX_PAGE_FRAMES -> 1 <= FIFO_advance c < MAX_PAGE_FRAMES.
Proof.
  unfold FIFO_advance, MAX_PAGE_FRAMES. intros Hc.
  destruct (Z.eqb_spec (c - 1) 0); lia.
Qed.

Lemma FIFO_step_spec st sel reference :
  wf (-1) st -> 1 <= sel < MAX_PAGE_FRAMES -> page_ok reference ->
  exists e st' sel',
    FIFO_step (st, sel) reference = Ok (e, (st', sel')) /\
    wf (-1) st' /\ 1 <= sel' < MAX_PAGE_FRAMES.
Proof.
  intros [Hpt Hft Hfl] Hsel Hr. unfold FIFO_step.
  pose proof (FIFO_advance_range sel Hsel) as Hadv.
  assert (Hselok : frame_ok sel) by (unfold frame_ok; lia).
  destruct (index_Ok PageTable (page_table st) reference) as (row & -> & Hrow).
  { destruct Hpt as [-> _]. apply Hr. }
  rewrite bind_Ok.
  pose proof (pt_ok_lookup _ _ _ Hpt Hrow) as Hrowf.
  assert (Hlenp : 0 <= reference < Z.of_nat (length (page_table st))).
  { destruct Hpt as [-> _]. apply Hr. }
  assert (Hlenf : forall f, frame_ok f ->
            0 <= f < Z.of_nat (length (frame_table st))).
  { intros f Hf. destruct Hft as [-> _]. apply Hf. }
  assert (Hrlo : -1 <= reference < MAX_NUM_PAGES).
  { unfold page_ok in Hr. lia. }
  destruct (pg_valid row =? INVALID_BIT).
  - destruct (last (free_frame_list st)) as [back|] eqn:Hlast.
    + destruct (Forall_last_removelast _ _ _ Hfl Hlast) as [Hb Hrest].
      destruct (bind_page_Ok (page_table st) (frame_table st) reference back)
        as (prow & frow & _ & _ & ->); [done|by apply Hlenf|].
      rewrite bind_Ok. eexists _, _, _. split; [done|]. split; [|done].
      split; simpl; [by apply pt_ok_insert|by apply ft_ok_insert|done].
    + destruct (bind_page_Ok (page_table st) (frame_table st) reference sel)
        as (prow & frow & _ & _ & ->); [done|by apply Hlenf|].
      rewrite bind_Ok. eexists _, _, _. split; [done|]. split; [|done].
      split; simpl; [by apply pt_ok_insert|by apply ft_ok_insert|done].
  - unfold isInMemory.
    destruct (index_Ok FrameTable (frame_table st) (pg_frame row))
      as (frow0 & -> & _); [by apply Hlenf|].
    rewrite !bind_Ok. destruct (fr_page frow0 =? reference); simpl.
    { by exists Hit, st, sel. }
    destruct (index_Ok FrameTable (frame_table st) sel)
      as (frow & -> & Hfrow); [by apply Hlenf|].
    rewrite bind_Ok.
    pose proof (ft_ok_lookup _ _ _ _ Hft Hfrow) as Hold.
    assert (exists pt0,
      (if negb (fr_page frow =? -1)
       then update PageTable (page_table st) (fr_page frow)
              (set_pg_valid INVALID_BIT)
       else Ok (page_table st)) = Ok pt0 /\ pt_ok pt0) as (pt0 & -> & Hpt0).
    { destruct (Z.eqb_spec (fr_page frow) (-1)) as [Heq|Hne]; simpl.
      - by exists (page_table st).
      - destruct (update_Ok PageTable (page_table st) (fr_page frow)
                    (set_pg_valid INVALID_BIT)) as (orow & Horow & ->).
        { destruct Hpt as [-> _]. lia. }
        eexists. split; [done|]. apply pt_ok_insert; [done|]. simpl.
        by eapply pt_ok_lookup. }
    rewrite bind_Ok.
    destruct (bind_page_Ok pt0 (frame_table st) reference sel)
      as (prow & frow' & _ & _ & ->).
    { destruct Hpt0 as [-> _]. apply Hr. }
    { by apply Hlenf. }
    rewrite bind_Ok.
    destruct (update_Ok FrameTable
                (<[Z.to_nat sel := FrameRow reference (fr_aux frow')]> (frame_table st))
                (pg_frame row) (set_fr_page (-1))) as (xrow & _ & ->).
    { rewrite length_insert. by apply Hlenf. }
    rewrite bind_Ok. eexists _, _, _. split; [done|]. split; [|done].
    split; simpl; [by apply pt_ok_insert| |done].
    apply ft_ok_insert; [by apply ft_ok_insert|]. simpl.
    unfold MAX_NUM_PAGES. lia.
Qed.


Lemma FIFO_step_inv st sel reference e st' sel' :
  FIFO_step (st, sel) reference = Ok (e, (st', sel')) ->
  FIFO_effect st sel e st' sel'.
Proof.
  unfold FIFO_step.
  destruct (index PageTable (page_table st) reference) as [row|]; [|done].
  rewrite bind_Ok. destruct (pg_valid row =? INVALID_BIT).
  - destruct (last (free_frame_list st)) as [back|] eqn:Hlast.
    + destruct (bind_page _ _ reference back) as [[pt ft]|]; [|done].
      rewrite bind_Ok. by intros [= <- <- <-].
    + destruct (bind_page _ _ reference sel) as [[pt ft]|]; [|done].
      rewrite bind_Ok. intros [= <- <- <-]. simpl.
      apply last_None in Hlast. by rewrite Hlast.
  - destruct (isInMemory _ _ _) as [[]|]; [| |done]; simpl.
    { by intros [= <- <- <-]. }
    destruct (index FrameTable _ sel) as [frow|]; [|done]. rewrite bind_Ok.
    destruct (if negb (fr_page frow =? -1) then _ else _) as [pt0|]; [|done].
    rewrite bind_Ok.
    destruct (bind_page _ _ reference sel) as [[pt ft]|]; [|done].
    rewrite bind_Ok.
    destruct (update FrameTable ft _ _) as [ft'|]; [|done].
    rewrite bind_Ok. by intros [= <- <- <-].
Qed.

(** ** Whole runs *)

(** From any cursor among the frames 1 to [MAX_PAGE_FRAMES - 1] the
    loop of [FIFO] succeeds on a trace of pages, keeps the cursor there
    and never evicts frame 0. *)
Lemma FIFO_cursor_total refs st sel :
  wf (-1) st -> 1 <= sel < MAX_PAGE_FRAMES -> Forall page_ok refs ->
  exists es st' sel',
    run FIFO_step (st, sel) refs = Ok (es, (st', sel')) /\ wf (-1) st' /\
    1 <= sel' < MAX_PAGE_FRAMES /\ Forall spares_frame_0 es.
Proof.
  intros Hwf Hsel Hrefs.
  destruct (run_total FIFO_step
              (fun '(st, sel) => wf (-1) st /\ 1 <= sel < MAX_PAGE_FRAMES)
              spares_frame_0) with (refs := refs) (s := (st, sel))
    as (es & [st' sel'] & Hes & [Hwf' Hsel'] & HP); [|done|done|].
  { intros [t c] r [Ht Hc] Hr.
    destruct (FIFO_step_spec t c r Ht Hc Hr) as (e & t' & c1 & He & Ht' & Hc1).
    exists e, (t', c1). split; [done|]. split; [done|].
    apply FIFO_step_inv in He. destruct e; simpl in *; try done; lia. }
  by exists es, st', sel'.
Qed.


Lemma RU_run_total type st refs :
  wf 0 st -> Forall page_ok refs ->
  exists es st', RU_run type st refs = Ok (es, st') /\ wf 0 st'.
Proof.
  intros Hwf Hrefs. unfold RU_run.
  destruct (run_total (RU_step type) (wf 0) (fun _ => True))
    with (refs := refs) (s := st) as (es & st' & Hes & Hwf' & _); [|done|done|].
  { intros t r Ht Hr. destruct (RU_step_spec type t r Ht Hr) as (e & t' & ? & ?).
    by exists e, t'. }
  by exists es, st'.
Qed.

Lemma OPT_run_total st oracle refs :
  wf 0 st -> Forall page_ok refs ->
  exists es st' rs', OPT_run st oracle refs = Ok (es, (st', rs')) /\ wf 0 st'.
Proof.
  intros Hwf Hrefs. unfold OPT_run.
  destruct (run_total OPT_step (fun '(st, _) => wf 0 st) (fun _ => True))
    with (refs := refs) (s := (st, oracle))
    as (es & [st' rs'] & Hes & Hwf' & _); [|done|done|].
  { intros [t rs] r Ht Hr.
    destruct (OPT_step_spec t rs r Ht Hr) as (e & t' & rs1 & ? & ?).
    by exists e, (t', rs1). }
  by exists es, st', rs'.
Qed.


(** ** The tables [main] sets up *)

Lemma main_free_list_0 :
  main_free_list 0 = replicate (Z.to_nat MAX_PAGE_FRAMES) 0.
Proof. reflexivity. Qed.

Lemma main_free_list_S k :
  main_free_list (S k) = main_free_list k ++ seqZ 0 MAX_PAGE_FRAMES.
Proof. reflexivity. Qed.

Lemma main_free_list_frames k : Forall frame_ok (main_free_list k).
Proof.
  induction k as [|k IH].
  - rewrite main_free_list_0. by apply Forall_replicate.
  - rewrite main_free_list_S. apply Forall_app. split; [done|].
    apply Forall_seqZ. intros f Hf. unfold frame_ok. lia.
Qed.

Lemma main_tables_wf k : wf 0 (main_tables k).
Proof.
  split; simpl.
  - split.
    + unfold init_page_table. by rewrite length_replicate.
    + by apply Forall_replicate.
  - split.
    + unfold init_frame_table. by rewrite length_replicate.
    + by apply Forall_replicate.
  - apply main_free_list_frames.
Qed.

Lemma loop_reads_pages file :
  Forall page_ok file -> Forall page_ok (loop_reads file).
Proof.
  intros Hfile. unfold loop_reads.
  destruct (last file) as [x|] eqn:Hlast.
  - apply Forall_app. split; [done|]. apply Forall_singleton.
    apply last_Some in Hlast as [l' ->].
    apply Forall_app in Hfile as [_ Hx]. by apply (Forall_inv Hx).
  - by apply Forall_singleton.
Qed.


(** * The claims *)









(** ** [RU] with its counters at 0 *)

Lemma RU_step_zero type st reference e st' :
  Z.of_nat (length (frame_table st)) = MAX_PAGE_FRAMES ->
  counters_zero (frame_table st) ->
  RU_step type st reference = Ok (e, st') ->
  (Z.of_nat (length (frame_table st')) = MAX_PAGE_FRAMES /\
   counters_zero (frame_table st')) /\
  evicts_frame_0 e.
Proof.
  intros Hlen Hz. rewrite RU_step_fault, RU_select_zero by done.
  destruct (fault_step (Ok 0) st reference) as [[ev st1]|] eqn:Hf; [|done].
  rewrite bind_Ok. apply fault_step_inv in Hf as [Haux Heff].
  unfold RU_touch.
  destruct (index PageTable (page_table st1) reference) as [row|]; [|done].
  rewrite bind_Ok.
  destruct (update FrameTable _ _ _) as [ft|] eqn:Hu; [|done].
  rewrite bind_Ok. intros [= <- <-]. simpl.
  apply update_inv in Hu as (frow & _ & ->).
  split; [split|].
  - by rewrite length_insert, (same_aux_length _ _ Haux).
  - apply Forall_insert; [by eapply same_aux_zero|done].
  - destruct ev; simpl in *; try done; destruct Heff as [[= <-] _]; done.
Qed.

Lemma RU_step_type st reference :
  Z.of_nat (length (frame_table st)) = MAX_PAGE_FRAMES ->
  counters_zero (frame_table st) ->
  RU_step "LRU" st reference = RU_step "MRU" st reference.
Proof. intros Hlen Hz. by rewrite !RU_step_fault, !RU_select_zero. Qed.

Lemma RU_run_type st refs :
  Z.of_nat (length (frame_table st)) = MAX_PAGE_FRAMES ->
  counters_zero (frame_table st) ->
  RU_run "LRU" st refs = RU_run "MRU" st refs.
Proof.
  unfold RU_run. revert st. induction refs as [|r refs IH]; intros st Hlen Hz.
  - done.
  - rewrite !run_cons, <- RU_step_type by done.
    destruct (RU_step "LRU" st r) as [[e st']|] eqn:He; [|done].
    rewrite !bind_Ok. apply RU_step_zero in He as [[Hlen' Hz'] _]; [|done|done].
    by rewrite IH.
Qed.

Lemma RU_run_zero type st refs es st' :
  Z.of_nat (length (frame_table st)) = MAX_PAGE_FRAMES ->
  counters_zero (frame_table st) ->
  RU_run type st refs = Ok (es, st') ->
  counters_zero (frame_table st') /\ Forall evicts_frame_0 es.
Proof.
  intros Hlen Hz Hrun.
  destruct (run_preserves (RU_step type)
    (fun st => Z.of_nat (length (frame_table st)) = MAX_PAGE_FRAMES /\
               counters_zero (frame_table st))
    evicts_frame_0) with (refs := refs) (s := st) (es := es) (s' := st')
    as [[_ Hz'] HP]; [|done|done|done].
  intros s r e s' [Hl Hc] He. by eapply RU_step_zero.
Qed.

(** C10, as amended. Called on the same tables, with every counter of
    the frame table at 0 as [main] leaves them, [RU] under ["LRU"] and
    under ["MRU"] compute the same thing on every trace: the same events
    (so the same victims), the same final tables and the same fault
    rate. After every prefix of the trace the counters are still all 0
    and every victim chosen so far is frame 0. On a trace of pages the
    run succeeds. *)
Theorem RU_LRU_MRU_identical (st : sim) (refs : list Z) :
  wf 0 st -> counters_zero (frame_table st) ->
  RU_run "LRU" st refs = RU_run "MRU" st refs /\
  (forall k es1 st1,
     RU_run "LRU" st (take k refs) = Ok (es1, st1) ->
     RU_run "MRU" st (take k refs) = Ok (es1, st1) /\
     counters_zero (frame_table st1) /\ Forall evicts_frame_0 es1) /\
  (Forall page_ok refs ->
   exists es st', RU_run "LRU" st refs = Ok (es, st') /\
                  RU_run "MRU" st refs = Ok (es, st')).
Proof.
  intros Hwf Hz.
  assert (Hlen : Z.of_nat (length (frame_table st)) = MAX_PAGE_FRAMES)
    by apply Hwf.
  split; [by apply RU_run_type|]. split.
  - intros k es1 st1 Hrun. split; [by rewrite <- RU_run_type|].
    by eapply RU_run_zero.
  - intros Hrefs.
    destruct (RU_run_total "LRU" st refs Hwf Hrefs) as (es & st' & Hrun & _).
    exists es, st'. split; [done|]. by rewrite <- RU_run_type.
Qed.

Lemma RU_LRU_MRU_identical_witness :
  RU_run "LRU" (main_tables 2) trace_145_pages =
  RU_run "MRU" (main_tables 2) trace_145_pages /\
  (forall k es1 st1,
     RU_run "LRU" (main_tables 2) (take k trace_145_pages) = Ok (es1, st1) ->
     RU_run "MRU" (main_tables 2) (take k trace_145_pages) = Ok (es1, st1) /\
     counters_zero (frame_table st1) /\ Forall evicts_frame_0 es1) /\
  (Forall page_ok trace_145_pages ->
   exists es st', RU_run "LRU" (main_tables 2) trace_145_pages = Ok (es, st') /\
                  RU_run "MRU" (main_tables 2) trace_145_pages = Ok (es, st')).
Proof.
  apply (RU_LRU_MRU_identical (main_tables 2) trace_145_pages).
  - apply main_tables_wf.
  - apply Forall_replicate. reflexivity.
Defined.

(** ** The free frame list of [FIFO] *)

Lemma FIFO_empty_list_kept refs st sel es st' sel' :
  free_frame_list st = [] ->
  run FIFO_step (st, sel) refs = Ok (es, (st', sel')) ->
  free_frame_list st' = [] /\ Forall no_allocation es.
Proof.
  intros Hfl Hrun.
  refine (run_preserves FIFO_step (fun '(st, _) => free_frame_list st = [])
            no_allocation _ refs (st, sel) es (st', sel') Hfl Hrun).
  intros [t c] r e [t' c'] Ht He. apply FIFO_step_inv in He.
  destruct e; simpl in *.
  - by destruct He as [-> _].
  - destruct He as [Hlast _]. by rewrite Ht in Hlast.
  - by destruct He as (_ & _ & _ & ->).
  - destruct He as (_ & _ & ->). done.
Qed.

(** C4, as amended: under [FIFO], once a prefix [refs1] of a trace of
    pages has emptied the free frame list, the run over any continuation
    [refs2] never puts a frame back: it succeeds, the list is empty at
    its end, and no reference after [refs1] is served from the list. *)
Theorem FIFO_free_list_stays_empty (st : sim) (refs1 refs2 : list Z)
    (es1 : list event) (st1 : sim) (sel1 : Z) :
  wf (-1) st -> Forall page_ok refs1 -> Forall page_ok refs2 ->
  FIFO_run st refs1 = Ok (es1, (st1, sel1)) ->
  free_frame_list st1 = [] ->
  exists es2 st2 sel2,
    FIFO_run st (refs1 ++ refs2) = Ok (es1 ++ es2, (st2, sel2)) /\
    free_frame_list st2 = [] /\ Forall no_allocation es2.
Proof.
  unfold FIFO_run. intros Hwf Hrefs1 Hrefs2 H1 Hempty.
  destruct (FIFO_cursor_total refs1 st (MAX_PAGE_FRAMES - 1))
    as (es1' & st1' & sel1' & H1' & Hwf1 & Hsel1 & _); [done|done|done|].
  rewrite H1 in H1'. injection H1' as <- <- <-.
  destruct (FIFO_cursor_total refs2 st1 sel1)
    as (es2 & st2 & sel2 & H2 & _); [done|done|done|].
  exists es2, st2, sel2. rewrite run_app, H1, bind_Ok, H2.
  split; [done|]. by eapply FIFO_empty_list_kept.
Qed.

Lemma FIFO_free_list_stays_empty_witness :
  exists es1 st1 sel1,
    FIFO_run (main_tables 1) (seqZ 0 96) = Ok (es1, (st1, sel1)) /\
    free_frame_list st1 = [] /\
    exists es2 st2 sel2,
      FIFO_run (main_tables 1) (seqZ 0 96 ++ [96; 0]) =
        Ok (es1 ++ es2, (st2, sel2)) /\
      free_frame_list st2 = [] /\ Forall no_allocation es2.
Proof.
  destruct (FIFO_run (main_tables 1) (seqZ 0 96)) as [[es1 [st1 sel1]]|] eqn:H1;
    [|by vm_compute in H1].
  assert (Hempty : free_frame_list st1 = []).
  { pose proof H1 as H. vm_compute in H. injection H as _ <- _. reflexivity. }
  exists es1, st1, sel1. split; [done|]. split; [done|].
  apply (FIFO_free_list_stays_empty (main_tables 1) (seqZ 0 96) [96; 0]
           es1 st1 sel1).
  - apply wf_weaken, main_tables_wf.
  - apply Forall_seqZ. intros p Hp. unfold page_ok, MAX_NUM_PAGES. lia.
  - repeat constructor; unfold MAX_NUM_PAGES; lia.
  - exact H1.
  - exact Hempty.
Defined.

(** ** [identifyPageToRemove] *)

(** The vector [OPT] passes to [identifyPageToRemove] never has more
    than [PROC_POOL_SIZE] elements. *)
Lemma read_oracle_length file :
  Z.of_nat (length (read_oracle file)) = PROC_POOL_SIZE.
Proof.
  unfold read_oracle.
  rewrite length_take_le; [done|]. rewrite length_app, length_replicate. lia.
Qed.

Lemma OPT_reference_string_length st oracle refs es st' rs' :
  Z.of_nat (length oracle) <= PROC_POOL_SIZE ->
  OPT_run st oracle refs = Ok (es, (st', rs')) ->
  Z.of_nat (length rs') <= PROC_POOL_SIZE.
Proof.
  intros Hlen Hrun.
  refine (proj1 (run_preserves OPT_step
            (fun '(_, rs) => Z.of_nat (length rs) <= PROC_POOL_SIZE)
            (fun _ => True) _ refs (st, oracle) es (st', rs') Hlen Hrun)).
  intros [t rs] r e [t' rs1] Hrs. rewrite OPT_step_fault.
  destruct (fault_step _ t r) as [[ev t1]|]; [|done].
  rewrite bind_Ok. intros [= <- <- <-]. split; [|done].
  destruct (0 <? Z.of_nat (length rs)); [|done].
  destruct rs; simpl in *; lia.
Qed.

(** C8. On a frame table of [MAX_PAGE_FRAMES] rows and a reference string
    of at most [PROC_POOL_SIZE] entries (all that [OPT] ever passes),
    [identifyPageToRemove] returns a frame [v] such that, for every
    frame [i]:
    - [futureref[i]] is [PROC_POOL_SIZE + 100] when the page in frame
      [i] does not occur in the reference string;
    - when it occurs, [futureref[i]] is the position of its first
      occurrence, which is below [PROC_POOL_SIZE + 100];
    - [futureref[i] <= futureref[v]], strictly for every [i < v]: [v] is
      the lowest frame among those with the greatest value. *)
Theorem identifyPageToRemove_farthest (ft : list frame_row) (rs : list Z) :
  Z.of_nat (length ft) = MAX_PAGE_FRAMES ->
  Z.of_nat (length rs) <= PROC_POOL_SIZE ->
  exists v,
    identifyPageToRemove ft rs = Ok v /\ frame_ok v /\
    forall i, frame_ok i ->
      exists d dv,
        futureref ft rs i = Ok d /\ futureref ft rs v = Ok dv /\
        (occupant ft i ∉ rs -> d = PROC_POOL_SIZE + 100) /\
        (occupant ft i ∈ rs ->
           0 <= d < PROC_POOL_SIZE + 100 /\
           rs !! Z.to_nat d = Some (occupant ft i) /\
           forall k, (k < Z.to_nat d)%nat -> rs !! k <> Some (occupant ft i)) /\
        d <= dv /\ (i < v -> d < dv).
Proof.
  intros Hlen Hrs.
  destruct (identifyPageToRemove_max ft rs Hlen) as (v & Hv & Hvok & Hmax).
  exists v. split; [done|]. split; [done|]. intros i Hi.
  exists (next_use rs (occupant ft i)), (next_use rs (occupant ft v)).
  destruct (frame_index ft i Hlen Hi) as (row & _ & Hidx & Hocc & _).
  destruct (frame_index ft v Hlen Hvok) as (rowv & _ & Hidxv & Hoccv & _).
  split; [|split; [|split; [|split]]].
  - unfold futureref. by rewrite Hidx, bind_Ok, Hocc.
  - unfold futureref. by rewrite Hidxv, bind_Ok, Hoccv.
  - apply next_use_absent.
  - intros Hin. destruct (next_use_present rs _ Hin) as (Hrange & Hat & Hbefore).
    split; [lia|]. by split.
  - by apply Hmax.
Qed.

Lemma identifyPageToRemove_farthest_witness :
  exists v,
    identifyPageToRemove frames_5_7 [5; 7; 5] = Ok v /\ frame_ok v /\
    forall i, frame_ok i ->
      exists d dv,
        futureref frames_5_7 [5; 7; 5] i = Ok d /\
        futureref frames_5_7 [5; 7; 5] v = Ok dv /\
        (occupant frames_5_7 i ∉ [5; 7; 5] -> d = PROC_POOL_SIZE + 100) /\
        (occupant frames_5_7 i ∈ [5; 7; 5] ->
           0 <= d < PROC_POOL_SIZE + 100 /\
           [5; 7; 5] !! Z.to_nat d = Some (occupant frames_5_7 i) /\
           forall k, (k < Z.to_nat d)%nat ->
                     [5; 7; 5] !! k <> Some (occupant frames_5_7 i)) /\
        d <= dv /\ (i < v -> d < dv).
Proof.
  apply (identifyPageToRemove_farthest frames_5_7 [5; 7; 5]).
  - reflexivity.
  - unfold PROC_POOL_SIZE. simpl. lia.
Defined.

(** ** The routines on the examples *)

(** Each example trace is written by [createReferenceString] for some
    values of [rand()] between 0 and [RAND_MAX]. *)
Lemma example_traces_written :
  Forall (fun trace =>
            createReferenceString 499 (rand_writing trace) = Some trace /\
            Forall (fun n => 0 <= rand_writing trace n <= RAND_MAX) (seq 0 998))
    [trace_49_pages_then_0; trace_145_pages; trace_144_pages_then_0;
     trace_144_pages; trace_48_pages; trace_0_then_1].
Proof.
  repeat apply Forall_cons_2; [..|apply Forall_nil_2];
    (split; [vm_compute; reflexivity|]);
    apply (bool_decide_unpack _); vm_compute; reflexivity.
Qed.

(** C4, the claim as stated fails for [RU] (and in the same way for [OPT]
    and [RAN], which have the same [push_back]). On
    [trace_144_pages_then_0] the 144 first references empty the free
    frame list [main] hands to the LRU run; the next reference, to page
    0 whose frame 47 has been given to page 48 meanwhile, pushes frame
    47 back, and the list is not empty at the end of the run. *)
Lemma RU_pushes_after_empty :
  exists es1 st1 es2 st2 es st,
    RU_run "LRU" (main_tables 2) (take 144 trace_144_pages_then_0) = Ok (es1, st1) /\
    free_frame_list st1 = [] /\
    RU_run "LRU" (main_tables 2) (take 145 trace_144_pages_then_0) = Ok (es2, st2) /\
    last es2 = Some (StaleFault 0 47) /\
    free_frame_list st2 = [47] /\
    RU (main_tables 2) "LRU" trace_144_pages_then_0 = Ok (es, st) /\
    free_frame_list st = [47].
Proof.
  eexists _, _, _, _, _, _.
  split; [vm_compute; reflexivity|]. split; [reflexivity|].
  split; [vm_compute; reflexivity|]. split; [reflexivity|].
  split; [reflexivity|].
  split; [vm_compute; reflexivity|]. reflexivity.
Qed.

(** C1, on [trace_49_pages_then_0]: [FIFO] reports 49 faults and [OPT]
    reports 50. Both give pages 0 to 47 the frames 47 down to 0. For page
    48 the list of [FIFO] (96 entries) yields frame 0, that of [OPT] (240
    entries) frame 47, which holds page 0; the next reference to page 0
    is then a hit under [FIFO] and a fault under [OPT]. *)
Theorem OPT_more_faults_than_FIFO :
  (exists es1 st1 sel es4 st4 rs,
     FIFO (main_tables 1) trace_49_pages_then_0 = Ok (es1, (st1, sel)) /\
     fault_rate st1 = 49 /\
     es1 !! 48%nat = Some (SoftFault 0) /\ es1 !! 49%nat = Some Hit /\
     OPT (main_tables 4) trace_49_pages_then_0 = Ok (es4, (st4, rs)) /\
     fault_rate st4 = 50 /\
     es4 !! 48%nat = Some (SoftFault 47) /\
     es4 !! 49%nat = Some (StaleFault 0 47)) /\
  main trace_49_pages_then_0 (fun _ => 0) = Ok [49; 50; 50; 50; 50; 50].
Proof.
  split.
  - eexists _, _, _, _, _, _.
    split; [vm_compute; reflexivity|]. do 3 (split; [reflexivity|]).
    split; [vm_compute; reflexivity|]. do 2 (split; [reflexivity|]).
    reflexivity.
  - vm_compute. reflexivity.
Qed.

(** C2, on [trace_145_pages] under ["LRU"]: the 144 first references
    take frames 47 to 0, again 47 to 0, then 48 times frame 0 from the
    free frame list; the 145th finds the list empty and evicts frame 0,
    the frame touched by the reference just before, although frame 47
    has not been touched for 96 references. Every counter is 0 at that
    point. And where the counters do differ the ["LRU"] scan returns a
    frame with the least one: with 7 in frame 0 and 0 elsewhere it
    returns frame 1, and it is the ["MRU"] scan that returns frame 0. *)
Theorem LRU_evicts_frame_just_touched :
  (exists es1 st1 e st2,
     RU_run "LRU" (main_tables 2) (take 144 trace_145_pages) = Ok (es1, st1) /\
     es1 = SoftFault <$> (reverse (seqZ 0 48) ++ reverse (seqZ 0 48) ++
                          replicate 48 0) /\
     free_frame_list st1 = [] /\
     frame_table st1 !! 0%nat = Some (FrameRow 143 0) /\
     frame_table st1 !! 47%nat = Some (FrameRow 48 0) /\
     bool_decide (counters_zero (frame_table st1)) = true /\
     RU_step "LRU" st1 144 = Ok (e, st2) /\ e = HardFault 0) /\
  RU_select "LRU" (FrameRow 0 7 :: replicate 47 (FrameRow 0 0)) = Ok 1 /\
  RU_select "MRU" (FrameRow 0 7 :: replicate 47 (FrameRow 0 0)) = Ok 0.
Proof.
  split; [|split; vm_compute; reflexivity].
  eexists _, _, _, _.
  split; [vm_compute; reflexivity|]. split; [vm_compute; reflexivity|].
  do 3 (split; [reflexivity|]). split; [vm_compute; reflexivity|].
  split; [vm_compute; reflexivity|]. reflexivity.
Qed.

(** C3, on [trace_0_then_1] under ["LRU"]: page 0 is referenced once and
    page 1 in each of the 500 iterations after it; at the end page 0 is
    in frame 47, page 1 in frame 46, and the counter of frame 47 is 0 as
    is every other, where 500 increments were due. *)
Theorem RU_never_ages :
  exists es st,
    RU (main_tables 2) "LRU" trace_0_then_1 = Ok (es, st) /\
    length es = 501%nat /\
    es !! 0%nat = Some (SoftFault 47) /\
    drop 1 es = SoftFault 46 :: replicate 499 Hit /\
    occupied_by st 47 0 /\ occupied_by st 46 1 /\
    counter (frame_table st) 47 = 0 /\
    bool_decide (counters_zero (frame_table st)) = true.
Proof.
  eexists _, _. split; [vm_compute; reflexivity|].
  do 2 (split; [reflexivity|]). split; [vm_compute; reflexivity|].
  split; [|split].
  - split; [reflexivity|]. eexists. split; [reflexivity|]. by split.
  - split; [reflexivity|]. eexists. split; [reflexivity|]. by split.
  - split; [reflexivity|]. vm_compute. reflexivity.
Qed.

(** C5: the vector of [main] starts with [MAX_PAGE_FRAMES] zeros and is
    never cleared; every push loop adds the frames 0 to 47 once more. The
    six routines receive 96, 144, 192, 240, 288 and 336 entries; and the
    frame table is reset to page 0 in every frame, not to the marker -1
    of unoccupied frames. *)
Theorem main_free_list_accumulates :
  free_frame_list (main_tables 1) = replicate 48 0 ++ seqZ 0 48 /\
  free_frame_list (main_tables 2) = free_frame_list (main_tables 1) ++ seqZ 0 48 /\
  (fun k => length (free_frame_list (main_tables k))) <$> [1; 2; 3; 4; 5; 6]%nat
    = [96; 144; 192; 240; 288; 336]%nat /\
  (forall k, Z.of_nat (length (free_frame_list (main_tables k))) =
             MAX_PAGE_FRAMES * (Z.of_nat k + 1)) /\
  (forall k, frame_table (main_tables k) = replicate 48 (FrameRow 0 0)) /\
  (forall k, page_table (main_tables k) = replicate 1024 (PageRow 0 0 0)).
Proof.
  split; [reflexivity|]. split; [reflexivity|]. split; [reflexivity|].
  split; [|by split].
  intros k. simpl. induction k as [|k IH].
  - reflexivity.
  - rewrite main_free_list_S, length_app, length_seqZ.
    unfold MAX_PAGE_FRAMES in *. lia.
Qed.

(** C6, on [trace_48_pages] under [FIFO]: at the end of the run every
    frame is occupied -- frame 0 by page 47, frame 47 by page 0 -- and
    the free frame list still holds 48 entries, all of them frame 0,
    which is thus occupied and free at once. *)
Theorem FIFO_frame_free_and_occupied :
  exists es st sel,
    FIFO (main_tables 1) trace_48_pages = Ok (es, (st, sel)) /\
    free_frame_list st = replicate 48 0 /\
    (0 ∈ free_frame_list st) /\
    occupied_by st 0 47 /\ occupied_by st 47 0 /\
    occupant (frame_table st) <$> seqZ 0 48 = reverse (seqZ 0 48).
Proof.
  eexists _, _, _. split; [vm_compute; reflexivity|].
  split; [reflexivity|]. split; [apply list_elem_of_here|].
  split; [|split].
  - split; [reflexivity|]. eexists. split; [reflexivity|]. by split.
  - split; [reflexivity|]. eexists. split; [reflexivity|]. by split.
  - vm_compute. reflexivity.
Qed.

(** C7, on [trace_144_pages] under [FIFO]: after the 96 references that
    empty the free frame list, the 48 next ones evict frames 47, 46, ...,
    1 and then 47 again; frame 0 is not among the 48 victims and frame 47
    is there twice. *)
Theorem FIFO_cursor_skips_frame_0 :
  exists es st sel,
    FIFO (main_tables 1) trace_144_pages = Ok (es, (st, sel)) /\
    take 48 (drop 96 es) = HardFault <$> (reverse (seqZ 1 47) ++ [47]) /\
    (HardFault 0 ∉ es) /\
    FIFO_advance 1 = 47 /\
    Nat.iter 47 FIFO_advance 47 = 47.
Proof.
  eexists _, _, _. split; [vm_compute; reflexivity|].
  split; [vm_compute; reflexivity|]. split; [|by split].
  apply (bool_decide_unpack _). vm_compute. reflexivity.
Qed.

(** C10, the claim as stated fails for the two calls [main] makes: the
    LRU run receives a free frame list of 144 entries and the MRU run
    one of 192, and on [trace_97_pages_then_95], a file
    [createReferenceString] can write, the runs part at page 96. The
    LRU run takes one of the 48 zeros for it, frame 0, which holds page
    95, and the next reference to page 95 is a fault; the MRU run takes
    frame 47 and the reference to page 95 is a hit. [main] prints 98
    for LRU and 97 for MRU. *)
Lemma LRU_MRU_differ_in_main :
  createReferenceString 499 (rand_writing trace_97_pages_then_95) =
    Some trace_97_pages_then_95 /\
  main trace_97_pages_then_95 (fun _ => 0) = Ok [97; 98; 97; 97; 97; 97] /\
  exists es2 st2 es3 st3,
    RU (main_tables 2) "LRU" trace_97_pages_then_95 = Ok (es2, st2) /\
    RU (main_tables 3) "MRU" trace_97_pages_then_95 = Ok (es3, st3) /\
    take 3 (drop 96 es2) = [SoftFault 0; StaleFault 0 0; Hit] /\
    take 3 (drop 96 es3) = [SoftFault 47; Hit; Hit] /\
    fault_rate st2 = 98 /\ fault_rate st3 = 97.
Proof.
  split; [vm_compute; reflexivity|]. split; [vm_compute; reflexivity|].
  eexists _, _, _, _. split; [vm_compute; reflexivity|].
  split; [vm_compute; reflexivity|].
  split; [vm_compute; reflexivity|]. split; [vm_compute; reflexivity|].
  split; reflexivity.
Qed.

(** * Further properties of the routines *)

(** ** The shape of one loop iteration *)

Lemma index_lookup {A} arr (l : list A) i x :
  0 <= i -> l !! Z.to_nat i = Some x -> index arr l i = Ok x.
Proof.
  intros Hi Hx. unfold index. destruct (Z.ltb_spec i 0); [lia|]. by rewrite Hx.
Qed.

Lemma bind_page_shape pt ft reference freeframe pt' ft' :
  bind_page pt ft reference freeframe = Ok (pt', ft') ->
  0 <= reference /\ 0 <= freeframe /\
  exists prow frow,
    pt !! Z.to_nat reference = Some prow /\
    ft !! Z.to_nat freeframe = Some frow /\
    pt' = <[Z.to_nat reference := PageRow freeframe VALID_BIT (pg_aux prow)]> pt /\
    ft' = <[Z.to_nat freeframe := FrameRow reference (fr_aux frow)]> ft.
Proof.
  intros Hb. pose proof Hb as Hb'. unfold bind_page, update in Hb'.
  destruct (index PageTable pt reference) as [x|] eqn:H1; [|done].
  apply index_inv in H1 as [Hr _]. rewrite !bind_Ok in Hb'.
  destruct (index PageTable _ reference) as [y|]; [|done].
  rewrite !bind_Ok in Hb'.
  destruct (index FrameTable ft freeframe) as [z|] eqn:H3; [|done].
  apply index_inv in H3 as [Hf _].
  split; [lia|]. split; [lia|]. by apply bind_page_inv.
Qed.

Lemma resident_after_bind pt ft fl n reference freeframe prow frow aux aux' :
  0 <= reference -> 0 <= freeframe ->
  pt !! Z.to_nat reference = Some prow ->
  ft !! Z.to_nat freeframe = Some frow ->
  resident
    (Sim (<[Z.to_nat reference := PageRow freeframe VALID_BIT aux]> pt)
         (<[Z.to_nat freeframe := FrameRow reference aux']> ft) fl n)
    reference.
Proof.
  intros Hr Hf Hprow Hfrow. split; [done|].
  exists (PageRow freeframe VALID_BIT aux), (FrameRow reference aux'). simpl.
  split; [by apply list_lookup_insert_eq; eapply lookup_lt_Some|].
  split; [done|]. split; [done|].
  split; [by apply list_lookup_insert_eq; eapply lookup_lt_Some|done].
Qed.

(** A resident page is a hit and the tables are left alone. *)
Lemma fault_step_hit choose st r :
  resident st r -> fault_step choose st r = Ok (Hit, st).
Proof.
  intros (Hr & row & frow & Hrow & Hvalid & Hf & Hfrow & Hpage).
  unfold fault_step, isInMemory.
  rewrite (index_lookup _ _ _ _ Hr Hrow), bind_Ok.
  destruct (Z.eqb_spec (pg_valid row) INVALID_BIT) as [?|_]; [done|].
  rewrite (index_lookup _ _ _ _ Hf Hfrow), !bind_Ok.
  by rewrite (proj2 (Z.eqb_eq _ _) Hpage).
Qed.

(** The cases of a successful iteration of the body shared by [OPT],
    [RAN] and [RU], with the tables it leaves. *)
Lemma fault_step_shape choose st r e st' :
  fault_step choose st r = Ok (e, st') ->
  0 <= r /\
  exists row,
    page_table st !! Z.to_nat r = Some row /\
    ((e = Hit /\ st' = st /\ resident st r) \/
     (pg_valid row = INVALID_BIT /\
      exists f frow,
        (e = SoftFault f \/ e = HardFault f) /\ 0 <= f /\
        frame_table st !! Z.to_nat f = Some frow /\
        page_table st' =
          <[Z.to_nat r := PageRow f VALID_BIT (pg_aux row)]> (page_table st) /\
        frame_table st' =
          <[Z.to_nat f := FrameRow r (fr_aux frow)]> (frame_table st)) \/
     (pg_valid row <> INVALID_BIT /\
      exists v vrow orow,
        e = StaleFault v (pg_frame row) /\ 0 <= v /\
        frame_table st !! Z.to_nat v = Some vrow /\
        page_table st !! Z.to_nat (fr_page vrow) = Some orow /\
        page_table st' =
          <[Z.to_nat r := PageRow v VALID_BIT (pg_aux row)]>
            (<[Z.to_nat (fr_page vrow) := set_pg_valid INVALID_BIT orow]>
               (page_table st)) /\
        frame_table st' =
          <[Z.to_nat v := FrameRow r (fr_aux vrow)]> (frame_table st))).
Proof.
  unfold fault_step.
  destruct (index PageTable (page_table st) r) as [row|] eqn:Hrow; [|done].
  apply index_inv in Hrow as [Hr Hrow]. rewrite bind_Ok. intros Hstep.
  split; [lia|]. exists row. split; [done|].
  destruct (Z.eqb_spec (pg_valid row) INVALID_BIT) as [Hinv|Hval].
  - right. left. split; [done|].
    destruct (last (free_frame_list st)) as [back|].
    + rewrite bind_Ok in Hstep.
      destruct (bind_page _ _ r back) as [[pt ft]|] eqn:Hb; [|done].
      rewrite bind_Ok in Hstep. injection Hstep as <- <-. simpl.
      apply bind_page_shape in Hb
        as (_ & Hf & prow & frow & Hprow & Hfrow & -> & ->).
      simplify_eq. exists back, frow. split; [by left|]. by repeat split.
    + destruct choose as [v|]; [|done]. rewrite !bind_Ok in Hstep.
      destruct (bind_page _ _ r v) as [[pt ft]|] eqn:Hb; [|done].
      rewrite bind_Ok in Hstep. injection Hstep as <- <-. simpl.
      apply bind_page_shape in Hb
        as (_ & Hf & prow & frow & Hprow & Hfrow & -> & ->).
      simplify_eq. exists v, frow. split; [by right|]. by repeat split.
  - unfold isInMemory in Hstep.
    destruct (index FrameTable (frame_table st) (pg_frame row)) as [frow0|] eqn:H0;
      [|done].
    apply index_inv in H0 as [Hf0 Hfrow0]. rewrite !bind_Ok in Hstep.
    destruct (Z.eqb_spec (fr_page frow0) r) as [Heq|Hne]; simpl in Hstep.
    { injection Hstep as <- <-. left. split; [done|]. split; [done|].
      split; [lia|]. exists row, frow0. repeat split; try done; lia. }
    right. right. split; [done|].
    destruct choose as [v|]; [|done]. rewrite !bind_Ok in Hstep.
    destruct (index FrameTable _ v) as [vrow|] eqn:Hv; [|done].
    apply index_inv in Hv as [Hv Hvrow]. rewrite bind_Ok in Hstep.
    destruct (update PageTable _ _ _) as [pt0|] eqn:Hu; [|done].
    apply update_inv in Hu as (orow & Horow & ->). rewrite bind_Ok in Hstep.
    destruct (bind_page _ _ r v) as [[pt ft]|] eqn:Hb; [|done].
    rewrite bind_Ok in Hstep. injection Hstep as <- <-. simpl.
    apply bind_page_shape in Hb
      as (_ & _ & prow & frow & Hprow & Hfrow & -> & ->).
    assert (frow = vrow) as -> by congruence. exists v, vrow, orow.
    split; [done|]. split; [lia|]. split; [done|]. split; [done|].
    split; [|done]. f_equal. f_equal.
    destruct (decide (Z.to_nat (fr_page vrow) = Z.to_nat r)) as [Heq|Hne'].
    + rewrite Heq in Hprow, Horow.
      rewrite list_lookup_insert_eq in Hprow by (by eapply lookup_lt_Some).
      injection Hprow as <-. simpl. congruence.
    + rewrite list_lookup_insert_ne in Hprow by done. congruence.
Qed.

Lemma same_pg_aux_refl pt : same_pg_aux pt pt.
Proof. by apply Forall2_same_length_lookup_2; [|intros; simplify_eq]. Qed.

Lemma same_pg_aux_insert pt pt' n row row' :
  same_pg_aux pt pt' -> pt' !! n = Some row -> pg_aux row' = pg_aux row ->
  same_pg_aux pt (<[n := row']> pt').
Proof.
  intros H2 Hn Haux. apply Forall2_same_length_lookup_2.
  { rewrite length_insert. by eapply Forall2_length. }
  intros i a b Ha Hb. destruct (decide (i = n)) as [->|Hne].
  - rewrite list_lookup_insert_eq in Hb by (by eapply lookup_lt_Some).
    injection Hb as <-. rewrite Haux.
    by apply (Forall2_lookup_lr _ _ _ _ _ _ H2 Ha Hn).
  - rewrite list_lookup_insert_ne in Hb by done.
    by apply (Forall2_lookup_lr _ _ _ _ _ _ H2 Ha Hb).
Qed.

Lemma same_pg_aux_zero pt pt' :
  same_pg_aux pt pt' ->
  Forall (fun row => pg_aux row = 0) pt -> Forall (fun row => pg_aux row = 0) pt'.
Proof.
  unfold same_pg_aux. intros H2 Hz.
  induction H2 as [|a b pt pt' Hab _ IH]; [done|].
  apply Forall_cons in Hz as [Ha Hz]. apply Forall_cons. split; [congruence|auto].
Qed.

Lemma same_pg_aux_trans pt1 pt2 pt3 :
  same_pg_aux pt1 pt2 -> same_pg_aux pt2 pt3 -> same_pg_aux pt1 pt3.
Proof.
  unfold same_pg_aux. intros H12. revert pt3.
  induction H12 as [|a b l k Hab _ IH]; intros pt3 H23.
  - by apply Forall2_nil_inv_l in H23 as ->.
  - apply Forall2_cons_inv_l in H23 as (c & k' & Hbc & Hk & ->).
    apply Forall2_cons. split; [congruence|auto].
Qed.

(** Setting or clearing a valid bit and binding a page keep the valid
    pages among the old ones and the page bound. *)
Lemma valid_after_insert (pt : list page_row) n row' p x :
  <[n := row']> pt !! p = Some x -> pg_valid x <> INVALID_BIT ->
  p = n \/ pt !! p = Some x.
Proof.
  intros Hp Hx. destruct (decide (p = n)) as [->|Hne]; [by left|].
  right. by rewrite list_lookup_insert_ne in Hp.
Qed.

Lemma fault_step_facts choose st r e st' :
  fault_step choose st r = Ok (e, st') -> step_facts true st r e st'.
Proof.
  intros Hstep. pose proof (fault_step_inv _ _ _ _ _ Hstep) as [_ Heff].
  apply fault_step_shape in Hstep as (Hr & row & Hrow & Hcase).
  destruct Hcase as [(-> & -> & Hres)
                    |[(Hinv & f & frow & He & Hf & Hfrow & Hpt & Hft)
                     |(Hval & v & vrow & orow & -> & Hv & Hvrow & Horow & Hpt & Hft)]].
  - split.
    + done.
    + done.
    + done.
    + apply same_pg_aux_refl.
    + intros p row' Hp Hv. right. by exists row'.
    + intros row' Hrow' Hinv. destruct Hres as (_ & x & _ & Hx & Hxv & _).
      congruence.
    + simpl. lia.
    + simpl. lia.
    + done.
  - assert (is_fault e = true /\ is_stale e = false) as [Hfe Hse]
      by (by destruct He as [->| ->]).
    split.
    + done.
    + intros ->. by destruct He.
    + intros _. split; [done|].
      exists (PageRow f VALID_BIT (pg_aux row)), (FrameRow r (fr_aux frow)).
      rewrite Hpt, Hft. simpl.
      split; [by apply list_lookup_insert_eq; eapply lookup_lt_Some|].
      split; [done|]. split; [done|].
      split; [by apply list_lookup_insert_eq; eapply lookup_lt_Some|done].
    + rewrite Hpt. by eapply same_pg_aux_insert; [apply same_pg_aux_refl|..].
    + intros p row' Hp Hv. rewrite Hpt in Hp.
      destruct (valid_after_insert _ _ _ _ _ Hp Hv) as [->|Hold]; [by left|].
      right. by exists row'.
    + done.
    + rewrite Hfe. destruct He as [-> | ->]; simpl in Heff; lia.
    + rewrite Hse. destruct He as [-> | ->]; simpl in Heff.
      * destruct Heff as (Hlast & -> & _).
        rewrite (last_removelast _ _ Hlast) at 2. rewrite length_app. simpl. lia.
      * destruct Heff as (_ & -> & -> & _). simpl. lia.
    + intros v ->. destruct He as [?| [= <-]]; [done|]. simpl in Heff.
      tauto.
  - split.
    + done.
    + done.
    + intros _. split; [done|].
      exists (PageRow v VALID_BIT (pg_aux row)), (FrameRow r (fr_aux vrow)).
      rewrite Hpt, Hft. simpl.
      split.
      { apply list_lookup_insert_eq. rewrite length_insert.
        by eapply lookup_lt_Some. }
      split; [done|]. split; [done|].
      split; [by apply list_lookup_insert_eq; eapply lookup_lt_Some|done].
    + rewrite Hpt.
      assert (Hmid : same_pg_aux (page_table st)
                (<[Z.to_nat (fr_page vrow) := set_pg_valid INVALID_BIT orow]>
                   (page_table st)))
        by (by eapply same_pg_aux_insert; [apply same_pg_aux_refl|..]).
      destruct (decide (Z.to_nat (fr_page vrow) = Z.to_nat r)) as [Heq|Hne].
      * eapply same_pg_aux_insert; [exact Hmid| |].
        -- rewrite Heq. apply list_lookup_insert_eq. by eapply lookup_lt_Some.
        -- rewrite Heq in Horow. simpl. congruence.
      * eapply same_pg_aux_insert; [exact Hmid| |].
        -- rewrite list_lookup_insert_ne by done. exact Hrow.
        -- done.
    + intros p row' Hp Hv'. rewrite Hpt in Hp.
      destruct (valid_after_insert _ _ _ _ _ Hp Hv') as [->|Hold]; [by left|].
      destruct (decide (p = Z.to_nat (fr_page vrow))) as [->|Hne].
      * rewrite list_lookup_insert_eq in Hold by (by eapply lookup_lt_Some).
        injection Hold as <-. done.
      * rewrite list_lookup_insert_ne in Hold by done. right. by exists row'.
    + intros row' Hrow' Hinv. congruence.
    + simpl in *. lia.
    + simpl in *. destruct Heff as (_ & -> & _). rewrite length_app. simpl. lia.
    + done.
Qed.

Lemma FIFO_step_facts st sel r e st' sel' :
  FIFO_step (st, sel) r = Ok (e, (st', sel')) -> step_facts false st r e st'.
Proof.
  intros Hstep. pose proof (FIFO_step_inv _ _ _ _ _ _ Hstep) as Heff.
  unfold FIFO_step in Hstep.
  destruct (index PageTable (page_table st) r) as [row|] eqn:Hrow; [|done].
  apply index_inv in Hrow as [Hr Hrow]. rewrite bind_Ok in Hstep.
  assert (Hpage : 0 <= r /\ is_Some (page_table st !! Z.to_nat r))
    by (split; [lia|by exists row]).
  destruct (Z.eqb_spec (pg_valid row) INVALID_BIT) as [Hinv|Hval].
  - assert (exists f frow,
      (e = SoftFault f \/ e = HardFault f) /\ 0 <= f /\
      frame_table st !! Z.to_nat f = Some frow /\
      page_table st' =
        <[Z.to_nat r := PageRow f VALID_BIT (pg_aux row)]> (page_table st) /\
      frame_table st' =
        <[Z.to_nat f := FrameRow r (fr_aux frow)]> (frame_table st) /\
      fault_rate st' = fault_rate st + 1)
      as (f & frow & He & Hf & Hfrow & Hpt & Hft & Hrate).
    { destruct (last (free_frame_list st)) as [back|].
      - destruct (bind_page _ _ r back) as [[pt ft]|] eqn:Hb; [|done].
        rewrite bind_Ok in Hstep. injection Hstep as <- <- <-. simpl.
        apply bind_page_shape in Hb
          as (_ & Hf & prow & frow & Hprow & Hfrow & -> & ->).
        assert (prow = row) as -> by congruence.
        exists back, frow. split; [by left|]. by repeat split.
      - destruct (bind_page _ _ r sel) as [[pt ft]|] eqn:Hb; [|done].
        rewrite bind_Ok in Hstep. injection Hstep as <- <- <-. simpl.
        apply bind_page_shape in Hb
          as (_ & Hf & prow & frow & Hprow & Hfrow & -> & ->).
        assert (prow = row) as -> by congruence.
        exists sel, frow. split; [by right|]. by repeat split. }
    assert (Hfe : is_fault e = true) by (by destruct He as [-> | ->]).
    assert (Hse : is_stale e = false) by (by destruct He as [-> | ->]).
    split.
    + done.
    + intros ->. by destruct He.
    + intros _. split; [lia|].
      exists (PageRow f VALID_BIT (pg_aux row)), (FrameRow r (fr_aux frow)).
      rewrite Hpt, Hft. simpl.
      split; [by apply list_lookup_insert_eq; eapply lookup_lt_Some|].
      split; [done|]. split; [done|].
      split; [by apply list_lookup_insert_eq; eapply lookup_lt_Some|done].
    + rewrite Hpt. by eapply same_pg_aux_insert; [apply same_pg_aux_refl|..].
    + intros p row' Hp Hv. rewrite Hpt in Hp.
      destruct (valid_after_insert _ _ _ _ _ Hp Hv) as [->|Hold]; [by left|].
      right. by exists row'.
    + done.
    + rewrite Hfe. lia.
    + destruct He as [-> | ->]; simpl in *.
      * destruct Heff as (Hlast & -> & _).
        rewrite (last_removelast _ _ Hlast) at 2. rewrite length_app. simpl. lia.
      * destruct Heff as (_ & _ & -> & ->). simpl. lia.
    + intros v ->. destruct He as [?| [= <-]]; [done|]. simpl in Heff. tauto.
  - unfold isInMemory in Hstep.
    destruct (index FrameTable (frame_table st) (pg_frame row)) as [frow0|] eqn:H0;
      [|done].
    apply index_inv in H0 as [Hf0 Hfrow0]. rewrite !bind_Ok in Hstep.
    destruct (Z.eqb_spec (fr_page frow0) r) as [Heq|Hne]; simpl in Hstep.
    { injection Hstep as <- <- <-.
      assert (Hres : resident st r).
      { split; [lia|]. exists row, frow0. repeat split; try done; lia. }
      split.
      - done.
      - done.
      - done.
      - apply same_pg_aux_refl.
      - intros p row' Hp Hv. right. by exists row'.
      - intros row' Hrow' Hinv. congruence.
      - simpl. lia.
      - simpl. lia.
      - done. }
    destruct (index FrameTable _ sel) as [vrow|] eqn:Hv; [|done].
    apply index_inv in Hv as [Hv Hvrow]. rewrite bind_Ok in Hstep.
    destruct (if negb (fr_page vrow =? -1) then _ else _) as [pt0|] eqn:Hguard;
      [|done].
    rewrite bind_Ok in Hstep.
    assert (Hpt0 : same_pg_aux (page_table st) pt0 /\
                   (exists prow, pt0 !! Z.to_nat r = Some prow /\
                                 pg_aux prow = pg_aux row) /\
                   forall p x, pt0 !! p = Some x -> pg_valid x <> INVALID_BIT ->
                               page_table st !! p = Some x).
    { destruct (fr_page vrow =? -1); simpl in Hguard.
      - injection Hguard as <-. split; [apply same_pg_aux_refl|].
        split; [by exists row|done].
      - apply update_inv in Hguard as (orow & Horow & ->).
        split; [by eapply same_pg_aux_insert; [apply same_pg_aux_refl|..]|].
        split.
        + destruct (decide (Z.to_nat (fr_page vrow) = Z.to_nat r)) as [Heq|Hne'].
          * rewrite Heq. eexists. split.
            { apply list_lookup_insert_eq. by eapply lookup_lt_Some. }
            rewrite Heq in Horow. simpl. congruence.
          * exists row. by rewrite list_lookup_insert_ne.
        + intros p x Hp Hx.
          destruct (decide (p = Z.to_nat (fr_page vrow))) as [->|Hne'].
          * rewrite list_lookup_insert_eq in Hp by (by eapply lookup_lt_Some).
            injection Hp as <-. done.
          * by rewrite list_lookup_insert_ne in Hp. }
    destruct Hpt0 as (Haux0 & (prow0 & Hprow0 & Hauxr) & Hvalid0).
    destruct (bind_page pt0 _ r sel) as [[pt ft]|] eqn:Hb; [|done].
    rewrite bind_Ok in Hstep.
    apply bind_page_shape in Hb
      as (_ & _ & prow & frow & Hprow & Hfrow & -> & ->).
    assert (prow = prow0) as -> by congruence.
    assert (frow = vrow) as -> by congruence.
    destruct (update FrameTable _ (pg_frame row) _) as [ft'|] eqn:Hu; [|done].
    apply update_inv in Hu as (xrow & Hxrow & ->).
    rewrite bind_Ok in Hstep. injection Hstep as <- <- <-. simpl in *.
    split; simpl.
    + done.
    + done.
    + intros [?|Hneq]; [done|]. apply Z.eqb_neq in Hneq.
      split; [lia|].
      exists (PageRow sel VALID_BIT (pg_aux prow0)), (FrameRow r (fr_aux vrow)).
      simpl.
      split; [by apply list_lookup_insert_eq; eapply lookup_lt_Some|].
      split; [done|]. split; [lia|]. split; [|done].
      rewrite list_lookup_insert_ne by lia.
      apply list_lookup_insert_eq. by eapply lookup_lt_Some.
    + eapply same_pg_aux_insert; [exact Haux0|exact Hprow0|done].
    + intros p row' Hp Hv'.
      destruct (valid_after_insert _ _ _ _ _ Hp Hv') as [->|Hold]; [by left|].
      right. exists row'. split; [|done]. by apply Hvalid0.
    + intros row' Hrow' Hinv. congruence.
    + lia.
    + lia.
    + done.
Qed.

(** ** Whole runs, by induction on the trace *)

Lemma count_events_bounds f es :
  0 <= count_events f es <= Z.of_nat (length es).
Proof.
  induction es as [|e es IH]; simpl; [lia|]. destruct (f e); lia.
Qed.

Lemma count_events_app f es1 es2 :
  count_events f (es1 ++ es2) = count_events f es1 + count_events f es2.
Proof. induction es1 as [|e es1 IH]; simpl; [done|]. rewrite IH. lia. Qed.

Lemma distinct_step (r : Z) seen rest :
  r ∉ seen ->
  (length (remove_dups (filter (fun x => x ∉ seen) (r :: rest))) <=
   S (length (remove_dups (filter (fun x => x ∉ r :: seen) rest))))%nat.
Proof.
  intros Hr. rewrite filter_cons_True by done.
  change (S (length ?l)) with (length (r :: l)).
  apply submseteq_length, NoDup_submseteq; [apply NoDup_remove_dups|].
  intros x Hx. rewrite elem_of_remove_dups in Hx.
  destruct (decide (x = r)) as [->|Hne]; [apply list_elem_of_here|].
  apply list_elem_of_further. rewrite elem_of_remove_dups, list_elem_of_filter.
  rewrite elem_of_cons, list_elem_of_filter in Hx.
  destruct Hx as [?|[Hseen Hrest]]; [done|].
  split; [|done]. rewrite not_elem_of_cons. by split.
Qed.

Lemma filter_not_in_nil (l : list Z) : filter (fun x => x ∉ []) l = l.
Proof.
  induction l as [|x l IH]; [done|].
  rewrite filter_cons_True by apply not_elem_of_nil. by rewrite IH.
Qed.

Lemma elem_of_list_valid_step st (r : Z) refs seen :
  valid_within st (refs ++ r :: seen) -> valid_within st ((r :: refs) ++ seen).
Proof.
  intros H p row Hp Hv. specialize (H p row Hp Hv).
  rewrite elem_of_app, elem_of_cons in H.
  rewrite elem_of_app, elem_of_cons. tauto.
Qed.

Lemma run_summary {T} (step : T -> Z -> result (event * T))
    (tables : T -> sim) (pushes : bool) (I : T -> Prop) :
  (forall s r e s', I s -> step s r = Ok (e, s') ->
     I s' /\ step_facts pushes (tables s) r e (tables s')) ->
  forall refs s es s', I s -> run step s refs = Ok (es, s') ->
    I s' /\ run_facts pushes (tables s) refs es (tables s').
Proof.
  intros Hstep. induction refs as [|r refs IH]; intros s es s'' Hs; simpl.
  - intros [= <- <-]. split; [done|]. split; simpl.
    + done.
    + lia.
    + destruct pushes; lia.
    + apply same_pg_aux_refl.
    + intros. lia.
    + done.
    + done.
  - destruct (step s r) as [[e s']|] eqn:He; [|done]. rewrite bind_Ok.
    destruct (run step s' refs) as [[es' t]|] eqn:Hes; [|done].
    rewrite bind_Ok. intros [= <- <-].
    destruct (Hstep _ _ _ _ Hs He) as [Hs' Hf].
    destruct (IH _ _ _ Hs' Hes) as [Ht Hr]. split; [done|].
    destruct Hf, Hr. split; simpl.
    + lia.
    + destruct (is_fault e); lia.
    + destruct pushes, (is_soft e), (is_stale e); simpl in *; lia.
    + by eapply same_pg_aux_trans.
    + intros seen Hseen. destruct sf_page0 as [Hr0 [row Hrow]].
      destruct (decide (r ∈ seen)) as [Hin|Hnin].
      * rewrite filter_cons_False by (by intros ?).
        assert (Hseen' : valid_within (tables s') seen).
        { intros p row' Hp Hv. destruct (sf_valid0 p row' Hp Hv) as [->|(x & Hx & Hxv)].
          - by rewrite Z2Nat.id.
          - by eapply Hseen. }
        specialize (rf_cold0 seen Hseen'). destruct (is_fault e); lia.
      * assert (Hcold : is_fault e = true).
        { refine (proj1 (sf_cold0 row Hrow _)).
          destruct (decide (pg_valid row = INVALID_BIT)) as [?|Hv]; [done|].
          destruct Hnin. rewrite <- (Z2Nat.id r) by done. by eapply Hseen. }
        assert (Hseen' : valid_within (tables s') (r :: seen)).
        { intros p row' Hp Hv. destruct (sf_valid0 p row' Hp Hv) as [->|(x & Hx & Hxv)].
          - rewrite Z2Nat.id by done. apply list_elem_of_here.
          - apply list_elem_of_further. by eapply Hseen. }
        specialize (rf_cold0 (r :: seen) Hseen').
        pose proof (distinct_step r seen refs Hnin). rewrite Hcold. lia.
    + intros seen Hseen. apply elem_of_list_valid_step.
      destruct sf_page0 as [Hr0 _].
      assert (Hseen' : valid_within (tables s') (r :: seen)).
      { intros p row' Hp Hv. destruct (sf_valid0 p row' Hp Hv) as [->|(x & Hx & Hxv)].
        - rewrite Z2Nat.id by done. apply list_elem_of_here.
        - apply list_elem_of_further. by eapply Hseen. }
      by apply rf_valid0.
    + intros r' e' Hlr Hle Hcond.
      destruct refs as [|r2 refs].
      * simpl in Hes. injection Hes as <- <-. simpl in *.
        injection Hlr as <-. injection Hle as <-. by apply sf_resident0.
      * destruct es' as [|e2 es']; [simpl in rf_events0; lia|].
        change (last (r2 :: refs) = Some r') in Hlr.
        change (last (e2 :: es') = Some e') in Hle. by eapply rf_last0.
Qed.

(** ** The steps of the four routines *)

Lemma OPT_step_inv st rs r e st' rs' :
  OPT_step (st, rs) r = Ok (e, (st', rs')) ->
  fault_step (identifyPageToRemove (frame_table st) rs) st r = Ok (e, st') /\
  rs' = erase_first rs.
Proof.
  rewrite OPT_step_fault.
  destruct (fault_step _ st r) as [[ev st1]|]; [|done].
  rewrite bind_Ok. by intros [= <- <- <-].
Qed.

Lemma RAN_step_inv ref rand st n r e st' n' :
  RAN_step ref rand (st, n) r = Ok (e, (st', n')) ->
  fault_step (Ok (RAN_select ref (rand n))) st r = Ok (e, st') /\
  n' = if draws e then S n else n.
Proof.
  rewrite RAN_step_fault.
  destruct (fault_step _ st r) as [[ev st1]|]; [|done].
  rewrite bind_Ok. by intros [= <- <- <-].
Qed.

Lemma RU_touch_inv r ev st1 e st' :
  RU_touch r ev st1 = Ok (e, st') ->
  e = ev /\
  exists row frow,
    0 <= r /\ 0 <= pg_frame row /\
    page_table st1 !! Z.to_nat r = Some row /\
    frame_table st1 !! Z.to_nat (pg_frame row) = Some frow /\
    st' = Sim (page_table st1)
            (<[Z.to_nat (pg_frame row) := set_fr_aux 0 frow]> (frame_table st1))
            (free_frame_list st1) (fault_rate st1).
Proof.
  unfold RU_touch.
  destruct (index PageTable (page_table st1) r) as [row|] eqn:Hrow; [|done].
  apply index_inv in Hrow as [Hr Hrow]. rewrite bind_Ok.
  unfold update.
  destruct (index FrameTable _ (pg_frame row)) as [frow|] eqn:Hfrow; [|done].
  apply index_inv in Hfrow as [Hf Hfrow]. rewrite !bind_Ok.
  intros [= <- <-]. split; [done|]. exists row, frow.
  repeat split; try done; lia.
Qed.

Lemma RU_step_inv type st r e st' :
  Z.of_nat (length (frame_table st)) = MAX_PAGE_FRAMES ->
  RU_step type st r = Ok (e, st') ->
  exists st1,
    fault_step (RU_select type (frame_table st)) st r = Ok (e, st1) /\
    RU_touch r e st1 = Ok (e, st').
Proof.
  intros Hlen. rewrite RU_step_fault by done.
  destruct (fault_step _ st r) as [[ev st1]|]; [|done].
  rewrite bind_Ok. intros Htouch.
  pose proof (RU_touch_inv _ _ _ _ _ Htouch) as [-> _]. by exists st1.
Qed.

(** Resetting the counter of the frame of [r] keeps [r] resident. *)
Lemma resident_touch st1 r row frow :
  page_table st1 !! Z.to_nat r = Some row ->
  frame_table st1 !! Z.to_nat (pg_frame row) = Some frow ->
  resident st1 r ->
  resident (Sim (page_table st1)
              (<[Z.to_nat (pg_frame row) := set_fr_aux 0 frow]> (frame_table st1))
              (free_frame_list st1) (fault_rate st1)) r.
Proof.
  intros Hrow Hfrow (Hr & row' & frow' & Hrow' & Hv & Hf & Hfrow' & Hp).
  assert (row' = row) as -> by congruence.
  assert (frow' = frow) as -> by congruence.
  split; [done|]. exists row, (set_fr_aux 0 frow). simpl.
  split; [done|]. split; [done|]. split; [done|]. split; [|done].
  apply list_lookup_insert_eq. by eapply lookup_lt_Some.
Qed.

Lemma RU_step_facts type st r e st' :
  Z.of_nat (length (frame_table st)) = MAX_PAGE_FRAMES ->
  RU_step type st r = Ok (e, st') ->
  Z.of_nat (length (frame_table st')) = MAX_PAGE_FRAMES /\
  step_facts true st r e st'.
Proof.
  intros Hlen Hstep.
  destruct (RU_step_inv _ _ _ _ _ Hlen Hstep) as (st1 & Hf & Htouch).
  pose proof (fault_step_inv _ _ _ _ _ Hf) as [Haux _].
  apply fault_step_facts in Hf. destruct Hf.
  apply RU_touch_inv in Htouch
    as (_ & row & frow & Hr & Hfr & Hrow & Hfrow & ->).
  split.
  { simpl. by rewrite length_insert, (same_aux_length _ _ Haux). }
  split; simpl; try done.
  intros Hcond. by apply resident_touch; [| |apply sf_resident0].
Qed.

Lemma OPT_run_vector refs st rs es st' rs' :
  run OPT_step (st, rs) refs = Ok (es, (st', rs')) ->
  rs' = drop (length refs) rs.
Proof.
  revert st rs es st' rs'.
  induction refs as [|r refs IH]; intros st rs es st' rs'.
  - by intros [= _ _ <-].
  - rewrite run_cons.
    destruct (OPT_step (st, rs) r) as [[e [st1 rs1]]|] eqn:He; [|done].
    rewrite bind_Ok.
    destruct (run OPT_step (st1, rs1) refs) as [[es' [t rs2]]|] eqn:Hes; [|done].
    rewrite bind_Ok. intros [= _ _ <-].
    apply OPT_step_inv in He as [_ ->]. rewrite (IH _ _ _ _ _ Hes).
    unfold erase_first. destruct rs as [|x rs]; simpl; [by rewrite drop_nil|done].
Qed.

(** ** The four loops on well-formed tables *)

Lemma FIFO_summary st sel refs :
  wf (-1) st -> 1 <= sel < MAX_PAGE_FRAMES -> Forall page_ok refs ->
  exists es st' sel',
    run FIFO_step (st, sel) refs = Ok (es, (st', sel')) /\
    wf (-1) st' /\ 1 <= sel' < MAX_PAGE_FRAMES /\
    run_facts false st refs es st' /\ Forall spares_frame_0 es.
Proof.
  intros Hwf Hsel Hrefs.
  destruct (FIFO_cursor_total refs st sel Hwf Hsel Hrefs)
    as (es & st' & sel' & Hrun & Hwf' & Hsel' & Hspare).
  exists es, st', sel'. split; [done|]. split; [done|]. split; [done|].
  split; [|done].
  refine (proj2 (run_summary FIFO_step fst false (fun _ => True) _
                   refs (st, sel) es (st', sel') I Hrun)).
  intros [t c] r e [t' c'] _ He. split; [done|]. by eapply FIFO_step_facts.
Qed.

Lemma RU_summary type st refs :
  wf 0 st -> Forall page_ok refs ->
  exists es st',
    RU_run type st refs = Ok (es, st') /\ wf 0 st' /\
    run_facts true st refs es st'.
Proof.
  intros Hwf Hrefs.
  destruct (RU_run_total type st refs Hwf Hrefs) as (es & st' & Hrun & Hwf').
  exists es, st'. split; [done|]. split; [done|].
  refine (proj2 (run_summary (RU_step type) id true
                   (fun st => Z.of_nat (length (frame_table st)) = MAX_PAGE_FRAMES)
                   _ refs st es st' _ Hrun)); [|apply Hwf].
  intros t r e t' Ht He. by eapply RU_step_facts.
Qed.

Lemma OPT_summary st oracle refs :
  wf 0 st -> Forall page_ok refs ->
  exists es st',
    OPT_run st oracle refs = Ok (es, (st', drop (length refs) oracle)) /\
    wf 0 st' /\ run_facts true st refs es st'.
Proof.
  intros Hwf Hrefs.
  destruct (OPT_run_total st oracle refs Hwf Hrefs)
    as (es & st' & rs' & Hrun & Hwf').
  exists es, st'. rewrite <- (OPT_run_vector _ _ _ _ _ _ Hrun).
  split; [done|]. split; [done|].
  refine (proj2 (run_summary OPT_step fst true (fun _ => True) _
                   refs (st, oracle) es (st', rs') I Hrun)).
  intros [t rs] r e [t' rs1] _ He. split; [done|].
  apply OPT_step_inv in He as [He _]. by eapply fault_step_facts.
Qed.

Lemma RAN_summary ref rand st n refs :
  (forall k, 0 <= rand k <= RAND_MAX) ->
  wf 0 st -> Forall page_ok refs ->
  exists es st' n',
    run (RAN_step ref rand) (st, n) refs = Ok (es, (st', n')) /\ wf 0 st' /\
    run_facts true st refs es st'.
Proof.
  intros Hrand Hwf Hrefs.
  destruct (run_total (RAN_step ref rand) (fun '(st, _) => wf 0 st) (fun _ => True))
    with (refs := refs) (s := (st, n))
    as (es & [st' n'] & Hrun & Hwf' & _); [|done|done|].
  { intros [t k] r Ht Hr.
    destruct (RAN_step_spec ref rand t k r Hrand Ht Hr) as (e & t' & k' & ? & ?).
    by exists e, (t', k'). }
  exists es, st', n'. split; [done|]. split; [done|].
  refine (proj2 (run_summary (RAN_step ref rand) fst true (fun _ => True) _
                   refs (st, n) es (st', n') I Hrun)).
  intros [t k] r e [t' k'] _ He. split; [done|].
  apply RAN_step_inv in He as [He _]. by eapply fault_step_facts.
Qed.

(** ** Lists of distinct pages *)

Lemma remove_dups_length_le (l : list Z) :
  (length (remove_dups l) <= length l)%nat.
Proof.
  apply submseteq_length, NoDup_submseteq; [apply NoDup_remove_dups|].
  intros x. by rewrite elem_of_remove_dups.
Qed.

Lemma remove_dups_length_NoDup (l : list Z) :
  NoDup l -> length (remove_dups l) = length l.
Proof.
  intros Hl. apply Nat.le_antisymm; [apply remove_dups_length_le|].
  apply submseteq_length, NoDup_submseteq; [done|].
  intros x. by rewrite elem_of_remove_dups.
Qed.

Lemma remove_dups_length_mono (l k : list Z) :
  (forall x, x ∈ l -> x ∈ k) ->
  (length (remove_dups l) <= length (remove_dups k))%nat.
Proof.
  intros Hlk. apply submseteq_length, NoDup_submseteq; [apply NoDup_remove_dups|].
  intros x. rewrite !elem_of_remove_dups. apply Hlk.
Qed.

Lemma all_invalid_valid_within st :
  all_invalid (page_table st) -> valid_within st [].
Proof.
  intros Hall p row Hp Hv. destruct Hv.
  by apply (Forall_lookup_1 _ _ _ _ Hall Hp).
Qed.

Lemma same_pg_aux_fmap pt pt' :
  same_pg_aux pt pt' -> pg_aux <$> pt' = pg_aux <$> pt.
Proof.
  unfold same_pg_aux. induction 1 as [|a b l k Hab _ IH]; [done|].
  by rewrite !fmap_cons, IH, Hab.
Qed.

(** The bounds on the faults of a run from tables with every valid bit
    clear. *)
Lemma cold_bounds pushes st refs es st' :
  all_invalid (page_table st) -> run_facts pushes st refs es st' ->
  Z.of_nat (length (remove_dups refs)) <= fault_rate st' - fault_rate st
    <= Z.of_nat (length refs).
Proof.
  intros Hall []. pose proof (count_events_bounds is_fault es).
  specialize (rf_cold0 [] (all_invalid_valid_within _ Hall)).
  rewrite filter_not_in_nil in rf_cold0. lia.
Qed.

(** A decidable property of the integers of an interval holds of each
    when it is checked on all of them. *)
Lemma forall_seqZ_decide (P : Z -> Prop) `{!forall x, Decision (P x)} m n :
  bool_decide (Forall P (seqZ m n)) = true ->
  forall x, m <= x < m + n -> P x.
Proof.
  intros Hall x Hx. apply bool_decide_eq_true_1 in Hall.
  by apply (proj1 (Forall_seqZ P m n) Hall).
Qed.

(** ** A page referenced twice in a row *)

Lemma run_snoc {T} (step : T -> Z -> result (event * T)) s refs x :
  run step s (refs ++ [x]) =
  '(es, s1) ← run step s refs; '(e, s2) ← step s1 x; Ok (es ++ [e], s2).
Proof.
  rewrite run_app. destruct (run step s refs) as [[es s1]|]; [|done].
  rewrite !bind_Ok, run_cons. destruct (step s1 x) as [[e s2]|]; [|done].
  by rewrite !bind_Ok.
Qed.

Lemma FIFO_step_hit st sel r :
  resident st r -> FIFO_step (st, sel) r = Ok (Hit, (st, sel)).
Proof.
  intros (Hr & row & frow & Hrow & Hvalid & Hf & Hfrow & Hpage).
  unfold FIFO_step, isInMemory.
  rewrite (index_lookup _ _ _ _ Hr Hrow), bind_Ok.
  destruct (Z.eqb_spec (pg_valid row) INVALID_BIT) as [?|_]; [done|].
  rewrite (index_lookup _ _ _ _ Hf Hfrow), !bind_Ok.
  by rewrite (proj2 (Z.eqb_eq _ _) Hpage).
Qed.

Lemma OPT_step_twice st rs r e st' rs' :
  OPT_step (st, rs) r = Ok (e, (st', rs')) ->
  OPT_step (st', rs') r = Ok (Hit, (st', erase_first rs')).
Proof.
  intros Hstep. apply OPT_step_inv in Hstep as [Hstep _].
  apply fault_step_facts in Hstep. destruct Hstep.
  rewrite OPT_step_fault, fault_step_hit by auto. by rewrite bind_Ok.
Qed.

Lemma RAN_step_twice ref rand st n r e st' n' :
  RAN_step ref rand (st, n) r = Ok (e, (st', n')) ->
  RAN_step ref rand (st', n') r = Ok (Hit, (st', n')).
Proof.
  intros Hstep. apply RAN_step_inv in Hstep as [Hstep _].
  apply fault_step_facts in Hstep. destruct Hstep.
  rewrite RAN_step_fault, fault_step_hit by auto. by rewrite bind_Ok.
Qed.

Lemma RU_step_twice type st r e st' :
  Z.of_nat (length (frame_table st)) = MAX_PAGE_FRAMES ->
  RU_step type st r = Ok (e, st') ->
  RU_step type st' r = Ok (Hit, st').
Proof.
  intros Hlen Hstep.
  destruct (RU_step_facts _ _ _ _ _ Hlen Hstep) as [Hlen' Hfacts].
  destruct (RU_step_inv _ _ _ _ _ Hlen Hstep) as (st1 & _ & Htouch).
  apply RU_touch_inv in Htouch
    as (_ & row & frow & Hr & Hfr & Hrow & Hfrow & ->).
  rewrite RU_step_fault by done.
  rewrite fault_step_hit by (by apply Hfacts; left). rewrite bind_Ok.
  unfold RU_touch, update. simpl.
  rewrite (index_lookup _ _ _ _ Hr Hrow), bind_Ok.
  assert (Hnew : <[Z.to_nat (pg_frame row) := set_fr_aux 0 frow]> (frame_table st1)
                   !! Z.to_nat (pg_frame row) = Some (set_fr_aux 0 frow)).
  { apply list_lookup_insert_eq. by eapply lookup_lt_Some. }
  rewrite (index_lookup _ _ _ _ Hfr Hnew), !bind_Ok.
  by rewrite list_insert_insert_eq.
Qed.

(** A stale fault of [FIFO] whose victim is the frame the page table
    named leaves the page with its valid bit set and that frame marked
    -1. *)
Lemma FIFO_stale_same st sel r e st' sel' :
  FIFO_step (st, sel) r = Ok (e, (st', sel')) ->
  victim_is_old_frame e = true ->
  e = StaleFault sel sel /\ 0 <= r /\ 0 <= sel /\
  exists row frow,
    page_table st' !! Z.to_nat r = Some row /\
    pg_valid row = VALID_BIT /\ pg_frame row = sel /\
    frame_table st' !! Z.to_nat sel = Some frow /\ fr_page frow = -1.
Proof.
  intros Hstep Hsame. pose proof (FIFO_step_inv _ _ _ _ _ _ Hstep) as Heff.
  destruct e as [| | |v o]; try done. simpl in Hsame, Heff.
  apply Z.eqb_eq in Hsame as <-. destruct Heff as (-> & _).
  unfold FIFO_step in Hstep.
  destruct (index PageTable (page_table st) r) as [row|] eqn:Hrow; [|done].
  apply index_inv in Hrow as [Hr Hrow]. rewrite bind_Ok in Hstep.
  destruct (pg_valid row =? INVALID_BIT).
  { destruct (last (free_frame_list st));
      destruct (bind_page _ _ r _) as [[pt ft]|]; done. }
  destruct (isInMemory _ _ _) as [[]|]; [done| |done]. simpl in Hstep.
  destruct (index FrameTable _ sel) as [vrow|] eqn:Hv; [|done].
  apply index_inv in Hv as [Hv Hvrow]. rewrite bind_Ok in Hstep.
  destruct (if negb (fr_page vrow =? -1) then _ else _) as [pt0|]; [|done].
  rewrite bind_Ok in Hstep.
  destruct (bind_page pt0 _ r sel) as [[pt ft]|] eqn:Hb; [|done].
  rewrite bind_Ok in Hstep.
  apply bind_page_shape in Hb as (_ & _ & prow & frow & Hprow & Hfrow & -> & ->).
  destruct (update FrameTable _ (pg_frame row) _) as [ft'|] eqn:Hu; [|done].
  apply update_inv in Hu as (xrow & Hxrow & ->).
  rewrite bind_Ok in Hstep. injection Hstep as Ho <- _. simpl.
  subst sel.
  split; [done|]. split; [lia|]. split; [lia|].
  exists (PageRow (pg_frame row) VALID_BIT (pg_aux prow)), (set_fr_page (-1) xrow).
  split; [by apply list_lookup_insert_eq; eapply lookup_lt_Some|].
  split; [done|]. split; [done|]. split; [|done].
  apply list_lookup_insert_eq. by eapply lookup_lt_Some.
Qed.

(** A page with its valid bit set whose frame holds something else is a
    stale fault of [FIFO] at the cursor. *)
Lemma FIFO_stale_class st sel r row frow e st' sel' :
  0 <= r -> page_table st !! Z.to_nat r = Some row ->
  pg_valid row <> INVALID_BIT ->
  0 <= pg_frame row ->
  frame_table st !! Z.to_nat (pg_frame row) = Some frow ->
  fr_page frow <> r ->
  FIFO_step (st, sel) r = Ok (e, (st', sel')) ->
  e = StaleFault sel (pg_frame row) /\ sel' = FIFO_advance sel /\
  fault_rate st' = fault_rate st + 1.
Proof.
  intros Hr Hrow Hvalid Hf Hfrow Hpage. unfold FIFO_step, isInMemory.
  rewrite (index_lookup _ _ _ _ Hr Hrow), bind_Ok.
  destruct (Z.eqb_spec (pg_valid row) INVALID_BIT) as [?|_]; [done|].
  rewrite (index_lookup _ _ _ _ Hf Hfrow), !bind_Ok.
  destruct (Z.eqb_spec (fr_page frow) r) as [?|_]; [done|]. simpl.
  destruct (index FrameTable _ sel) as [vrow|]; [|done]. rewrite bind_Ok.
  destruct (if negb (fr_page vrow =? -1) then _ else _) as [pt0|]; [|done].
  rewrite bind_Ok.
  destruct (bind_page pt0 _ r sel) as [[pt ft]|]; [|done]. rewrite bind_Ok.
  destruct (update FrameTable ft _ _) as [ft'|]; [|done]. rewrite bind_Ok.
  by intros [= <- <- <-].
Qed.

(** ** The read after the last token *)

Lemma loop_reads_last file x :
  last file = Some x -> loop_reads file = file ++ [x].
Proof. intros H. unfold loop_reads. by rewrite H. Qed.

Lemma Forall_page_ok_last file x :
  Forall page_ok file -> last file = Some x -> page_ok x.
Proof.
  intros Hfile Hlast. apply last_Some in Hlast as [init ->].
  apply Forall_app in Hfile as [_ Hx]. by apply (Forall_inv Hx).
Qed.

Lemma RU_trailing type st file x :
  wf 0 st -> Forall page_ok file -> last file = Some x ->
  exists es st',
    RU_run type st file = Ok (es, st') /\ wf 0 st' /\
    run_facts true st file es st' /\
    RU_run type st (file ++ [x]) = Ok (es ++ [Hit], st').
Proof.
  intros Hwf Hfile Hlast.
  destruct (RU_summary type st file Hwf Hfile) as (es & st' & Hrun & Hwf' & Hf).
  exists es, st'. split; [done|]. split; [done|]. split; [done|].
  pose proof Hlast as Hinit. apply last_Some in Hinit as [init ->].
  apply Forall_app in Hfile as [Hinit _].
  destruct (RU_run_total type st init Hwf Hinit) as (es1 & s1 & Hrun1 & Hwf1).
  unfold RU_run in *. rewrite run_snoc, Hrun1, bind_Ok in Hrun.
  destruct (RU_step type s1 x) as [[e s2]|] eqn:Hstep; [|done].
  rewrite bind_Ok in Hrun. injection Hrun as <- <-.
  rewrite (run_snoc _ _ (init ++ [x])), run_snoc, Hrun1, bind_Ok, Hstep, !bind_Ok.
  rewrite (RU_step_twice _ _ _ _ _ (proj1 (wf_ft _ _ Hwf1)) Hstep).
  by rewrite bind_Ok.
Qed.

Lemma OPT_trailing st oracle file x :
  wf 0 st -> Forall page_ok file -> last file = Some x ->
  exists es st',
    OPT_run st oracle file = Ok (es, (st', drop (length file) oracle)) /\
    wf 0 st' /\ run_facts true st file es st' /\
    OPT_run st oracle (file ++ [x]) =
      Ok (es ++ [Hit], (st', drop (S (length file)) oracle)).
Proof.
  intros Hwf Hfile Hlast.
  destruct (OPT_summary st oracle file Hwf Hfile) as (es & st' & Hrun & Hwf' & Hf).
  exists es, st'. split; [done|]. split; [done|]. split; [done|].
  destruct Hf. unfold OPT_run in *. rewrite run_snoc, Hrun, bind_Ok.
  rewrite OPT_step_fault, fault_step_hit, !bind_Ok.
  - do 3 f_equal. unfold erase_first.
    destruct (drop (length file) oracle) as [|y l] eqn:Hd.
    + simpl. symmetry. apply drop_ge. apply (f_equal length) in Hd.
      rewrite length_drop in Hd. simpl in Hd. lia.
    + simpl. replace (S (length file)) with (length file + 1)%nat by lia.
      by rewrite <- drop_drop, Hd.
  - apply last_Some in Hlast as Hl. destruct Hl as [init ->].
    assert (exists e, last es = Some e) as [e He].
    { destruct (last es) as [e|] eqn:Hle; [by exists e|].
      apply last_None in Hle. subst es. rewrite length_app in rf_events0.
      simpl in rf_events0. lia. }
    apply (rf_last0 x e); [done|done|by left].
Qed.

Lemma RAN_trailing ref rand st file x :
  (forall k, 0 <= rand k <= RAND_MAX) ->
  wf 0 st -> Forall page_ok file -> last file = Some x ->
  exists es st' n,
    RAN_run ref rand st file = Ok (es, (st', n)) /\
    wf 0 st' /\ run_facts true st file es st' /\
    RAN_run ref rand st (file ++ [x]) = Ok (es ++ [Hit], (st', n)).
Proof.
  intros Hrand Hwf Hfile Hlast.
  destruct (RAN_summary ref rand st O file Hrand Hwf Hfile)
    as (es & st' & n & Hrun & Hwf' & Hf).
  exists es, st', n. split; [done|]. split; [done|]. split; [done|].
  destruct Hf. unfold RAN_run in *. rewrite run_snoc, Hrun, bind_Ok.
  rewrite RAN_step_fault, fault_step_hit, !bind_Ok; [done|].
  assert (exists e, last es = Some e) as [e He].
  { destruct (last es) as [e|] eqn:Hle; [by exists e|].
    apply last_None in Hle. subst es.
    apply last_Some in Hlast as [init ->]. rewrite length_app in rf_events0.
    simpl in rf_events0. lia. }
  apply (rf_last0 x e); [done|done|by left].
Qed.

Lemma FIFO_trailing st file x :
  wf (-1) st -> Forall page_ok file -> last file = Some x ->
  exists es st' sel' e,
    FIFO_run st file = Ok (es, (st', sel')) /\
    wf (-1) st' /\ run_facts false st file es st' /\ last es = Some e /\
    (victim_is_old_frame e = false ->
     FIFO_run st (file ++ [x]) = Ok (es ++ [Hit], (st', sel'))).
Proof.
  intros Hwf Hfile Hlast.
  destruct (FIFO_summary st (MAX_PAGE_FRAMES - 1) file)
    as (es & st' & sel' & Hrun & Hwf' & _ & Hf & _); [done|done|done|].
  assert (exists e, last es = Some e) as [e He].
  { destruct Hf. destruct (last es) as [e|] eqn:Hle; [by exists e|].
    apply last_None in Hle. subst es.
    apply last_Some in Hlast as [init ->]. rewrite length_app in rf_events0.
    simpl in rf_events0. lia. }
  exists es, st', sel', e. do 4 (split; [done|]).
  intros Hdiff. destruct Hf. unfold FIFO_run in *.
  rewrite run_snoc, Hrun, bind_Ok, FIFO_step_hit; [by rewrite bind_Ok|].
  apply (rf_last0 x e); [done|done|by right].
Qed.

(** ** [createReferenceString] *)

Lemma createReferenceString_loop_unfold fuel rand n lcv out :
  createReferenceString_loop fuel rand n lcv out =
  if lcv <? PROC_POOL_SIZE then
    match fuel with
    | O => None
    | S fuel' =>
        createReferenceString_loop fuel' rand (S (S n))
          (lcv + rand n `rem` 5)
          (out ++ replicate (Z.to_nat (rand n `rem` 5))
                    (rand (S n) * MAX_NUM_PAGES / (RAND_MAX + 1)))
    end
  else Some out.
Proof. by destruct fuel. Qed.

Lemma reference_page r :
  0 <= r <= RAND_MAX -> page_ok (r * MAX_NUM_PAGES / (RAND_MAX + 1)).
Proof.
  unfold page_ok, MAX_NUM_PAGES, RAND_MAX. intros Hr.
  split; [apply Z.div_pos; lia|]. apply Z.div_lt_upper_bound; lia.
Qed.

Lemma createReferenceString_loop_shape rand :
  (forall k, 0 <= rand k <= RAND_MAX) ->
  forall fuel n lcv out file,
    Z.of_nat (length out) = lcv -> lcv <= PROC_POOL_SIZE + 3 ->
    Forall page_ok out ->
    createReferenceString_loop fuel rand n lcv out = Some file ->
    PROC_POOL_SIZE <= Z.of_nat (length file) <= PROC_POOL_SIZE + 3 /\
    Forall page_ok file /\ exists rest, file = out ++ rest.
Proof.
  intros Hrand. induction fuel as [|fuel IH]; intros n lcv out file Hlen Hmax Hout;
    rewrite createReferenceString_loop_unfold;
    destruct (Z.ltb_spec lcv PROC_POOL_SIZE) as [Hlt|Hge]; try done.
  - intros [= <-]. split; [lia|]. split; [done|]. exists []. by rewrite app_nil_r.
  - intros Hrec.
    assert (Hrem : 0 <= rand n `rem` 5 < 5)
      by (apply Z.rem_bound_pos; [apply Hrand|lia]).
    apply IH in Hrec as (Hb & Hpages & rest & ->).
    + split; [lia|]. split; [done|]. eexists. by rewrite <- app_assoc.
    + rewrite length_app, length_replicate. lia.
    + lia.
    + apply Forall_app. split; [done|]. apply Forall_replicate.
      apply reference_page, Hrand.
  - intros [= <-]. split; [lia|]. split; [done|]. exists []. by rewrite app_nil_r.
Qed.

Lemma createReferenceString_loop_stuck rand :
  (forall k, rand k `rem` 5 = 0) ->
  forall fuel n out, createReferenceString_loop fuel rand n 1 out = None.
Proof.
  intros Hzero. induction fuel as [|fuel IH]; intros n out; [done|].
  rewrite createReferenceString_loop_unfold, Hzero. simpl. apply IH.
Qed.

Lemma createReferenceString_loop_ends rand :
  (forall j, 1 <= rand (2 * j)%nat `rem` 5) ->
  forall fuel k lcv out,
    PROC_POOL_SIZE - lcv <= Z.of_nat fuel ->
    exists file,
      createReferenceString_loop fuel rand (2 * k) lcv out = Some file.
Proof.
  intros Hpos. induction fuel as [|fuel IH]; intros k lcv out Hfuel;
    rewrite createReferenceString_loop_unfold;
    destruct (Z.ltb_spec lcv PROC_POOL_SIZE) as [Hlt|Hge];
    try (by eexists); [lia|].
  replace (S (S (2 * k))) with (2 * S k)%nat by lia.
  apply IH. specialize (Hpos k). lia.
Qed.

(** ** The six runs of [main] *)

Lemma main_tables_invalid k : all_invalid (page_table (main_tables k)).
Proof. by apply Forall_replicate. Qed.

Lemma loop_reads_length file : length (loop_reads file) = S (length file).
Proof.
  unfold loop_reads. destruct (last file) as [x|] eqn:Hlast.
  - rewrite length_app. simpl. lia.
  - by apply last_None in Hlast as ->.
Qed.

Lemma loop_reads_distinct file :
  (length (remove_dups file) <= length (remove_dups (loop_reads file)))%nat.
Proof.
  apply remove_dups_length_mono. intros x Hx. unfold loop_reads.
  destruct (last file) as [y|] eqn:Hlast.
  - apply elem_of_app. by left.
  - apply last_None in Hlast as ->. by apply elem_of_nil in Hx.
Qed.

(** The fault rate each routine reports on the tables of [main]. *)
Lemma main_run_bounds k file type ref rand :
  Forall page_ok file -> (forall n, 0 <= rand n <= RAND_MAX) ->
  every_routine (main_tables k) (loop_reads file) type ref rand
    (read_oracle file)
    (fun _ _ st' =>
       Z.of_nat (length (remove_dups file)) <= fault_rate st'
         <= Z.of_nat (length file) + 1).
Proof.
  intros Hfile Hrand. apply loop_reads_pages in Hfile.
  repeat split.
  - destruct (FIFO_summary (main_tables k) (MAX_PAGE_FRAMES - 1) (loop_reads file))
      as (es & st' & sel' & Hrun & _ & _ & Hfacts & _);
      [apply wf_weaken, main_tables_wf|done|done|].
    exists es, st', sel'. split; [done|].
    pose proof (cold_bounds _ _ _ _ _ (main_tables_invalid k) Hfacts) as Hb.
    pose proof (loop_reads_distinct file). rewrite loop_reads_length in Hb.
    simpl in Hb. lia.
  - destruct (RU_summary type (main_tables k) (loop_reads file))
      as (es & st' & Hrun & _ & Hfacts); [apply main_tables_wf|done|].
    exists es, st'. split; [done|].
    pose proof (cold_bounds _ _ _ _ _ (main_tables_invalid k) Hfacts) as Hb.
    pose proof (loop_reads_distinct file). rewrite loop_reads_length in Hb.
    simpl in Hb. lia.
  - destruct (OPT_summary (main_tables k) (read_oracle file) (loop_reads file))
      as (es & st' & Hrun & _ & Hfacts); [apply main_tables_wf|done|].
    eexists es, st', _. split; [done|].
    pose proof (cold_bounds _ _ _ _ _ (main_tables_invalid k) Hfacts) as Hb.
    pose proof (loop_reads_distinct file). rewrite loop_reads_length in Hb.
    simpl in Hb. lia.
  - destruct (RAN_summary ref rand (main_tables k) O (loop_reads file))
      as (es & st' & n & Hrun & _ & Hfacts); [done|apply main_tables_wf|done|].
    exists es, st', n. split; [done|].
    pose proof (cold_bounds _ _ _ _ _ (main_tables_invalid k) Hfacts) as Hb.
    pose proof (loop_reads_distinct file). rewrite loop_reads_length in Hb.
    simpl in Hb. lia.
Qed.

Lemma main_bounds file rand (lo hi : Z) :
  Forall page_ok file -> (forall n, 0 <= rand n <= RAND_MAX) ->
  lo <= Z.of_nat (length (remove_dups file)) ->
  Z.of_nat (length file) + 1 <= hi ->
  exists report,
    main file rand = Ok report /\ length report = 6%nat /\
    Forall (fun c => lo <= c <= hi) report.
Proof.
  intros Hfile Hrand Hlo Hhi. unfold main, FIFO, RU, OPT, RAN.
  destruct (main_run_bounds 1 file "LRU" "RAN" rand Hfile Hrand)
    as ((es1 & st1 & sel1 & -> & H1) & _).
  rewrite bind_Ok. cbv beta iota.
  destruct (main_run_bounds 2 file "LRU" "RAN" rand Hfile Hrand)
    as (_ & (es2 & st2 & -> & H2) & _).
  rewrite bind_Ok. cbv beta iota.
  destruct (main_run_bounds 3 file "MRU" "RAN" rand Hfile Hrand)
    as (_ & (es3 & st3 & -> & H3) & _).
  rewrite bind_Ok. cbv beta iota.
  destruct (main_run_bounds 4 file "MRU" "RAN" rand Hfile Hrand)
    as (_ & _ & (es4 & st4 & rs4 & -> & H4) & _).
  rewrite bind_Ok. cbv beta iota.
  destruct (main_run_bounds 5 file "MRU" "RAN" rand Hfile Hrand)
    as (_ & _ & _ & (es5 & st5 & n5 & -> & H5)).
  rewrite bind_Ok. cbv beta iota.
  destruct (main_run_bounds 6 file "MRU" "RAN2" (fun i => rand (n5 + i)%nat) Hfile)
    as (_ & _ & _ & (es6 & st6 & n6 & -> & H6)); [done|].
  rewrite bind_Ok. cbv beta iota.
  eexists. split; [done|]. split; [done|].
  repeat (apply Forall_cons; split; [lia|]). apply Forall_nil_2.
Qed.

(** On a file of pairwise distinct pages every token is a fault and the
    read after the last token is a hit, under every routine. *)
Lemma last_event_cold {T} (step : T -> Z -> result (event * T))
    (tables : T -> sim) (pushes : bool) s init x es s' e :
  (forall s r e s', step s r = Ok (e, s') ->
                    step_facts pushes (tables s) r e (tables s')) ->
  all_invalid (page_table (tables s)) ->
  NoDup (init ++ [x]) ->
  run step s (init ++ [x]) = Ok (es, s') ->
  last es = Some e -> is_stale e = false.
Proof.
  intros Hstep Hall Hnd. rewrite run_snoc.
  destruct (run step s init) as [[es1 s1]|] eqn:Hrun; [|done].
  rewrite bind_Ok. destruct (step s1 x) as [[e' s2]|] eqn:He; [|done].
  rewrite bind_Ok. intros [= <- <-]. rewrite last_snoc. intros [= <-].
  destruct (run_summary step tables pushes (fun _ => True)) with
    (refs := init) (s := s) (es := es1) (s' := s1) as [_ Hfacts]; [|done|done|].
  { intros t r e t' _ Ht. split; [done|]. by apply Hstep. }
  destruct Hfacts. specialize (rf_valid0 [] (all_invalid_valid_within _ Hall)).
  destruct (Hstep _ _ _ _ He). destruct sf_page0 as [Hx [row Hrow]].
  apply (sf_cold0 row Hrow).
  destruct (decide (pg_valid row = INVALID_BIT)) as [?|Hv]; [done|].
  specialize (rf_valid0 _ _ Hrow Hv). rewrite Z2Nat.id, app_nil_r in rf_valid0 by done.
  apply NoDup_app in Hnd as (_ & Hnot & _).
  destruct (Hnot x rf_valid0). apply list_elem_of_here.
Qed.

Lemma stale_of_victim_is_old_frame e :
  is_stale e = false -> victim_is_old_frame e = false.
Proof. by destruct e. Qed.

Lemma distinct_faults pushes k file es st' :
  NoDup file -> run_facts pushes (main_tables k) file es st' ->
  fault_rate st' = Z.of_nat (length file).
Proof.
  intros Hnd Hfacts.
  pose proof (cold_bounds _ _ _ _ _ (main_tables_invalid k) Hfacts) as Hb.
  rewrite remove_dups_length_NoDup in Hb by done. simpl in Hb. lia.
Qed.

Lemma main_runs_distinct k file x type ref rand :
  Forall page_ok file -> NoDup file -> last file = Some x ->
  (forall n, 0 <= rand n <= RAND_MAX) ->
  every_routine (main_tables k) (loop_reads file) type ref rand
    (read_oracle file)
    (fun _ _ st' => fault_rate st' = Z.of_nat (length file)).
Proof.
  intros Hfile Hnd Hlast Hrand. rewrite (loop_reads_last _ _ Hlast).
  pose proof (main_tables_wf k) as Hwf.
  repeat split.
  - destruct (FIFO_trailing (main_tables k) file x (wf_weaken _ Hwf) Hfile Hlast)
      as (es & st' & sel' & e & Hrun & _ & Hfacts & He & Hhit).
    exists (es ++ [Hit]), st', sel'.
    split; [|by eapply distinct_faults].
    apply Hhit, stale_of_victim_is_old_frame.
    pose proof Hlast as Hinit. apply last_Some in Hinit as [init ->].
    eapply (last_event_cold FIFO_step fst false); [| | |exact Hrun|exact He].
    + intros [t c] r e' [t' c'] Ht. by eapply FIFO_step_facts.
    + apply main_tables_invalid.
    + done.
  - destruct (RU_trailing type (main_tables k) file x Hwf Hfile Hlast)
      as (es & st' & _ & _ & Hfacts & Hrun).
    exists (es ++ [Hit]), st'. split; [done|]. by eapply distinct_faults.
  - destruct (OPT_trailing (main_tables k) (read_oracle file) file x Hwf Hfile Hlast)
      as (es & st' & _ & _ & Hfacts & Hrun).
    eexists (es ++ [Hit]), st', _. split; [done|]. by eapply distinct_faults.
  - destruct (RAN_trailing ref rand (main_tables k) file x Hrand Hwf Hfile Hlast)
      as (es & st' & n & _ & _ & Hfacts & Hrun).
    exists (es ++ [Hit]), st', n. split; [done|]. by eapply distinct_faults.
Qed.

(** ** The string parameters *)

Lemma RU_step_default type st r :
  type <> "MRU"%string -> RU_step type st r = RU_step "LRU" st r.
Proof.
  intros Hne. unfold RU_step, RU_select.
  by rewrite (proj2 (String.eqb_neq _ _) Hne).
Qed.

Lemma RAN_step_default ref rand s r :
  ref <> "RAN"%string -> RAN_step ref rand s r = RAN_step "RAN2" rand s r.
Proof.
  intros Hne. unfold RAN_step, RAN_select.
  by rewrite (proj2 (String.eqb_neq _ _) Hne).
Qed.

Lemma run_ext {T} (step1 step2 : T -> Z -> result (event * T)) :
  (forall s r, step1 s r = step2 s r) ->
  forall refs s, run step1 s refs = run step2 s refs.
Proof.
  intros Hstep. induction refs as [|r refs IH]; intros s; [done|].
  rewrite !run_cons, Hstep. destruct (step2 s r) as [[e s']|]; [|done].
  by rewrite !bind_Ok, IH.
Qed.

(** ** The read loop, extraction by extraction *)

Lemma stream_reads_white_space file s :
  stream_reads true s file = file ++ [default s (last file)].
Proof.
  revert s. induction file as [|t rest IH]; intros s; [done|].
  assert (Hcons : stream_reads true s (t :: rest) =
                  t :: stream_reads true t rest) by by destruct rest.
  rewrite Hcons, IH, last_cons. by destruct (last rest).
Qed.

Lemma stream_reads_end file s x :
  last file = Some x -> stream_reads false s file = file.
Proof.
  revert s. induction file as [|t rest IH]; intros s Hlast; [done|].
  destruct rest as [|t' rest]; [done|].
  change (last (t' :: rest) = Some x) in Hlast.
  change (t :: stream_reads false t (t' :: rest) = t :: t' :: rest).
  f_equal. by apply IH.
Qed.

Lemma loop_reads_stream file : loop_reads file = stream_reads true 0 file.
Proof.
  rewrite stream_reads_white_space. unfold loop_reads.
  destruct (last file) as [x|] eqn:Hlast; [done|].
  by apply last_None in Hlast as ->.
Qed.

Lemma stream_reads_last (white_space_at_end : bool) file x :
  last file = Some x ->
  stream_reads white_space_at_end 0 file =
  file ++ (if white_space_at_end then [x] else []).
Proof.
  intros Hlast. destruct white_space_at_end.
  - by rewrite stream_reads_white_space, Hlast.
  - by rewrite (stream_reads_end _ _ x), app_nil_r.
Qed.

(** * Further properties: the theorems *)

Lemma every_routine_intro st refs type ref rand oracle
    (P : bool -> list event -> sim -> Prop) :
  wf 0 st -> Forall page_ok refs -> (forall n, 0 <= rand n <= RAND_MAX) ->
  (forall (pushes : bool) es st',
     wf (if pushes then 0 else -1) st' -> run_facts pushes st refs es st' ->
     P pushes es st') ->
  every_routine st refs type ref rand oracle P.
Proof.
  intros Hwf Hrefs Hrand HP. repeat split.
  - destruct (FIFO_summary st (MAX_PAGE_FRAMES - 1) refs)
      as (es & st' & sel' & Hrun & Hwf' & _ & Hfacts & _);
      [by apply wf_weaken|done|done|].
    exists es, st', sel'. split; [done|]. by apply HP.
  - destruct (RU_summary type st refs Hwf Hrefs) as (es & st' & Hrun & Hwf' & Hf).
    exists es, st'. split; [done|]. by apply HP.
  - destruct (OPT_summary st oracle refs Hwf Hrefs) as (es & st' & Hrun & Hwf' & Hf).
    exists es, st', (drop (length refs) oracle). split; [done|]. by apply HP.
  - destruct (RAN_summary ref rand st O refs Hrand Hwf Hrefs)
      as (es & st' & n & Hrun & Hwf' & Hf).
    exists es, st', n. split; [done|]. by apply HP.
Qed.

Lemma small_trace_pages : Forall page_ok [3; 5; 3; 7].
Proof. repeat constructor; unfold MAX_NUM_PAGES; lia. Qed.

Lemma zero_rand_range : forall n : nat, 0 <= (fun _ : nat => 0) n <= RAND_MAX.
Proof. intros n. unfold RAND_MAX. lia. Qed.

(** X6. On tables that are well formed -- the arrays have their sizes,
    the page table and the free frame list name frames only, the frame
    table holds pages only -- and on a trace of pages, each of the four
    loops runs to its end without leaving an array and leaves the tables
    well formed; under [FIFO] the frame table may then also hold the
    marker -1, which the other routines never store. *)
Theorem tables_stay_well_formed (st : sim) (refs : list Z)
    (type ref : string) (rand : nat -> Z) (oracle : list Z) :
  wf 0 st -> Forall page_ok refs -> (forall n, 0 <= rand n <= RAND_MAX) ->
  every_routine st refs type ref rand oracle
    (fun (pushes : bool) _ st' => wf (if pushes then 0 else -1) st').
Proof. intros Hwf Hrefs Hrand. by apply every_routine_intro. Qed.

Lemma tables_stay_well_formed_witness :
  every_routine (main_tables 1) [3; 5; 3; 7] "LRU" "RAN" (fun _ => 0) [3; 5]
    (fun (pushes : bool) _ st' => wf (if pushes then 0 else -1) st').
Proof.
  apply (tables_stay_well_formed (main_tables 1) [3; 5; 3; 7]).
  - apply main_tables_wf.
  - apply small_trace_pages.
  - apply zero_rand_range.
Defined.

(** X7. In each of the four loops every reference yields one event and
    the fault rate grows by exactly the number of references that were
    not hits; it therefore never decreases and grows by at most the
    number of references. *)
Theorem fault_rate_counts_faults (st : sim) (refs : list Z)
    (type ref : string) (rand : nat -> Z) (oracle : list Z) :
  wf 0 st -> Forall page_ok refs -> (forall n, 0 <= rand n <= RAND_MAX) ->
  every_routine st refs type ref rand oracle
    (fun _ es st' =>
       length es = length refs /\
       fault_rate st' = fault_rate st + count_events is_fault es /\
       fault_rate st <= fault_rate st' <= fault_rate st + Z.of_nat (length refs)).
Proof.
  intros Hwf Hrefs Hrand. apply every_routine_intro; [done..|].
  intros pushes es st' _ []. split; [done|]. split; [done|].
  pose proof (count_events_bounds is_fault es). lia.
Qed.

Lemma fault_rate_counts_faults_witness :
  every_routine (main_tables 1) [3; 5; 3; 7] "LRU" "RAN" (fun _ => 0) [3; 5]
    (fun _ es st' =>
       length es = length [3; 5; 3; 7] /\
       fault_rate st' = fault_rate (main_tables 1) + count_events is_fault es /\
       fault_rate (main_tables 1) <= fault_rate st' <=
       fault_rate (main_tables 1) + Z.of_nat (length [3; 5; 3; 7])).
Proof.
  apply (fault_rate_counts_faults (main_tables 1) [3; 5; 3; 7]).
  - apply main_tables_wf.
  - apply small_trace_pages.
  - apply zero_rand_range.
Defined.

(** X8. The free frame list loses one entry for every soft fault and
    nothing else removes from it; under [RU], [OPT] and [RAN] it gains
    one entry for every stale fault (valid bit set, frame held by
    another page), under [FIFO] it never gains any. So the soft faults
    of a run number at most the entries the list had at the start plus
    the stale faults that pushed. *)
Theorem free_list_accounting (st : sim) (refs : list Z)
    (type ref : string) (rand : nat -> Z) (oracle : list Z) :
  wf 0 st -> Forall page_ok refs -> (forall n, 0 <= rand n <= RAND_MAX) ->
  every_routine st refs type ref rand oracle
    (fun (pushes : bool) es st' =>
       Z.of_nat (length (free_frame_list st')) =
         Z.of_nat (length (free_frame_list st)) - count_events is_soft es +
         (if pushes then count_events is_stale es else 0) /\
       count_events is_soft es <=
         Z.of_nat (length (free_frame_list st)) +
         (if pushes then count_events is_stale es else 0)).
Proof.
  intros Hwf Hrefs Hrand. apply every_routine_intro; [done..|].
  intros pushes es st' _ []. lia.
Qed.

Lemma free_list_accounting_witness :
  every_routine (main_tables 1) [3; 5; 3; 7] "LRU" "RAN" (fun _ => 0) [3; 5]
    (fun (pushes : bool) es st' =>
       Z.of_nat (length (free_frame_list st')) =
         Z.of_nat (length (free_frame_list (main_tables 1))) -
         count_events is_soft es +
         (if pushes then count_events is_stale es else 0) /\
       count_events is_soft es <=
         Z.of_nat (length (free_frame_list (main_tables 1))) +
         (if pushes then count_events is_stale es else 0)).
Proof.
  apply (free_list_accounting (main_tables 1) [3; 5; 3; 7]).
  - apply main_tables_wf.
  - apply small_trace_pages.
  - apply zero_rand_range.
Defined.

(** X9. No routine writes the auxiliary column of the page table,
    [page_table[i][2]], the column [displayPageTable] prints as
    Auxiliary for LRU and MRU: after
    each of the four loops it is what it was at the start (all 0 after
    the reset of [main]); the recency counters live in the frame table
    only. *)
Theorem page_table_aux_untouched (st : sim) (refs : list Z)
    (type ref : string) (rand : nat -> Z) (oracle : list Z) :
  wf 0 st -> Forall page_ok refs -> (forall n, 0 <= rand n <= RAND_MAX) ->
  every_routine st refs type ref rand oracle
    (fun _ _ st' => pg_aux <$> page_table st' = pg_aux <$> page_table st).
Proof.
  intros Hwf Hrefs Hrand. apply every_routine_intro; [done..|].
  intros pushes es st' _ []. by apply same_pg_aux_fmap.
Qed.

Lemma page_table_aux_untouched_witness :
  every_routine (main_tables 1) [3; 5; 3; 7] "LRU" "RAN" (fun _ => 0) [3; 5]
    (fun _ _ st' =>
       pg_aux <$> page_table st' = pg_aux <$> page_table (main_tables 1)).
Proof.
  apply (page_table_aux_untouched (main_tables 1) [3; 5; 3; 7]).
  - apply main_tables_wf.
  - apply small_trace_pages.
  - apply zero_rand_range.
Defined.

(** X10. Started with every valid bit clear, as after the reset of
    [main], each of the four loops faults at least once for every
    distinct page of the trace (the first reference to a page is always
    a fault) and at most once per reference; on a trace of pairwise
    distinct pages every reference is a fault, whatever the policy. *)
Theorem first_references_fault (st : sim) (refs : list Z)
    (type ref : string) (rand : nat -> Z) (oracle : list Z) :
  wf 0 st -> all_invalid (page_table st) ->
  Forall page_ok refs -> (forall n, 0 <= rand n <= RAND_MAX) ->
  every_routine st refs type ref rand oracle
    (fun _ _ st' =>
       Z.of_nat (length (remove_dups refs)) <= fault_rate st' - fault_rate st
         <= Z.of_nat (length refs) /\
       (NoDup refs -> fault_rate st' = fault_rate st + Z.of_nat (length refs))).
Proof.
  intros Hwf Hall Hrefs Hrand. apply every_routine_intro; [done..|].
  intros pushes es st' _ Hfacts.
  pose proof (cold_bounds _ _ _ _ _ Hall Hfacts) as Hb. split; [done|].
  intros Hnd. rewrite remove_dups_length_NoDup in Hb by done. lia.
Qed.

Lemma first_references_fault_witness :
  every_routine (main_tables 1) [3; 5; 3; 7] "LRU" "RAN" (fun _ => 0) [3; 5]
    (fun _ _ st' =>
       Z.of_nat (length (remove_dups [3; 5; 3; 7])) <=
         fault_rate st' - fault_rate (main_tables 1)
         <= Z.of_nat (length [3; 5; 3; 7]) /\
       (NoDup [3; 5; 3; 7] ->
        fault_rate st' =
        fault_rate (main_tables 1) + Z.of_nat (length [3; 5; 3; 7]))).
Proof.
  apply (first_references_fault (main_tables 1) [3; 5; 3; 7]).
  - apply main_tables_wf.
  - apply Forall_replicate. reflexivity.
  - apply small_trace_pages.
  - apply zero_rand_range.
Defined.

(** X1. On a frame table of [MAX_PAGE_FRAMES] rows the victim scan of
    [RU] always returns a frame: under ["MRU"] the lowest frame among
    those with the greatest counter, under any other [type] (["LRU"]
    included) the lowest frame among those with the least counter. *)
Theorem RU_select_extreme (type : string) (ft : list frame_row) :
  Z.of_nat (length ft) = MAX_PAGE_FRAMES ->
  exists v,
    RU_select type ft = Ok v /\ frame_ok v /\
    forall i, frame_ok i ->
      (type = "MRU"%string ->
       counter ft i <= counter ft v /\ (i < v -> counter ft i < counter ft v)) /\
      (type <> "MRU"%string ->
       counter ft v <= counter ft i /\ (i < v -> counter ft v < counter ft i)).
Proof.
  intros Hlen. destruct (RU_select_spec type ft Hlen) as (v & Hv & Hvok & Hall).
  exists v. split; [done|]. split; [done|]. intros i Hi.
  specialize (Hall i Hi). destruct (String.eqb_spec type "MRU"); by split.
Qed.

Lemma RU_select_extreme_witness :
  exists v,
    RU_select "LRU" frames_3_9_1_9 = Ok v /\ frame_ok v /\
    forall i, frame_ok i ->
      ("LRU"%string = "MRU"%string ->
       counter frames_3_9_1_9 i <= counter frames_3_9_1_9 v /\
       (i < v -> counter frames_3_9_1_9 i < counter frames_3_9_1_9 v)) /\
      ("LRU"%string <> "MRU"%string ->
       counter frames_3_9_1_9 v <= counter frames_3_9_1_9 i /\
       (i < v -> counter frames_3_9_1_9 v < counter frames_3_9_1_9 i)).
Proof. apply (RU_select_extreme "LRU" frames_3_9_1_9). reflexivity. Defined.

(** X2. Both formulas of [RAN] turn every value of [rand()] between 0
    and [RAND_MAX] into a frame of [0, MAX_PAGE_FRAMES), and each of them
    can yield every frame. *)
Theorem RAN_select_frames (ref : string) :
  (forall r, 0 <= r <= RAND_MAX -> frame_ok (RAN_select ref r)) /\
  (forall f, frame_ok f ->
             exists r, 0 <= r <= RAND_MAX /\ RAN_select ref r = f).
Proof.
  split; [intros r; apply RAN_select_frame|].
  intros f Hf. unfold RAN_select.
  destruct (ref =? "RAN")%string.
  - exists ((f * (RAND_MAX + 1) + MAX_PAGE_FRAMES - 1) / MAX_PAGE_FRAMES).
    unfold frame_ok, MAX_PAGE_FRAMES, RAND_MAX in *.
    pattern f.
    match goal with
    | |- ?P f => apply (forall_seqZ_decide P 0 48); [vm_compute; reflexivity|lia]
    end.
  - exists f. unfold frame_ok, MAX_PAGE_FRAMES, RAND_MAX in *.
    split; [lia|]. apply Z.rem_small. lia.
Qed.

(** X3. When no page held by a frame occurs in the reference string --
    in particular when the string is used up -- every frame gets the
    sentinel and [identifyPageToRemove] returns frame 0. *)
Theorem identifyPageToRemove_no_future (ft : list frame_row) (rs : list Z) :
  Z.of_nat (length ft) = MAX_PAGE_FRAMES ->
  (forall i, frame_ok i -> occupant ft i ∉ rs) ->
  identifyPageToRemove ft rs = Ok 0.
Proof.
  intros Hlen Hnone.
  destruct (identifyPageToRemove_max ft rs Hlen) as (v & -> & Hv & Hmax).
  f_equal. destruct (decide (v = 0)) as [->|Hne]; [done|].
  assert (H0 : frame_ok 0) by done.
  destruct (Hmax 0 H0) as [_ Hlt].
  rewrite !next_use_absent in Hlt by auto. unfold frame_ok in Hv. lia.
Qed.

Lemma identifyPageToRemove_no_future_witness :
  identifyPageToRemove frames_5_7 [] = Ok 0.
Proof.
  apply (identifyPageToRemove_no_future frames_5_7 []).
  - reflexivity.
  - intros i _. apply not_elem_of_nil.
Defined.

(** X4. The cursor of [FIFO], once among the frames 1 to
    [MAX_PAGE_FRAMES - 1], stays there for ever, is back where it was
    after [MAX_PAGE_FRAMES - 1] evictions, and points at pairwise
    different frames during them: the cycle has 47 frames, not 48. *)
Theorem FIFO_cursor_cycle (c : Z) :
  1 <= c < MAX_PAGE_FRAMES ->
  Nat.iter 47 FIFO_advance c = c /\
  NoDup ((fun n => Nat.iter n FIFO_advance c) <$> seq 0 47) /\
  forall n, 1 <= Nat.iter n FIFO_advance c < MAX_PAGE_FRAMES.
Proof.
  intros Hc. unfold MAX_PAGE_FRAMES in Hc. split; [|split].
  - assert (Hall : bool_decide
               (Forall (fun c => Nat.iter 47 FIFO_advance c = c) (seqZ 1 47)) = true)
      by (vm_compute; reflexivity).
    apply bool_decide_eq_true_1 in Hall.
    apply (proj1 (Forall_seqZ _ 1 47) Hall c). lia.
  - assert (Hall : bool_decide
               (Forall (fun c => NoDup ((fun n => Nat.iter n FIFO_advance c) <$> seq 0 47))
                  (seqZ 1 47)) = true)
      by (vm_compute; reflexivity).
    apply bool_decide_eq_true_1 in Hall.
    apply (proj1 (Forall_seqZ _ 1 47) Hall c). lia.
  - induction n as [|n IH]; [simpl; unfold MAX_PAGE_FRAMES; lia|].
    simpl. by apply FIFO_advance_range.
Qed.

Lemma FIFO_cursor_cycle_witness :
  Nat.iter 47 FIFO_advance 47 = 47 /\
  NoDup ((fun n => Nat.iter n FIFO_advance 47) <$> seq 0 47) /\
  forall n, 1 <= Nat.iter n FIFO_advance 47 < MAX_PAGE_FRAMES.
Proof. apply (FIFO_cursor_cycle 47). unfold MAX_PAGE_FRAMES. lia. Defined.

(** X5. On well-formed tables and a trace of pages the loop of [FIFO]
    runs to its end and none of its evictions, whether for an invalid
    or for a stale page, selects frame 0; the cursor ends among the
    frames 1 to [MAX_PAGE_FRAMES - 1]. *)
Theorem FIFO_never_evicts_frame_0 (st : sim) (refs : list Z) :
  wf (-1) st -> Forall page_ok refs ->
  exists es st' sel',
    FIFO_run st refs = Ok (es, (st', sel')) /\
    Forall spares_frame_0 es /\ 1 <= sel' < MAX_PAGE_FRAMES.
Proof.
  intros Hwf Hrefs.
  destruct (FIFO_summary st (MAX_PAGE_FRAMES - 1) refs)
    as (es & st' & sel' & Hrun & _ & Hsel & _ & Hspare); [done|done|done|].
  by exists es, st', sel'.
Qed.

Lemma FIFO_never_evicts_frame_0_witness :
  exists es st' sel',
    FIFO_run (main_tables 1) [3; 5; 3; 7] = Ok (es, (st', sel')) /\
    Forall spares_frame_0 es /\ 1 <= sel' < MAX_PAGE_FRAMES.
Proof.
  apply (FIFO_never_evicts_frame_0 (main_tables 1) [3; 5; 3; 7]).
  - apply wf_weaken, main_tables_wf.
  - apply small_trace_pages.
Defined.

(** X11. Under [RU], [OPT] and [RAN], whatever a reference to a page
    did, the same reference made again at once is a hit that counts no
    fault and leaves the page table, the frame table and the free frame
    list as they are ([OPT] only drops one more element of its
    reference string). *)
Theorem repeated_reference_hits (st : sim) (r : Z) (type ref : string)
    (rand : nat -> Z) (n : nat) (rs : list Z) :
  wf 0 st -> page_ok r -> (forall k, 0 <= rand k <= RAND_MAX) ->
  (exists e st',
     RU_step type st r = Ok (e, st') /\
     RU_step type st' r = Ok (Hit, st')) /\
  (exists e st',
     OPT_step (st, rs) r = Ok (e, (st', erase_first rs)) /\
     OPT_step (st', erase_first rs) r =
       Ok (Hit, (st', erase_first (erase_first rs)))) /\
  (exists e st' n',
     RAN_step ref rand (st, n) r = Ok (e, (st', n')) /\
     RAN_step ref rand (st', n') r = Ok (Hit, (st', n'))).
Proof.
  intros Hwf Hr Hrand. split; [|split].
  - destruct (RU_step_spec type st r Hwf Hr) as (e & st' & Hstep & _).
    exists e, st'. split; [done|]. eapply RU_step_twice; [apply Hwf|done].
  - destruct (OPT_step_spec st rs r Hwf Hr) as (e & st' & rs' & Hstep & _).
    pose proof (OPT_step_inv _ _ _ _ _ _ Hstep) as [_ ->].
    exists e, st'. split; [done|]. by eapply OPT_step_twice.
  - destruct (RAN_step_spec ref rand st n r Hrand Hwf Hr)
      as (e & st' & n' & Hstep & _).
    exists e, st', n'. split; [done|]. by eapply RAN_step_twice.
Qed.

Lemma repeated_reference_hits_witness :
  (exists e st',
     RU_step "LRU" (main_tables 2) 7 = Ok (e, st') /\
     RU_step "LRU" st' 7 = Ok (Hit, st')) /\
  (exists e st',
     OPT_step (main_tables 2, [7; 7]) 7 = Ok (e, (st', erase_first [7; 7])) /\
     OPT_step (st', erase_first [7; 7]) 7 =
       Ok (Hit, (st', erase_first (erase_first [7; 7])))) /\
  (exists e st' n',
     RAN_step "RAN" (fun _ => 0) (main_tables 2, O) 7 = Ok (e, (st', n')) /\
     RAN_step "RAN" (fun _ => 0) (st', n') 7 = Ok (Hit, (st', n'))).
Proof.
  apply (repeated_reference_hits (main_tables 2) 7 "LRU" "RAN" (fun _ => 0) O [7; 7]).
  - apply main_tables_wf.
  - unfold page_ok, MAX_NUM_PAGES. lia.
  - apply zero_rand_range.
Defined.

(** X12. Under [FIFO] the same holds except in one case. When the
    reference was a stale fault whose victim, the frame at the cursor,
    is the very frame the page table named for the page, the routine
    binds the page to that frame and then marks the frame -1: the page
    is not resident, and the same reference made again is a second
    stale fault, at the next cursor position. In every other case the
    repeated reference is a hit that changes nothing. *)
Theorem FIFO_repeated_reference (st : sim) (sel r : Z) :
  wf (-1) st -> 1 <= sel < MAX_PAGE_FRAMES -> page_ok r ->
  exists e st' sel',
    FIFO_step (st, sel) r = Ok (e, (st', sel')) /\
    (victim_is_old_frame e = false ->
     FIFO_step (st', sel') r = Ok (Hit, (st', sel'))) /\
    (victim_is_old_frame e = true ->
     e = StaleFault sel sel /\
     exists st'',
       FIFO_step (st', sel') r =
         Ok (StaleFault sel' sel, (st'', FIFO_advance sel')) /\
       fault_rate st'' = fault_rate st + 2).
Proof.
  intros Hwf Hsel Hr.
  destruct (FIFO_step_spec st sel r Hwf Hsel Hr)
    as (e & st' & sel' & Hstep & Hwf' & Hsel').
  exists e, st', sel'. split; [done|].
  pose proof (FIFO_step_facts _ _ _ _ _ _ Hstep) as Hfacts. split.
  - intros Hdiff. apply FIFO_step_hit. apply Hfacts. by right.
  - intros Hsame.
    destruct (FIFO_stale_same _ _ _ _ _ _ Hstep Hsame)
      as (-> & Hr0 & Hsel0 & row & frow & Hrow & Hvalid & Hframe & Hfrow & Hpage).
    split; [done|].
    destruct (FIFO_step_spec st' sel' r Hwf' Hsel' Hr)
      as (e2 & st'' & sel'' & Hstep2 & _).
    destruct (FIFO_stale_class st' sel' r row frow e2 st'' sel'')
      as (-> & -> & Hrate); try done.
    + by rewrite Hvalid.
    + by rewrite Hframe.
    + by rewrite Hframe.
    + lia.
    + exists st''. rewrite Hframe in Hstep2. split; [done|].
      destruct Hfacts. simpl in *. lia.
Qed.

Lemma FIFO_repeated_reference_witness :
  exists e st' sel',
    FIFO_step (main_tables 1, 47) 7 = Ok (e, (st', sel')) /\
    (victim_is_old_frame e = false ->
     FIFO_step (st', sel') 7 = Ok (Hit, (st', sel'))) /\
    (victim_is_old_frame e = true ->
     e = StaleFault 47 47 /\
     exists st'',
       FIFO_step (st', sel') 7 =
         Ok (StaleFault sel' 47, (st'', FIFO_advance sel')) /\
       fault_rate st'' = fault_rate (main_tables 1) + 2).
Proof.
  apply (FIFO_repeated_reference (main_tables 1) 47 7).
  - apply wf_weaken, main_tables_wf.
  - unfold MAX_PAGE_FRAMES. lia.
  - unfold page_ok, MAX_NUM_PAGES. lia.
Defined.

(** The exceptional case occurs in the [FIFO] run of [main]:
    after pages 0 to 142 (96 taken from the free frame list, 47 evicting
    frames 47 to 1) the cursor is back at 47, the frame the page table
    still names for page 0, and two references to page 0 in a row both
    fault. *)
Lemma FIFO_double_fault_example :
  exists es st sel,
    FIFO_run (main_tables 1) (seqZ 0 143 ++ [0; 0; 0]) = Ok (es, (st, sel)) /\
    drop 143 es = [StaleFault 47 47; StaleFault 46 47; Hit] /\
    fault_rate st = 145.
Proof.
  eexists _, _, _. split; [vm_compute; reflexivity|].
  split; [vm_compute; reflexivity|reflexivity].
Qed.

(** X13. The loop [while (!addresses.eof())] of every routine runs its
    body once more after the last token, on that token again, exactly
    when white space follows the token in the file, as in the files
    [createReferenceString] writes; when the file ends with the token
    the loop processes each token once. Under [RU], [OPT] and [RAN] the
    second pass is always a hit: the run is the run over the tokens
    followed by one hit, with the same final tables and fault rate.
    Under [FIFO] this holds unless the last token ended in a stale fault
    whose victim is the frame the page table named for the page. *)
Theorem trailing_read_is_hit (st : sim) (file : list Z) (x : Z)
    (type ref : string) (rand : nat -> Z) (white_space_at_end : bool) :
  wf 0 st -> Forall page_ok file -> last file = Some x ->
  (forall k, 0 <= rand k <= RAND_MAX) ->
  stream_reads white_space_at_end 0 file =
    file ++ (if white_space_at_end then [x] else []) /\
  stream_reads true 0 file = loop_reads file /\
  (exists es st',
     RU_run type st file = Ok (es, st') /\
     RU_run type st (stream_reads white_space_at_end 0 file) =
       Ok (es ++ second_pass white_space_at_end, st')) /\
  (exists es st',
     OPT_run st (read_oracle file) file =
       Ok (es, (st', drop (length file) (read_oracle file))) /\
     OPT_run st (read_oracle file) (stream_reads white_space_at_end 0 file) =
       Ok (es ++ second_pass white_space_at_end,
           (st', drop (length (stream_reads white_space_at_end 0 file))
                   (read_oracle file)))) /\
  (exists es st' n,
     RAN_run ref rand st file = Ok (es, (st', n)) /\
     RAN_run ref rand st (stream_reads white_space_at_end 0 file) =
       Ok (es ++ second_pass white_space_at_end, (st', n))) /\
  (exists es st' sel' e,
     FIFO_run st file = Ok (es, (st', sel')) /\ last es = Some e /\
     (white_space_at_end = false \/ victim_is_old_frame e = false ->
      FIFO_run st (stream_reads white_space_at_end 0 file) =
        Ok (es ++ second_pass white_space_at_end, (st', sel')))).
Proof.
  intros Hwf Hfile Hlast Hrand.
  split; [by apply stream_reads_last|].
  split; [by rewrite loop_reads_stream|].
  rewrite (stream_reads_last _ _ _ Hlast).
  destruct (RU_trailing type st file x Hwf Hfile Hlast)
    as (es1 & st1 & Hru & _ & _ & Hru').
  destruct (OPT_trailing st (read_oracle file) file x Hwf Hfile Hlast)
    as (es2 & st2 & Hopt & _ & _ & Hopt').
  destruct (RAN_trailing ref rand st file x Hrand Hwf Hfile Hlast)
    as (es3 & st3 & n3 & Hran & _ & _ & Hran').
  destruct (FIFO_trailing st file x (wf_weaken _ Hwf) Hfile Hlast)
    as (es4 & st4 & sel4 & e & Hfifo & _ & _ & He & Hfifo').
  destruct white_space_at_end; unfold second_pass.
  - split; [by exists es1, st1|]. split.
    { exists es2, st2. split; [done|]. rewrite length_app. simpl.
      by rewrite Nat.add_1_r. }
    split; [by exists es3, st3, n3|].
    exists es4, st4, sel4, e. split; [done|]. split; [done|].
    intros [Hws|Hvictim]; [done|]. by apply Hfifo'.
  - rewrite !app_nil_r. split; [exists es1, st1; by rewrite app_nil_r|].
    split; [exists es2, st2; by rewrite app_nil_r|].
    split; [exists es3, st3, n3; by rewrite app_nil_r|].
    exists es4, st4, sel4, e. by rewrite app_nil_r.
Qed.

Lemma trailing_read_is_hit_witness :
  stream_reads true 0 [3; 5; 3; 7] = [3; 5; 3; 7] ++ [7] /\
  stream_reads true 0 [3; 5; 3; 7] = loop_reads [3; 5; 3; 7] /\
  (exists es st',
     RU_run "LRU" (main_tables 2) [3; 5; 3; 7] = Ok (es, st') /\
     RU_run "LRU" (main_tables 2) (stream_reads true 0 [3; 5; 3; 7]) =
       Ok (es ++ second_pass true, st')) /\
  (exists es st',
     OPT_run (main_tables 2) (read_oracle [3; 5; 3; 7]) [3; 5; 3; 7] =
       Ok (es, (st', drop (length [3; 5; 3; 7]) (read_oracle [3; 5; 3; 7]))) /\
     OPT_run (main_tables 2) (read_oracle [3; 5; 3; 7])
       (stream_reads true 0 [3; 5; 3; 7]) =
       Ok (es ++ second_pass true,
           (st', drop (length (stream_reads true 0 [3; 5; 3; 7]))
                   (read_oracle [3; 5; 3; 7])))) /\
  (exists es st' n,
     RAN_run "RAN" (fun _ => 0) (main_tables 2) [3; 5; 3; 7] = Ok (es, (st', n)) /\
     RAN_run "RAN" (fun _ => 0) (main_tables 2) (stream_reads true 0 [3; 5; 3; 7]) =
       Ok (es ++ second_pass true, (st', n))) /\
  (exists es st' sel' e,
     FIFO_run (main_tables 2) [3; 5; 3; 7] = Ok (es, (st', sel')) /\
     last es = Some e /\
     (true = false \/ victim_is_old_frame e = false ->
      FIFO_run (main_tables 2) (stream_reads true 0 [3; 5; 3; 7]) =
        Ok (es ++ second_pass true, (st', sel')))).
Proof.
  apply (trailing_read_is_hit (main_tables 2) [3; 5; 3; 7] 7 "LRU" "RAN"
           (fun _ => 0) true).
  - apply main_tables_wf.
  - apply small_trace_pages.
  - reflexivity.
  - apply zero_rand_range.
Defined.

(** X14. For a file of at least [PROC_POOL_SIZE] tokens, what [OPT]
    reads into [reference_string] is the first [PROC_POOL_SIZE] tokens,
    and after [n] iterations of its loop the vector holds the tokens
    [n] to [PROC_POOL_SIZE - 1]: during each of the first
    [PROC_POOL_SIZE] iterations its first element is the reference
    being processed, and from then on it is empty. *)
Theorem OPT_reference_string_aligned (st : sim) (file : list Z) (n : nat) :
  wf 0 st -> Forall page_ok file ->
  PROC_POOL_SIZE <= Z.of_nat (length file) -> (n <= length file)%nat ->
  read_oracle file = take (Z.to_nat PROC_POOL_SIZE) file /\
  (exists es st',
     OPT_run st (read_oracle file) (take n file) =
       Ok (es, (st', drop n (take (Z.to_nat PROC_POOL_SIZE) file)))) /\
  (Z.of_nat n < PROC_POOL_SIZE ->
   head (drop n (take (Z.to_nat PROC_POOL_SIZE) file)) = file !! n) /\
  (PROC_POOL_SIZE <= Z.of_nat n ->
   drop n (take (Z.to_nat PROC_POOL_SIZE) file) = []).
Proof.
  intros Hwf Hfile Hlong Hn.
  assert (Horacle : read_oracle file = take (Z.to_nat PROC_POOL_SIZE) file).
  { unfold read_oracle. apply take_app_le. lia. }
  split; [done|]. split; [|split].
  - destruct (OPT_summary st (read_oracle file) (take n file) Hwf)
      as (es & st' & Hrun & _); [by apply Forall_take|].
    exists es, st'. by rewrite Hrun, length_take_le, Horacle.
  - intros Hlt. rewrite head_lookup, lookup_drop, Nat.add_0_r.
    apply lookup_take_lt. lia.
  - intros Hge. apply drop_ge. rewrite length_take. lia.
Qed.

Lemma OPT_reference_string_aligned_witness :
  read_oracle trace_49_pages_then_0 =
    take (Z.to_nat PROC_POOL_SIZE) trace_49_pages_then_0 /\
  (exists es st',
     OPT_run (main_tables 4) (read_oracle trace_49_pages_then_0)
       (take 50 trace_49_pages_then_0) =
       Ok (es, (st', drop 50 (take (Z.to_nat PROC_POOL_SIZE)
                                trace_49_pages_then_0)))) /\
  (Z.of_nat 50 < PROC_POOL_SIZE ->
   head (drop 50 (take (Z.to_nat PROC_POOL_SIZE) trace_49_pages_then_0)) =
   trace_49_pages_then_0 !! 50%nat) /\
  (PROC_POOL_SIZE <= Z.of_nat 50 ->
   drop 50 (take (Z.to_nat PROC_POOL_SIZE) trace_49_pages_then_0) = []).
Proof.
  apply (OPT_reference_string_aligned (main_tables 4) trace_49_pages_then_0 50).
  - apply main_tables_wf.
  - apply (bool_decide_unpack _). vm_compute. reflexivity.
  - vm_compute. discriminate.
  - vm_compute. lia.
Defined.

(** X15. Whenever [createReferenceString] finishes, with values of
    [rand()] between 0 and [RAND_MAX], the file it has written starts
    with page 0, has between [PROC_POOL_SIZE] and [PROC_POOL_SIZE + 3]
    tokens (the last batch of up to 4 copies may overshoot), and every
    token is a page of [0, MAX_NUM_PAGES). *)
Theorem createReferenceString_shape (fuel : nat) (rand : nat -> Z)
    (file : list Z) :
  (forall k, 0 <= rand k <= RAND_MAX) ->
  createReferenceString fuel rand = Some file ->
  head file = Some 0 /\
  PROC_POOL_SIZE <= Z.of_nat (length file) <= PROC_POOL_SIZE + 3 /\
  Forall page_ok file.
Proof.
  intros Hrand Hfile. unfold createReferenceString in Hfile.
  destruct (createReferenceString_loop_shape rand Hrand fuel O 1 [0] file)
    as (Hb & Hpages & rest & ->).
  - done.
  - unfold PROC_POOL_SIZE. lia.
  - by apply Forall_singleton.
  - done.
  - split; [done|]. by split.
Qed.

Lemma createReferenceString_shape_witness :
  head (replicate 500 0) = Some 0 /\
  PROC_POOL_SIZE <= Z.of_nat (length (replicate 500 0)) <= PROC_POOL_SIZE + 3 /\
  Forall page_ok (replicate 500 0).
Proof.
  apply (createReferenceString_shape 499 (fun _ => 1)).
  - intros k. unfold RAND_MAX. lia.
  - vm_compute. reflexivity.
Defined.

(** X16. [createReferenceString] never finishes when [rand() % 5] is 0
    at every call: no token is ever added after the first and the loop
    counter stays at 1. *)
Theorem createReferenceString_stuck (rand : nat -> Z) (fuel : nat) :
  (forall k, rand k `rem` 5 = 0) ->
  createReferenceString fuel rand = None.
Proof. intros Hzero. by apply createReferenceString_loop_stuck. Qed.

Lemma createReferenceString_stuck_witness :
  createReferenceString 1000 (fun _ => 10) = None.
Proof.
  apply (createReferenceString_stuck (fun _ => 10) 1000). reflexivity.
Defined.

(** X17. When [rand() % 5] is at least 1 at each call that draws a
    count (the calls numbered 0, 2, 4, ...), [createReferenceString]
    finishes within [PROC_POOL_SIZE - 1] iterations of its loop. *)
Theorem createReferenceString_terminates (rand : nat -> Z) (fuel : nat) :
  (forall j, 1 <= rand (2 * j)%nat `rem` 5) ->
  (499 <= fuel)%nat ->
  exists file, createReferenceString fuel rand = Some file.
Proof.
  intros Hpos Hfuel. unfold createReferenceString.
  apply (createReferenceString_loop_ends rand Hpos fuel O).
  unfold PROC_POOL_SIZE. lia.
Qed.

Lemma createReferenceString_terminates_witness :
  exists file, createReferenceString 499 (fun _ => 1) = Some file.
Proof.
  apply (createReferenceString_terminates (fun _ => 1) 499).
  - intros j. reflexivity.
  - lia.
Defined.

(** X18. On a file of pages [main] completes its six runs, and each of
    the six fault rates it prints is at least the number of distinct
    pages of the file and at most the number of tokens plus one (on a
    file that ends in white space the loops process the last token
    twice). *)
Theorem main_fault_rates_bounded (file : list Z) (rand : nat -> Z) :
  Forall page_ok file -> (forall n, 0 <= rand n <= RAND_MAX) ->
  exists report,
    main file rand = Ok report /\ length report = 6%nat /\
    Forall (fun c => Z.of_nat (length (remove_dups file)) <= c
                     <= Z.of_nat (length file) + 1) report.
Proof. intros Hfile Hrand. by apply main_bounds. Qed.

Lemma main_fault_rates_bounded_witness :
  exists report,
    main [3; 5; 3; 7] (fun _ => 0) = Ok report /\ length report = 6%nat /\
    Forall (fun c => Z.of_nat (length (remove_dups [3; 5; 3; 7])) <= c
                     <= Z.of_nat (length [3; 5; 3; 7]) + 1) report.
Proof.
  apply (main_fault_rates_bounded [3; 5; 3; 7] (fun _ => 0)).
  - apply small_trace_pages.
  - apply zero_rand_range.
Defined.

(** X19. On a non-empty file of pairwise distinct pages all six
    policies report the same fault rate, the number of tokens: every
    token faults whatever victim is chosen, and the second processing
    of the last token is a hit. *)
Theorem main_distinct_pages (file : list Z) (x : Z) (rand : nat -> Z) :
  Forall page_ok file -> NoDup file -> last file = Some x ->
  (forall n, 0 <= rand n <= RAND_MAX) ->
  main file rand = Ok (replicate 6 (Z.of_nat (length file))).
Proof.
  intros Hfile Hnd Hlast Hrand. unfold main, FIFO, RU, OPT, RAN.
  destruct (main_runs_distinct 1 file x "LRU" "RAN" rand Hfile Hnd Hlast Hrand)
    as ((es1 & st1 & sel1 & -> & H1) & _).
  rewrite bind_Ok. cbv beta iota.
  destruct (main_runs_distinct 2 file x "LRU" "RAN" rand Hfile Hnd Hlast Hrand)
    as (_ & (es2 & st2 & -> & H2) & _).
  rewrite bind_Ok. cbv beta iota.
  destruct (main_runs_distinct 3 file x "MRU" "RAN" rand Hfile Hnd Hlast Hrand)
    as (_ & (es3 & st3 & -> & H3) & _).
  rewrite bind_Ok. cbv beta iota.
  destruct (main_runs_distinct 4 file x "MRU" "RAN" rand Hfile Hnd Hlast Hrand)
    as (_ & _ & (es4 & st4 & rs4 & -> & H4) & _).
  rewrite bind_Ok. cbv beta iota.
  destruct (main_runs_distinct 5 file x "MRU" "RAN" rand Hfile Hnd Hlast Hrand)
    as (_ & _ & _ & (es5 & st5 & n5 & -> & H5)).
  rewrite bind_Ok. cbv beta iota.
  destruct (main_runs_distinct 6 file x "MRU" "RAN2" (fun i => rand (n5 + i)%nat)
              Hfile Hnd Hlast)
    as (_ & _ & _ & (es6 & st6 & n6 & -> & H6)); [done|].
  rewrite bind_Ok. cbv beta iota.
  by rewrite H1, H2, H3, H4, H5, H6.
Qed.

Lemma main_distinct_pages_witness :
  main (seqZ 0 500) (fun _ => 0) = Ok (replicate 6 (Z.of_nat (length (seqZ 0 500)))).
Proof.
  apply (main_distinct_pages (seqZ 0 500) 499 (fun _ => 0)).
  - apply Forall_seqZ. intros p Hp. unfold page_ok, MAX_NUM_PAGES. lia.
  - apply NoDup_seqZ.
  - vm_compute. reflexivity.
  - apply zero_rand_range.
Defined.

(** X20. Composition of the generator and the simulator: on every file
    [createReferenceString] can write, [main] completes its six runs
    without leaving an array, and each fault rate it prints is between
    1 and [PROC_POOL_SIZE + 4]. *)
Theorem main_on_written_file (fuel : nat) (rand0 rand : nat -> Z)
    (file : list Z) :
  (forall k, 0 <= rand0 k <= RAND_MAX) ->
  createReferenceString fuel rand0 = Some file ->
  (forall n, 0 <= rand n <= RAND_MAX) ->
  exists report,
    main file rand = Ok report /\ length report = 6%nat /\
    Forall (fun c => 1 <= c <= PROC_POOL_SIZE + 4) report.
Proof.
  intros Hrand0 Hfile Hrand. unfold createReferenceString in Hfile.
  destruct (createReferenceString_loop_shape rand0 Hrand0 fuel O 1 [0] file)
    as (Hb & Hpages & rest & ->); [done|done|by apply Forall_singleton|done|].
  apply main_bounds; [done|done| |lia].
  assert (Hsub : forall x : Z, x ∈ [0] -> x ∈ [0] ++ rest).
  { intros x Hx. apply elem_of_app. by left. }
  pose proof (remove_dups_length_mono [0] ([0] ++ rest) Hsub) as Hmono.
  change (length (remove_dups [0])) with 1%nat in Hmono. lia.
Qed.

Lemma main_on_written_file_witness :
  exists report,
    main (replicate 500 0) (fun _ => 0) = Ok report /\ length report = 6%nat /\
    Forall (fun c => 1 <= c <= PROC_POOL_SIZE + 4) report.
Proof.
  apply (main_on_written_file 499 (fun _ => 1) (fun _ => 0)).
  - intros k. unfold RAND_MAX. lia.
  - vm_compute. reflexivity.
  - apply zero_rand_range.
Defined.

(** X21. The routines compare their string parameter with one literal
    only. [RU] is the MRU policy for ["MRU"] exactly and behaves as
    under ["LRU"] for every other string; [RAN] draws with the
    floating-point formula for ["RAN"] exactly and with [rand() %
    MAX_PAGE_FRAMES], as under ["RAN2"], for every other string. *)
Theorem routine_type_defaults (type ref : string) :
  type <> "MRU"%string -> ref <> "RAN"%string ->
  (forall st refs, RU_run type st refs = RU_run "LRU" st refs) /\
  (forall rand st refs,
     RAN_run ref rand st refs = RAN_run "RAN2" rand st refs).
Proof.
  intros Htype Href. split.
  - intros st refs. apply run_ext. intros s r. by apply RU_step_default.
  - intros rand st refs. apply run_ext. intros s r. by apply RAN_step_default.
Qed.

Lemma routine_type_defaults_witness :
  (forall st refs, RU_run "mru" st refs = RU_run "LRU" st refs) /\
  (forall rand st refs,
     RAN_run "ran" rand st refs = RAN_run "RAN2" rand st refs).
Proof. apply (routine_type_defaults "mru" "ran"); discriminate. Defined.
